(** * LocalTabletsChannel: the tablet write channel of the load path

    A shallow embedding of [be/src/runtime/local_tablets_channel.cpp]:
    the row scatter of [_create_write_context], the sliding-window
    deduplication and the close protocol of [add_chunk], and the sorted
    tablet index built by [_open_all_writers]; then [add_segment], the two
    [cancel]s, [WriteCallback::run], the global dictionaries and the count
    of open writers of [_open_all_writers] and the destructor, and the wait
    of the closing call for the secondary replicas.

    Conventions.
    - [uint32_t] cells are [Z] values kept in [0, 2^32) by [wrap32];
      [uint32_t[]] buffers are lists, read with [!!] and written with
      [<[i:=v]>]; an access outside the buffer is undefined behaviour in the
      source and is the outcome [Undefined] here.
    - [int64_t] packet sequence numbers, tablet ids and partition ids are
      [Z]; signed 64-bit arithmetic is the one of [Z] (the source has no
      defined behaviour on signed overflow). The counter
      [_num_remaining_senders] is a [Z] as well.
    - [std::set<int64_t>] is [gset Z], with [cbegin] the least element;
      the unordered maps are [gmap]s.
    - the per-tablet writers are external; a call to one of them is an
      [Event] in the trace of the call.
    - [_max_sliding_window_size] and the initial value of
      [last_sliding_packet_seq] are declared in the header of the class;
      they are parameters here.
    - a loop that may not end takes a number of passes it is allowed, and
      is [OutOfFuel] when that number is used up.
    - what the closing call sees of the world while it waits, the states
      of the writers and the clock, is given by the number of times it has
      slept.

    [add_chunk] is given twice: as a function, for what one call does to a
    channel, and cut into its blocks (each under one lock, or one atomic
    access), for what calls that overlap do. Lemma [add_chunk_execution]
    relates the two. *)

From Stdlib Require Import ZArith Lia.
From stdpp Require Import gmap list sorting strings.

Local Open Scope Z_scope.

(** ** Status codes and outcomes *)

Inductive TStatusCode : Set :=
  | OK
  | INVALID_ARGUMENT
  | DUPLICATE_RPC_INVOCATION
  | INTERNAL_ERROR.

Global Instance TStatusCode_eq_dec : EqDecision TStatusCode.
Proof. solve_decision. Defined.

(** [StatusOr<T>] of the source. *)
Inductive StatusOr (A : Type) : Type :=
  | Value (a : A)
  | Failure (code : TStatusCode).
Arguments Value {A} a.
Arguments Failure {A} code.

(** The outcome of running a piece of the source: it finishes with a
    result, it steps outside the language (an out-of-bounds access, a
    dereferenced [end()] iterator), or the loop budget given to the model
    ran out before it finished. *)
Inductive Run (A : Type) : Type :=
  | Done (a : A)
  | Undefined
  | OutOfFuel.
Arguments Done {A} a.
Arguments Undefined {A}.
Arguments OutOfFuel {A}.

Global Instance run_ret : MRet Run := λ A a, Done a.
Global Instance run_bind : MBind Run := λ A B k r,
  match r with
  | Done a => k a
  | Undefined => Undefined
  | OutOfFuel => OutOfFuel
  end.

(** Reading a cell of a buffer. *)
Definition read {A : Type} (buf : list A) (i : nat) : Run A :=
  match buf !! i with
  | Some a => Done a
  | None => Undefined
  end.

(** Writing a cell of a buffer. *)
Definition write {A : Type} (buf : list A) (i : nat) (a : A) : Run (list A) :=
  if decide (i < length buf)%nat then Done (<[i:=a]> buf) else Undefined.

(** ** Machine integers *)

Definition wrap32 (z : Z) : Z := z mod 2 ^ 32.
Definition wrap64 (z : Z) : Z := z mod 2 ^ 64.

(** ** Requests and chunks *)

(** The fields of [PTabletWriterAddChunkRequest] the channel reads.
    [sender_id], [packet_seq] and [eos] are optional protobuf fields: the
    accessor of an absent field returns the default. *)
Record PTabletWriterAddChunkRequest : Type := {
  opt_sender_id : option Z;
  opt_packet_seq : option Z;
  opt_eos : option bool;
  tablet_ids : list Z;
  partition_ids : list Z;
}.

Definition has_sender_id (r : PTabletWriterAddChunkRequest) : bool :=
  bool_decide (is_Some (opt_sender_id r)).
Definition sender_id (r : PTabletWriterAddChunkRequest) : Z :=
  default 0 (opt_sender_id r).
Definition has_packet_seq (r : PTabletWriterAddChunkRequest) : bool :=
  bool_decide (is_Some (opt_packet_seq r)).
Definition packet_seq (r : PTabletWriterAddChunkRequest) : Z :=
  default 0 (opt_packet_seq r).
Definition eos (r : PTabletWriterAddChunkRequest) : bool :=
  default false (opt_eos r).
Definition tablet_ids_size (r : PTabletWriterAddChunkRequest) : nat :=
  length (tablet_ids r).

(** Of a [vectorized::Chunk] the channel only reads the number of rows;
    [None] is the null pointer. *)
Record Chunk : Type := { num_rows : nat }.

(** ** The sorted tablet index *)

(** [std::unordered_map::emplace]: an existing key keeps its value. *)
Definition emplace {V : Type} (k : Z) (v : V) (m : gmap Z V) : gmap Z V :=
  match m !! k with
  | Some _ => m
  | None => <[k:=v]> m
  end.

(** [std::unordered_map::operator[]]: an absent key is inserted with the
    value-initialised mapped value. *)
Definition subscript (m : gmap Z Z) (k : Z) : gmap Z Z * Z :=
  match m !! k with
  | Some v => (m, v)
  | None => (<[k:=0]> m, 0)
  end.

(** The loop [for (size_t i = 0; i < tablet_ids.size(); ++i)
    _tablet_id_to_sorted_indexes.emplace(tablet_ids[i], i)], started at
    index [i]. *)
Fixpoint emplace_from (i : nat) (sorted : list Z) (m : gmap Z Z) : gmap Z Z :=
  match sorted with
  | [] => m
  | t :: rest => emplace_from (S i) rest (emplace t (wrap32 (Z.of_nat i)) m)
  end.

(** The tail of [_open_all_writers]: [std::sort] the tablet ids, then give
    each its position. *)
Definition sorted_indexes (ids : list Z) : gmap Z Z :=
  emplace_from 0 (merge_sort Z.le ids) ∅.

(** ** The write context and the row scatter *)

(** [_row_indexes] and [_channel_row_idx_start_points]; [None] is the null
    [unique_ptr]. *)
Record WriteContext : Type := {
  _row_indexes : option (list Z);
  _channel_row_idx_start_points : option (list Z);
}.

(** First loop of the scatter: one increment per row, in the cell of the
    row's ordinal. The ordinal is read with [operator[]], so the index map
    is threaded through. *)
Fixpoint count_rows (ids : list Z) (idx : gmap Z Z) (points : list Z)
  : Run (gmap Z Z * list Z) :=
  match ids with
  | [] => Done (idx, points)
  | tablet_id :: rest =>
      let '(idx', channel_index) := subscript idx tablet_id in
      c ← read points (Z.to_nat channel_index);
      points' ← write points (Z.to_nat channel_index) (wrap32 (c + 1));
      count_rows rest idx' points'
  end.

(** Second loop: [for (int i = 1; i <= channel_size; ++i)
    points[i] += points[i - 1]]; [n] iterations are left and the loop
    variable is [i]. *)
Fixpoint accumulate (n : nat) (i : nat) (points : list Z) : Run (list Z) :=
  match n with
  | O => Done points
  | S n' =>
      a ← read points i;
      b ← read points (i - 1);
      points' ← write points i (wrap32 (a + b));
      accumulate n' (S i) points'
  end.

(** Third loop: [for (int i = tablet_ids_size - 1; i >= 0; --i)]; the
    argument [k] is the number of rows still to place, the loop variable
    is [k - 1]. *)
Fixpoint scatter_rows (k : nat) (ids : list Z) (idx : gmap Z Z)
    (rows points : list Z) : Run (StatusOr (list Z * list Z)) :=
  match k with
  | O => Done (Value (rows, points))
  | S i =>
      tablet_id ← read ids i;
      match idx !! tablet_id with
      | None => Done (Failure INTERNAL_ERROR)
      | Some channel_index =>
          c ← read points (Z.to_nat channel_index);
          rows' ← write rows (Z.to_nat (wrap32 (c - 1))) (wrap32 (Z.of_nat i));
          points' ← write points (Z.to_nat channel_index) (wrap32 (c - 1));
          scatter_rows i ids idx rows' points'
      end
  end.

(** [_create_write_context]. The result carries the index map because the
    counting loop may have inserted into it. *)
Definition _create_write_context (idx : gmap Z Z) (chunk : option Chunk)
    (request : PTabletWriterAddChunkRequest)
  : Run (gmap Z Z * StatusOr WriteContext) :=
  match chunk with
  | None =>
      if eos request
      then Done (idx, Value {| _row_indexes := None;
                               _channel_row_idx_start_points := None |})
      else Done (idx, Failure INVALID_ARGUMENT)
  | Some chunk =>
      if decide (tablet_ids_size request ≠ num_rows chunk)
      then Done (idx, Failure INVALID_ARGUMENT)
      else
        let channel_size := size idx in
        let rows := replicate (num_rows chunk) 0 in
        let points := replicate (channel_size + 1) 0 in
        '(idx1, points1) ← count_rows (tablet_ids request) idx points;
        points2 ← accumulate channel_size 1 points1;
        res ← scatter_rows (tablet_ids_size request) (tablet_ids request)
                idx1 rows points2;
        match res with
        | Failure code => Done (idx1, Failure code)
        | Value (rows3, points3) =>
            Done (idx1, Value {| _row_indexes := Some rows3;
                                 _channel_row_idx_start_points := Some points3 |})
        end
  end.

(** ** Sender slots and the sliding windows *)

(** [struct Sender] without its lock: each block of [add_chunk] that
    touches a slot runs under that lock and is one atomic function here. *)
Record Sender : Type := {
  receive_sliding_window : gset Z;
  success_sliding_window : gset Z;
  last_sliding_packet_seq : Z;
}.

(** A slot as [open] creates it. The initial value of
    [last_sliding_packet_seq] is a member initialiser of the header. *)
Definition new_sender (initial_seq : Z) : Sender :=
  {| receive_sliding_window := ∅;
     success_sliding_window := ∅;
     last_sliding_packet_seq := initial_seq |}.

(** The least element of a list, for [std::set::cbegin]. *)
Definition list_min (l : list Z) : option Z :=
  foldr (λ x acc, Some (from_option (Z.min x) x acc)) None l.

Definition cbegin (X : gset Z) : option Z := list_min (elements X).

(** [*it]: dereferencing [end()] is undefined. *)
Definition deref (it : option Z) : Run Z :=
  match it with
  | Some x => Done x
  | None => Undefined
  end.

(** What the admission block of [add_chunk] decides. *)
Inductive Admission : Set :=
  | Reply (code : TStatusCode)
  | Proceed.

Section sliding_window.

(** [_max_sliding_window_size], an [int] constant of the header. *)
Variable _max_sliding_window_size : Z.

(** The first locked block of [add_chunk] (the admission check). The sum
    [last_sliding_packet_seq + _max_sliding_window_size] is made in [Z];
    the source makes it in [int64_t], and the two agree when the sum is an
    [int64_t] ([no_overflow] below). *)
Definition window_check (s : Sender) (seq : Z) (is_eos : bool) : Sender * Admission :=
  if decide (seq ∈ receive_sliding_window s) then
    if bool_decide (seq ∉ success_sliding_window s) || is_eos
    then (s, Reply DUPLICATE_RPC_INVOCATION)
    else (s, Reply OK)
  else if decide (seq ≤ last_sliding_packet_seq s) then (s, Reply OK)
  else if decide (seq > last_sliding_packet_seq s + _max_sliding_window_size)
  then (s, Reply INVALID_ARGUMENT)
  else ({| receive_sliding_window := {[seq]} ∪ receive_sliding_window s;
           success_sliding_window := success_sliding_window s;
           last_sliding_packet_seq := last_sliding_packet_seq s |}, Proceed).

(** The loop condition [success_sliding_window.size() >
    _max_sliding_window_size / 2]: the division is the one of [int], the
    comparison is made in [size_t]. *)
Definition window_over_half (s : Sender) : bool :=
  bool_decide (wrap64 (_max_sliding_window_size `quot` 2)
               < Z.of_nat (size (success_sliding_window s))).

(** One pass through the body of the pruning loop. *)
Definition prune_once (s : Sender) : Run Sender :=
  last_success ← deref (cbegin (success_sliding_window s));
  if decide (last_sliding_packet_seq s + 1 = last_success) then
    last_receive ← deref (cbegin (receive_sliding_window s));
    if decide (last_success = last_receive) then
      Done {| receive_sliding_window := receive_sliding_window s ∖ {[last_receive]};
              success_sliding_window := success_sliding_window s ∖ {[last_success]};
              last_sliding_packet_seq := last_sliding_packet_seq s + 1 |}
    else Done s
  else Done s.

(** The [while] loop; [fuel] bounds the number of passes. *)
Fixpoint prune (fuel : nat) (s : Sender) : Run Sender :=
  if window_over_half s then
    match fuel with
    | O => OutOfFuel
    | S fuel' => s' ← prune_once s; prune fuel' s'
    end
  else Done s.

(** The last locked block of [add_chunk] (the success-window update). *)
Definition record_success (fuel : nat) (s : Sender) (seq : Z) : Run Sender :=
  prune fuel
    {| receive_sliding_window := receive_sliding_window s;
       success_sliding_window := {[seq]} ∪ success_sliding_window s;
       last_sliding_packet_seq := last_sliding_packet_seq s |}.

End sliding_window.

(** The range of [int64_t], the type of [packet_seq] and of
    [last_sliding_packet_seq]. *)
Definition INT64_MIN : Z := - 2 ^ 63.
Definition INT64_MAX : Z := 2 ^ 63 - 1.

Definition in_int64 (z : Z) : Prop := INT64_MIN ≤ z ≤ INT64_MAX.

(** The admission check adds [_max_sliding_window_size] to
    [last_sliding_packet_seq] in [int64_t]; [window_check] adds them in
    [Z], which is the same sum as long as it stays within [int64_t]. *)
Definition no_overflow (W : Z) (s : Sender) : Prop :=
  in_int64 (last_sliding_packet_seq s)
  ∧ in_int64 (last_sliding_packet_seq s + W).

(** ** The channel *)

Inductive ReplicaState : Set := Primary | Secondary.

Global Instance ReplicaState_eq_dec : EqDecision ReplicaState.
Proof. solve_decision. Defined.

(** What the channel reads of an [AsyncDeltaWriter]. *)
Record AsyncDeltaWriter : Type := {
  partition_id : Z;
  replica_state : ReplicaState;
}.

(** Calls made to the tablet writers. *)
Inductive Event : Type :=
  | EvWrite (tablet_id : Z) (indexes : list Z)
  | EvCommit (tablet_id : Z)
  | EvAbort (tablet_id : Z).

Record LocalTabletsChannel : Type := {
  _senders : list Sender;
  _num_remaining_senders : Z;
  _partition_ids : gset Z;
  _delta_writers : gmap Z AsyncDeltaWriter;
  _tablet_id_to_sorted_indexes : gmap Z Z;
}.

Definition with_sender (ch : LocalTabletsChannel) (i : nat) (s : Sender)
  : LocalTabletsChannel :=
  {| _senders := <[i:=s]> (_senders ch);
     _num_remaining_senders := _num_remaining_senders ch;
     _partition_ids := _partition_ids ch;
     _delta_writers := _delta_writers ch;
     _tablet_id_to_sorted_indexes := _tablet_id_to_sorted_indexes ch |}.

Definition with_sorted_indexes (ch : LocalTabletsChannel) (idx : gmap Z Z)
  : LocalTabletsChannel :=
  {| _senders := _senders ch;
     _num_remaining_senders := _num_remaining_senders ch;
     _partition_ids := _partition_ids ch;
     _delta_writers := _delta_writers ch;
     _tablet_id_to_sorted_indexes := idx |}.

(** [_num_remaining_senders.fetch_sub(1)]: the value before the
    decrement is returned. *)
Definition fetch_sub (ch : LocalTabletsChannel) : LocalTabletsChannel * Z :=
  ({| _senders := _senders ch;
      _num_remaining_senders := _num_remaining_senders ch - 1;
      _partition_ids := _partition_ids ch;
      _delta_writers := _delta_writers ch;
      _tablet_id_to_sorted_indexes := _tablet_id_to_sorted_indexes ch |},
   _num_remaining_senders ch).

(** The block of [_close_sender] under [_partitions_ids_lock]. *)
Definition insert_partitions (ch : LocalTabletsChannel) (partitions : list Z)
  : LocalTabletsChannel :=
  {| _senders := _senders ch;
     _num_remaining_senders := _num_remaining_senders ch;
     _partition_ids := list_to_set partitions ∪ _partition_ids ch;
     _delta_writers := _delta_writers ch;
     _tablet_id_to_sorted_indexes := _tablet_id_to_sorted_indexes ch |}.

(** [_close_sender]: the result is the number of senders left. The
    [DCHECK_GE(n, 1)] between the two blocks is compiled out of release
    builds and is left out. *)
Definition _close_sender (ch : LocalTabletsChannel) (partitions : list Z)
  : LocalTabletsChannel * Z :=
  let '(ch1, n) := fetch_sub ch in
  (insert_partitions ch1 partitions, n - 1).

(** The body of the loop over [_delta_writers] in the closing call. *)
Definition close_writer (touched : gset Z) (entry : Z * AsyncDeltaWriter)
  : list Event :=
  let '(tablet_id, delta_writer) := entry in
  if decide (replica_state delta_writer ≠ Secondary) then
    if decide (partition_id delta_writer ∉ touched)
    then [EvAbort tablet_id]
    else [EvCommit tablet_id]
  else [].

Definition close_writers (ch : LocalTabletsChannel) : list Event :=
  map_to_list (_delta_writers ch) ≫= close_writer (_partition_ids ch).

(** [row_indexes + from] with [indexes_size] cells behind it. *)
Definition slice (rows : list Z) (from count : nat) : Run (list Z) :=
  if decide (from + count ≤ length rows)%nat
  then Done (take count (drop from rows))
  else Undefined.

(** The dispatch loop [for (int i = 0; i < channel_size; ++i)]: [n]
    iterations are left and the loop variable is [i]. *)
Fixpoint dispatch (n i : nat) (writers : gmap Z AsyncDeltaWriter)
    (ids rows points : list Z) : Run (list Event) :=
  match n with
  | O => Done []
  | S n' =>
      from ← read points i;
      upto ← read points (S i);
      let count := wrap64 (upto - from) in
      if decide (count = 0) then dispatch n' (S i) writers ids rows points
      else
        row ← read rows (Z.to_nat from);
        tablet_id ← read ids (Z.to_nat row);
        match writers !! tablet_id with
        | None => Undefined
        | Some _ =>
            indexes ← slice rows (Z.to_nat from) (Z.to_nat count);
            rest ← dispatch n' (S i) writers ids rows points;
            Done (EvWrite tablet_id indexes :: rest)
        end
  end.

(** The buffers of a context made for a chunk are not null. *)
Definition dispatch_writes (ch : LocalTabletsChannel) (chunk : option Chunk)
    (request : PTabletWriterAddChunkRequest) (context : WriteContext)
  : Run (list Event) :=
  match chunk with
  | None => Done []
  | Some _ =>
      let channel_size := size (_tablet_id_to_sorted_indexes ch) in
      match channel_size, _row_indexes context,
            _channel_row_idx_start_points context with
      | O, _, _ => Done []
      | _, Some rows, Some points =>
          dispatch channel_size 0 (_delta_writers ch) (tablet_ids request)
            rows points
      | _, _, _ => Undefined
      end
  end.

(** What a call of [add_chunk] leaves behind: the status code it wrote
    into the response, the calls it made to the tablet writers, and
    whether it was the call that closed the channel. The status is the
    one [add_chunk] sets; a writer may still overwrite it from its
    callback. *)
Record CallResult : Type := {
  status_code : TStatusCode;
  trace : list Event;
  close_channel : bool;
}.

Definition reply (code : TStatusCode) : CallResult :=
  {| status_code := code; trace := []; close_channel := false |}.

Section add_chunk.

Variable _max_sliding_window_size : Z.

(** The checks of the request and the first locked block. *)
Definition admission (ch : LocalTabletsChannel)
    (request : PTabletWriterAddChunkRequest)
  : Run (LocalTabletsChannel * Admission) :=
  if negb (has_sender_id request) then Done (ch, Reply INVALID_ARGUMENT)
  else if decide (sender_id request < 0) then Done (ch, Reply INVALID_ARGUMENT)
  else if decide (sender_id request >= Z.of_nat (length (_senders ch)))
  then Done (ch, Reply INVALID_ARGUMENT)
  else if negb (has_packet_seq request) then Done (ch, Reply INVALID_ARGUMENT)
  else
    let slot := Z.to_nat (sender_id request) in
    sender ← read (_senders ch) slot;
    match window_check _max_sliding_window_size sender (packet_seq request) (eos request) with
    | (_, Reply code) => Done (ch, Reply code)
    | (sender1, Proceed) => Done (with_sender ch slot sender1, Proceed)
    end.

(** [_create_write_context] and the dispatch loop. *)
Definition scatter_and_dispatch (ch : LocalTabletsChannel)
    (chunk : option Chunk) (request : PTabletWriterAddChunkRequest)
  : Run (LocalTabletsChannel * StatusOr (list Event)) :=
  '(idx, res) ← _create_write_context (_tablet_id_to_sorted_indexes ch)
                  chunk request;
  let ch1 := with_sorted_indexes ch idx in
  match res with
  | Failure code => Done (ch1, Failure code)
  | Value context =>
      writes ← dispatch_writes ch1 chunk request context;
      Done (ch1, Value writes)
  end.

(** The last locked block. *)
Definition success_update (fuel : nat) (ch : LocalTabletsChannel)
    (request : PTabletWriterAddChunkRequest) : Run LocalTabletsChannel :=
  let slot := Z.to_nat (sender_id request) in
  sender ← read (_senders ch) slot;
  sender1 ← record_success _max_sliding_window_size fuel sender
              (packet_seq request);
  Done (with_sender ch slot sender1).

(** [add_chunk], with the waits on the count-down latch and on the
    secondary replicas, the removal from the load channel and the
    persisting of the transaction left out. The [status_code] of a call
    that submits its writes is the [OK] that [add_chunk] sets before it
    submits them; what the writers report through their callbacks while
    the call waits on the latch is not an input of the model, so the
    status such a call answers in the end is not modelled. *)
Definition add_chunk (fuel : nat) (ch : LocalTabletsChannel)
    (chunk : option Chunk) (request : PTabletWriterAddChunkRequest)
  : Run (LocalTabletsChannel * CallResult) :=
  '(ch1, verdict) ← admission ch request;
  match verdict with
  | Reply code => Done (ch1, reply code)
  | Proceed =>
      '(ch2, res) ← scatter_and_dispatch ch1 chunk request;
      match res with
      | Failure code => Done (ch2, reply code)
      | Value writes =>
          let '(ch3, closing, calls) :=
            if eos request then
              let '(ch', remaining) := _close_sender ch2 (partition_ids request) in
              if decide (remaining = 0) then (ch', true, close_writers ch')
              else (ch', false, [])
            else (ch2, false, []) in
          ch4 ← success_update fuel ch3 request;
          Done (ch4, {| status_code := OK;
                        trace := writes ++ calls;
                        close_channel := closing |})
      end
  end.

End add_chunk.

(** ** Opening the channel *)

Record PTabletWithPartition : Type := {
  tablet_id : Z;
  tablet_partition_id : Z;
}.

(** The fields of [PTabletWriterOpenRequest] that shape the channel;
    [index_in_schema] says whether the schema has the index id of the
    request. *)
Record PTabletWriterOpenRequest : Type := {
  num_senders : Z;
  tablets : list PTabletWithPartition;
  index_in_schema : bool;
}.

Section open.

(** [AsyncDeltaWriter::open], external. *)
Variable open_writer : PTabletWithPartition → StatusOr AsyncDeltaWriter.
(** The member initialiser of [Sender::last_sliding_packet_seq]. *)
Variable initial_seq : Z.

(** The loop over [params.tablets()] of [_open_all_writers]. *)
Fixpoint open_writers (ts : list PTabletWithPartition)
    (writers : gmap Z AsyncDeltaWriter) (ids : list Z)
  : StatusOr (gmap Z AsyncDeltaWriter * list Z) :=
  match ts with
  | [] => Value (writers, ids)
  | t :: rest =>
      match open_writer t with
      | Failure code => Failure code
      | Value writer =>
          open_writers rest (emplace (tablet_id t) writer writers)
            (ids ++ [tablet_id t])
      end
  end.

(** [_open_all_writers], without the global dictionaries: the index of the
    request is looked up in the schema, a writer is opened for each tablet,
    and the sorted tablet index is built. *)
Definition _open_all_writers (params : PTabletWriterOpenRequest)
  : StatusOr (gmap Z AsyncDeltaWriter * gmap Z Z) :=
  if negb (index_in_schema params) then Failure INVALID_ARGUMENT
  else
    match open_writers (tablets params) ∅ [] with
    | Failure code => Failure code
    | Value (writers, ids) => Value (writers, sorted_indexes ids)
    end.

(** [open]; a negative sender count makes the vector constructor throw. *)
Definition open (params : PTabletWriterOpenRequest)
  : Run (StatusOr LocalTabletsChannel) :=
  if decide (num_senders params < 0) then Undefined
  else
    match _open_all_writers params with
    | Failure code => Done (Failure code)
    | Value (writers, idx) =>
        Done (Value
          {| _senders := replicate (Z.to_nat (num_senders params))
                           (new_sender initial_seq);
             _num_remaining_senders := num_senders params;
             _partition_ids := ∅;
             _delta_writers := writers;
             _tablet_id_to_sorted_indexes := idx |})
    end.

End open.

(** ** A run of calls, one after the other *)

Section calls.

Variable _max_sliding_window_size : Z.

Fixpoint add_chunks (fuel : nat) (ch : LocalTabletsChannel)
    (calls : list (option Chunk * PTabletWriterAddChunkRequest))
  : Run (LocalTabletsChannel * list CallResult) :=
  match calls with
  | [] => Done (ch, [])
  | (chunk, request) :: rest =>
      '(ch1, r) ← add_chunk _max_sliding_window_size fuel ch chunk request;
      '(ch2, rs) ← add_chunks fuel ch1 rest;
      Done (ch2, r :: rs)
  end.

End calls.

(** ** Segments and cancellation *)

(** What a call of [add_segment] leaves behind: the status it wrote into
    the response, if any; whether the closure [done] was run when the
    [ClosureGuard] went out of scope; and the tablet whose writer was handed
    the request, together with the closure, by [write_segment]. *)
Record SegmentResult : Type := {
  segment_status : option TStatusCode;
  done_run : bool;
  write_segment : option Z;
}.

(** [add_segment]; of the request it reads the tablet id. *)
Definition add_segment (ch : LocalTabletsChannel) (tablet_id : Z)
  : SegmentResult :=
  match _delta_writers ch !! tablet_id with
  | None => {| segment_status := Some INTERNAL_ERROR;
               done_run := true;
               write_segment := None |}
  | Some _ => {| segment_status := None;
                 done_run := false;
                 write_segment := Some tablet_id |}
  end.

(** A call of [abort(with_log)] on the writer of a tablet; [EvAbort] of
    the closing call is [CallAbort] without log. *)
Inductive AbortCall : Type :=
  | CallAbort (tablet_id : Z) (with_log : bool).

(** [cancel()]: the loop over [_delta_writers]. *)
Definition cancel (ch : LocalTabletsChannel) : list AbortCall :=
  (λ entry, CallAbort entry.1 false) <$> map_to_list (_delta_writers ch).

(** [cancel(int64_t tablet_id)]. *)
Definition cancel_tablet (ch : LocalTabletsChannel) (tablet_id : Z)
  : list AbortCall :=
  match _delta_writers ch !! tablet_id with
  | Some _ => [CallAbort tablet_id true]
  | None => []
  end.

(** ** The callback of a write or a commit *)

(** [PTabletInfo], the entry of the response for a committed tablet. *)
Record PTabletInfo : Type := {
  info_tablet_id : Z;
  info_schema_hash : Z;
  valid_dict_cache_columns : list string;
  invalid_dict_cache_columns : list string;
}.

(** What [WriteCallback::run] reads of a [CommittedRowsetInfo]: the
    tablet, what the rowset writer says of the global dictionary of each
    column, in the order of the iteration, and the tablet infos of the
    replicate token, [None] when there is no token. *)
Record CommittedRowsetInfo : Type := {
  committed_tablet_id : Z;
  committed_schema_hash : Z;
  global_dict_columns_valid_info : list (string * bool);
  replicated_tablet_infos : option (list PTabletInfo);
}.

(** The calls [run] makes to the write context. *)
Inductive ContextCall : Type :=
  | UpdateStatus (st : TStatusCode)
  | AddCommittedTabletInfo (info : PTabletInfo).

(** The body of the loop over [global_dict_columns_valid_info]. *)
Definition add_dict_column (info : PTabletInfo) (item : string * bool)
  : PTabletInfo :=
  if item.2
  then {| info_tablet_id := info_tablet_id info;
          info_schema_hash := info_schema_hash info;
          valid_dict_cache_columns := valid_dict_cache_columns info ++ [item.1];
          invalid_dict_cache_columns := invalid_dict_cache_columns info |}
  else {| info_tablet_id := info_tablet_id info;
          info_schema_hash := info_schema_hash info;
          valid_dict_cache_columns := valid_dict_cache_columns info;
          invalid_dict_cache_columns :=
            invalid_dict_cache_columns info ++ [item.1] |}.

(** [WriteCallback::run]; [None] is the null [info]. *)
Definition run (st : TStatusCode) (info : option CommittedRowsetInfo)
  : list ContextCall :=
  UpdateStatus st ::
  match info with
  | None => []
  | Some info =>
      let tablet_info :=
        foldl add_dict_column
          {| info_tablet_id := committed_tablet_id info;
             info_schema_hash := committed_schema_hash info;
             valid_dict_cache_columns := [];
             invalid_dict_cache_columns := [] |}
          (global_dict_columns_valid_info info) in
      AddCommittedTabletInfo tablet_info ::
      match replicated_tablet_infos info with
      | Some infos => AddCommittedTabletInfo <$> infos
      | None => []
      end
  end.

(** ** The global dictionaries *)

(** What [_open_all_writers] reads of a slot descriptor of the schema of
    the open request. *)
Record PSlotDescriptor : Type := {
  col_name : string;
  global_dict_words : list string;
}.

(** [emplace], and [insert] of a pair, on a map with any keys: an existing
    key keeps its value. *)
Definition emplace_key `{Countable K} {V : Type} (k : K) (v : V)
    (m : gmap K V) : gmap K V :=
  match m !! k with
  | Some _ => m
  | None => <[k:=v]> m
  end.

(** The [size_t] loop variable stored as a [DictId], an [int32_t] of the
    header. *)
Definition to_int32 (z : Z) : Z := (z + 2 ^ 31) mod 2 ^ 32 - 2 ^ 31.

Section global_dicts.

(** [_mem_pool->allocate], external: whether the allocation made after
    [n] others returns memory. *)
Variable allocate : nat → bool.

(** The loop over the words of a slot, at the word [i], after [n]
    allocations; [None] is the return of [MemoryAllocFailed]. The key of
    a dictionary is the [Slice] of the copied word, compared by content. *)
Fixpoint add_dict_words (words : list string) (i n : nat)
    (global_dict : gmap string Z) : option (gmap string Z * nat) :=
  match words with
  | [] => Some (global_dict, n)
  | dict_word :: rest =>
      if allocate n
      then add_dict_words rest (S i) (S n)
             (emplace_key dict_word (to_int32 (Z.of_nat i)) global_dict)
      else None
  end.

(** The loop over the slot descriptors that fills [_global_dicts]. *)
Fixpoint init_global_dicts (slots : list PSlotDescriptor) (n : nat)
    (_global_dicts : gmap string (gmap string Z))
  : option (gmap string (gmap string Z)) :=
  match slots with
  | [] => Some _global_dicts
  | slot :: rest =>
      match global_dict_words slot with
      | [] => init_global_dicts rest n _global_dicts
      | words =>
          '(global_dict, n1) ← add_dict_words words 0 n ∅;
          init_global_dicts rest n1
            (emplace_key (col_name slot) global_dict _global_dicts)
      end
  end.

End global_dicts.

(** The words of all slots, which is the number of allocations. *)
Definition total_words (slots : list PSlotDescriptor) : nat :=
  sum_list (length ∘ global_dict_words <$> slots).

(** ** The count of open writers *)

Section writer_count.

Variable open_writer : PTabletWithPartition → StatusOr AsyncDeltaWriter.

(** [_delta_writers] as the loop over [params.tablets()] leaves it,
    whether it runs to its end or returns at a writer that fails to open. *)
Fixpoint opened_writers (ts : list PTabletWithPartition)
    (writers : gmap Z AsyncDeltaWriter) : gmap Z AsyncDeltaWriter :=
  match ts with
  | [] => writers
  | t :: rest =>
      match open_writer t with
      | Failure _ => writers
      | Value writer => opened_writers rest (emplace (tablet_id t) writer writers)
      end
  end.

(** [_delta_writers] when [_open_all_writers] returns, with or without an
    error. *)
Definition writers_after_open (params : PTabletWriterOpenRequest)
  : gmap Z AsyncDeltaWriter :=
  if negb (index_in_schema params) then ∅
  else opened_writers (tablets params) ∅.

(** [_s_tablet_writer_count], a [uint64_t] shared by all channels, when
    [_open_all_writers] returns: [+= _delta_writers.size()] comes after the
    loop over the tablets and is not reached by a return with an error. *)
Definition count_after_open (count : Z) (params : PTabletWriterOpenRequest)
  : Z :=
  match _open_all_writers open_writer params with
  | Value (writers, _) => wrap64 (count + Z.of_nat (size writers))
  | Failure _ => count
  end.

End writer_count.

(** The destructor: [_s_tablet_writer_count -= _delta_writers.size()]. *)
Definition count_after_destroy (count : Z)
    (writers : gmap Z AsyncDeltaWriter) : Z :=
  wrap64 (count - Z.of_nat (size writers)).

(** ** Waiting for the secondary replicas *)

(** The states of a writer as the closing call tells them apart:
    [kUnfinished] stands for every state other than the three it stops
    waiting at. *)
Inductive WriterState : Set :=
  | kCommitted
  | kAborted
  | kUninitialized
  | kUnfinished.

Definition settled (state : WriterState) : bool :=
  match state with
  | kCommitted | kAborted | kUninitialized => true
  | kUnfinished => false
  end.

Section waiting.

(** What the closing call observes while it waits, by the number of
    times it has slept since [t0]: the state of the writer of a tablet, and
    the microseconds between [t0] and [t1]. *)
Variable get_state : Z → nat → WriterState.
Variable elapsed_us : nat → Z.
(** [request.timeout_ms()]. *)
Variable timeout_ms : Z.

(** The [do ... while (true)] for one secondary replica, entered after
    [sleeps] sleeps; [fuel] bounds the sleeps it may add. The result is
    the number of sleeps so far and [timeout]. *)
Fixpoint wait_writer (fuel : nat) (tablet_id : Z) (sleeps : nat)
  : Run (nat * bool)%type :=
  if settled (get_state tablet_id sleeps) then Done (sleeps, false)
  else
    match fuel with
    | O => OutOfFuel
    | S fuel' =>
        if decide (elapsed_us (S sleeps) `quot` 1000 > timeout_ms)
        then Done (S sleeps, true)
        else wait_writer fuel' tablet_id (S sleeps)
    end.

(** The loop over [_delta_writers]. *)
Fixpoint wait_writers (fuel : nat) (writers : list (Z * AsyncDeltaWriter))
    (sleeps : nat) : Run (nat * bool)%type :=
  match writers with
  | [] => Done (sleeps, false)
  | (tablet_id, delta_writer) :: rest =>
      if decide (replica_state delta_writer = Secondary) then
        '(slept, timed_out) ← wait_writer fuel tablet_id sleeps;
        if timed_out : bool then Done (slept, true)
        else wait_writers fuel rest slept
      else wait_writers fuel rest sleeps
  end.

(** The block [if (_is_replicated_storage && close_channel)] of
    [add_chunk]. *)
Definition wait_secondary (fuel : nat)
    (_is_replicated_storage close_channel : bool) (ch : LocalTabletsChannel)
  : Run (nat * bool)%type :=
  if _is_replicated_storage && close_channel
  then wait_writers fuel (map_to_list (_delta_writers ch)) 0
  else Done (0%nat, false).

End waiting.

(** ** The protocol of one sender slot

    The two locked blocks of [add_chunk] are the only code that touches a
    slot. Calls of different requests interleave between them: a call that
    passed the admission check is in flight until it either fails to build
    its write context and returns, or reaches the success-window update. *)

Record Slot : Type := {
  slot_sender : Sender;
  in_flight : gset Z;
}.

Section protocol.

Variable _max_sliding_window_size : Z.

Inductive slot_step : Slot → Slot → Prop :=
  | slot_enter s fl seq is_eos s' verdict :
      window_check _max_sliding_window_size s seq is_eos = (s', verdict) →
      slot_step {| slot_sender := s; in_flight := fl |}
        {| slot_sender := s';
           in_flight := match verdict with
                        | Proceed => {[seq]} ∪ fl
                        | Reply _ => fl
                        end |}
  | slot_fail s fl seq :
      seq ∈ fl →
      slot_step {| slot_sender := s; in_flight := fl |}
        {| slot_sender := s; in_flight := fl ∖ {[seq]} |}
  | slot_success s fl seq fuel s' :
      seq ∈ fl →
      record_success _max_sliding_window_size fuel s seq = Done s' →
      slot_step {| slot_sender := s; in_flight := fl |}
        {| slot_sender := s'; in_flight := fl ∖ {[seq]} |}.

Definition slot_reachable (initial_seq : Z) (st : Slot) : Prop :=
  rtc slot_step {| slot_sender := new_sender initial_seq; in_flight := ∅ |} st.

End protocol.

(** A step of a slot never shrinks a window except by removing from both
    the entry that follows [last_sliding_packet_seq]. *)
Definition grows (s s' : Sender) : Prop :=
  receive_sliding_window s ⊆ receive_sliding_window s'
  ∧ success_sliding_window s ⊆ success_sliding_window s'
  ∧ last_sliding_packet_seq s' = last_sliding_packet_seq s.

Definition removes_front (s s' : Sender) : Prop :=
  let x := last_sliding_packet_seq s + 1 in
  x ∈ receive_sliding_window s
  ∧ x ∈ success_sliding_window s
  ∧ receive_sliding_window s' = receive_sliding_window s ∖ {[x]}
  ∧ success_sliding_window s' = success_sliding_window s ∖ {[x]}
  ∧ last_sliding_packet_seq s' = x.

(** The windows of a sender whose batches have come in order and have all
    been written: both hold the [k] sequence numbers that follow
    [last_sliding_packet_seq]. *)
Definition contiguous (s : Sender) (k : nat) : Prop :=
  receive_sliding_window s
    = list_to_set (seqZ (last_sliding_packet_seq s + 1) (Z.of_nat k))
  ∧ success_sliding_window s = receive_sliding_window s.

(** ** Shapes of requests *)

Definition well_formed (ch : LocalTabletsChannel)
    (request : PTabletWriterAddChunkRequest) : Prop :=
  is_Some (opt_sender_id request)
  ∧ 0 ≤ sender_id request < Z.of_nat (length (_senders ch))
  ∧ is_Some (opt_packet_seq request).

Definition malformed (ch : LocalTabletsChannel)
    (request : PTabletWriterAddChunkRequest) : Prop :=
  opt_sender_id request = None
  ∨ sender_id request < 0
  ∨ sender_id request >= Z.of_nat (length (_senders ch))
  ∨ opt_packet_seq request = None.

(** The two ways [_create_write_context] returns before it builds the
    buffers. *)
Definition context_fails (chunk : option Chunk)
    (request : PTabletWriterAddChunkRequest) : Prop :=
  match chunk with
  | None => eos request = false
  | Some c => tablet_ids_size request ≠ num_rows c
  end.

(** ** What the scatter is measured against

    The ordinal of each row of the batch, the number of rows of an
    ordinal, the number of rows of lower ordinals (where the sub-range of
    the ordinal starts) and the rows of an ordinal in batch order. *)

Definition ordinal (idx : gmap Z Z) (t : Z) : nat :=
  Z.to_nat (default 0 (idx !! t)).

Definition ords (idx : gmap Z Z) (ids : list Z) : list nat :=
  ordinal idx <$> ids.

Definition cnt (c : nat) (os : list nat) : nat :=
  length (filter (λ o, o = c) os).

Fixpoint below (c : nat) (os : list nat) : nat :=
  match c with
  | O => O
  | S c' => (below c' os + cnt c' os)%nat
  end.

Definition bucket (c : nat) (os : list nat) : list nat :=
  filter (λ j, os !! j = Some c) (seq 0 (length os)).

(** The tablet is in the index, with an ordinal below [bound]. *)
Definition routed (idx : gmap Z Z) (bound : nat) (t : Z) : Prop :=
  ∃ o, idx !! t = Some o ∧ 0 ≤ o ∧ (Z.to_nat o < bound)%nat.

(** Every ordinal of the index is below the number of its entries. *)
Definition dense (idx : gmap Z Z) : Prop :=
  ∀ t o, idx !! t = Some o → 0 ≤ o < Z.of_nat (size idx).

(** The cells of [rows] between the start points [i] and [i + 1]. *)
Definition sub_range (rows points : list Z) (i : nat) : option (list Z) :=
  from ← points !! i;
  upto ← points !! S i;
  Some (take (Z.to_nat (upto - from)) (drop (Z.to_nat from) rows)).

(** The rows of a batch addressed to tablet [t], in batch order. *)
Definition rows_of (ids : list Z) (t : Z) : list Z :=
  Z.of_nat <$> filter (λ j, ids !! j = Some t) (seq 0 (length ids)).

(** The write the dispatch loop submits for the ordinal [c]: none when no
    row has the ordinal, else one to the tablet of the first such row. *)
Definition write_of (ids : list Z) (os : list nat) (c : nat) : option Event :=
  match bucket c os with
  | [] => None
  | j :: _ => t ← ids !! j; Some (EvWrite t (Z.of_nat <$> bucket c os))
  end.

(** No two tablets share an ordinal. *)
Definition distinct_ordinals (idx : gmap Z Z) : Prop :=
  ∀ t t' o, idx !! t = Some o → idx !! t' = Some o → t = t'.

(** The number of tablet ids of a list below [t]: the place of [t] when
    the list is sorted. *)
Definition rank (ids : list Z) (t : Z) : nat :=
  length (filter (λ x, x < t) ids).

(** ** Calls that overlap

    [add_chunk] is not atomic: between the admission check and the
    success-window update a call holds no lock, the decrement of
    [_num_remaining_senders] is an atomic of its own, and the recording of
    the partition ids and the loop over the writers each take
    [_partitions_ids_lock]. A call in flight is at one of these stages, and
    the channel moves by one block of one call at a time. *)

(** Where a call stands: past the admission check ([Accepted]); an eos
    batch with its writes submitted ([Dispatched]); past the
    [fetch_sub], which returned [n] ([Decremented]); the call that
    computed zero, about to run the loop over the writers ([Closing]);
    and with only the success-window update left ([Settled], with the
    value of [close_channel]). *)
Inductive Stage : Type :=
  | Accepted
  | Dispatched
  | Decremented (n : Z)
  | Closing
  | Settled (closing : bool).

Record Call : Type := {
  call_chunk : option Chunk;
  call_request : PTabletWriterAddChunkRequest;
  call_stage : Stage;
}.

(** The channel and the calls in flight. *)
Record System : Type := {
  channel : LocalTabletsChannel;
  calls : list Call;
}.

(** What a block did, and for which request. *)
Inductive Action : Type :=
  | ActReply (request : PTabletWriterAddChunkRequest) (code : TStatusCode)
  | ActAccept (request : PTabletWriterAddChunkRequest)
  | ActFail (request : PTabletWriterAddChunkRequest) (code : TStatusCode)
  | ActDispatch (request : PTabletWriterAddChunkRequest) (writes : list Event)
  | ActDecrement (request : PTabletWriterAddChunkRequest) (n : Z)
  | ActRecord (request : PTabletWriterAddChunkRequest)
  | ActClose (request : PTabletWriterAddChunkRequest) (closes : list Event)
  | ActReturn (request : PTabletWriterAddChunkRequest) (closing : bool).


(** The calls an action makes to the tablet writers. *)
Definition events_of (a : Action) : list Event :=
  match a with
  | ActDispatch _ writes => writes
  | ActClose _ closes => closes
  | _ => []
  end.

(** A commit or an abort. *)
Definition is_close (e : Event) : Prop :=
  match e with
  | EvCommit _ | EvAbort _ => True
  | EvWrite _ _ => False
  end.

Section system.

Variable _max_sliding_window_size : Z.

Inductive step : System → Action → System → Prop :=
  | step_reply ch pool request ch' code :
      admission _max_sliding_window_size ch request = Done (ch', Reply code) →
      step {| channel := ch; calls := pool |} (ActReply request code)
        {| channel := ch'; calls := pool |}
  | step_accept ch pool chunk request ch' :
      admission _max_sliding_window_size ch request = Done (ch', Proceed) →
      step {| channel := ch; calls := pool |} (ActAccept request)
        {| channel := ch';
           calls := {| call_chunk := chunk; call_request := request;
                       call_stage := Accepted |} :: pool |}
  | step_fail ch pre post chunk request ch' code :
      scatter_and_dispatch ch chunk request = Done (ch', Failure code) →
      step {| channel := ch;
              calls := pre ++ {| call_chunk := chunk; call_request := request;
                                 call_stage := Accepted |} :: post |}
        (ActFail request code)
        {| channel := ch'; calls := pre ++ post |}
  | step_dispatch ch pre post chunk request ch' writes :
      scatter_and_dispatch ch chunk request = Done (ch', Value writes) →
      step {| channel := ch;
              calls := pre ++ {| call_chunk := chunk; call_request := request;
                                 call_stage := Accepted |} :: post |}
        (ActDispatch request writes)
        {| channel := ch';
           calls := pre ++ {| call_chunk := chunk; call_request := request;
                              call_stage := if eos request then Dispatched
                                            else Settled false |} :: post |}
  | step_decrement ch pre post chunk request :
      step {| channel := ch;
              calls := pre ++ {| call_chunk := chunk; call_request := request;
                                 call_stage := Dispatched |} :: post |}
        (ActDecrement request (fetch_sub ch).2)
        {| channel := (fetch_sub ch).1;
           calls := pre ++ {| call_chunk := chunk; call_request := request;
                              call_stage := Decremented (fetch_sub ch).2 |}
                        :: post |}
  | step_record ch pre post chunk request n :
      step {| channel := ch;
              calls := pre ++ {| call_chunk := chunk; call_request := request;
                                 call_stage := Decremented n |} :: post |}
        (ActRecord request)
        {| channel := insert_partitions ch (partition_ids request);
           calls := pre ++ {| call_chunk := chunk; call_request := request;
                              call_stage := if decide (n - 1 = 0) then Closing
                                            else Settled false |} :: post |}
  | step_close ch pre post chunk request :
      step {| channel := ch;
              calls := pre ++ {| call_chunk := chunk; call_request := request;
                                 call_stage := Closing |} :: post |}
        (ActClose request (close_writers ch))
        {| channel := ch;
           calls := pre ++ {| call_chunk := chunk; call_request := request;
                              call_stage := Settled true |} :: post |}
  | step_return ch pre post chunk request closing fuel ch' :
      success_update _max_sliding_window_size fuel ch request = Done ch' →
      step {| channel := ch;
              calls := pre ++ {| call_chunk := chunk; call_request := request;
                                 call_stage := Settled closing |} :: post |}
        (ActReturn request closing)
        {| channel := ch'; calls := pre ++ post |}.

(** The actions of an execution, oldest first. *)
Inductive execution : System → list Action → System → Prop :=
  | execution_nil sys : execution sys [] sys
  | execution_snoc sys acts sys1 a sys2 :
      execution sys acts sys1 → step sys1 a sys2 →
      execution sys (acts ++ [a]) sys2.

End system.

(** The batch a request stands for: its sender and sequence number. *)
Definition key_of (request : PTabletWriterAddChunkRequest) : Z * Z :=
  (sender_id request, packet_seq request).

(** The decrements an execution made for a batch, and the times it ran
    the loop over the writers. *)
Definition decrement_key (a : Action) : option (Z * Z) :=
  match a with
  | ActDecrement r _ => Some (key_of r)
  | _ => None
  end.


Definition is_close_action (a : Action) : bool :=
  match a with
  | ActClose _ _ => true
  | _ => false
  end.

Definition closes (acts : list Action) : nat :=
  length (filter (λ a, is_close_action a) acts).



(** The partition ids of the eos batches that have decremented
    [_num_remaining_senders]. *)
Definition closed_partitions (acts : list Action) : gset Z :=
  ⋃ ((λ a, match a with
           | ActDecrement r _ => list_to_set (partition_ids r)
           | _ => ∅
           end) <$> acts).

(** A call that is about to run the loop over the writers, or is the one
    that will. *)
Definition closer (c : Call) : bool :=
  match call_stage c with
  | Decremented n => bool_decide (n = 1)
  | Closing => true
  | _ => false
  end.

(** A call that has decremented and not yet recorded its partition ids. *)
Definition recording (c : Call) : bool :=
  match call_stage c with
  | Decremented _ => true
  | _ => false
  end.

(** The batch whose writes an action submits, and the times an execution
    submitted the writes of a batch. *)
Definition dispatch_key (a : Action) : option (Z * Z) :=
  match a with
  | ActDispatch r _ => Some (key_of r)
  | _ => None
  end.

Definition dispatches_of (k : Z * Z) (acts : list Action) : nat :=
  length (filter (λ a, dispatch_key a = Some k) acts).

(** The batch of a call that is past the admission check and has not
    submitted its writes. *)
Definition accepted_key (c : Call) : option (Z * Z) :=
  match call_stage c with
  | Accepted => Some (key_of (call_request c))
  | _ => None
  end.

(** The decrements of [_num_remaining_senders] in an execution. *)
Definition decrements (acts : list Action) : nat :=
  length (filter (λ a, is_Some (decrement_key a)) acts).

(** ** Invariants *)

(** What holds of a slot whatever the order of the requests: completed
    sequence numbers are received ones, the receive window lies within
    the sliding window above [last_sliding_packet_seq], and the calls in
    flight hold received, not yet completed sequence numbers. *)
Definition slot_inv (W : Z) (st : Slot) : Prop :=
  let s := slot_sender st in
  success_sliding_window s ⊆ receive_sliding_window s
  ∧ (∀ x, x ∈ receive_sliding_window s →
       last_sliding_packet_seq s < x ∧ x ≤ last_sliding_packet_seq s + W)
  ∧ in_flight st ⊆ receive_sliding_window s
  ∧ in_flight st ## success_sliding_window s.

(** The state a retry meets: the sequence number sits in the receive
    window, outside the success window, and no call in flight carries it. *)
Definition orphaned (seq : Z) (st : Slot) : Prop :=
  seq ∈ receive_sliding_window (slot_sender st)
  ∧ (seq ∉ success_sliding_window (slot_sender st))
  ∧ (seq ∉ in_flight st).

(** The calls in flight that are to run the loop over the writers. *)
Definition closers (pool : list Call) : nat :=
  length (filter (λ c, closer c) pool).

(** Whoever runs the loop over the writers, or is about to, is counted
    once; there is one such call exactly when the counter went from a
    positive value to zero or below. *)
Definition close_inv (r0 : Z) (sys : System) (acts : list Action) : Prop :=
  _num_remaining_senders (channel sys) ≤ r0
  ∧ (closers (calls sys) + closes acts)%nat
    = if decide (_num_remaining_senders (channel sys) < 1 ∧ 1 ≤ r0)
      then 1%nat else 0%nat.

(** A call past its decrement has the decrement among the actions, with
    the value it read. *)
Definition decremented_by (acts : list Action) (c : Call) : Prop :=
  match call_stage c with
  | Decremented n => ActDecrement (call_request c) n ∈ acts
  | Closing => ActDecrement (call_request c) 1 ∈ acts
  | _ => True
  end.



(** The sequence number is in the receive window of its sender or has
    been pruned from it. *)
Definition covered (ch : LocalTabletsChannel) (k : Z * Z) : Prop :=
  0 ≤ k.1
  ∧ ∃ s, _senders ch !! Z.to_nat k.1 = Some s
      ∧ (k.2 ∈ receive_sliding_window s ∨ k.2 ≤ last_sliding_packet_seq s).


(** The partition ids of the calls between their decrement and their
    recording. *)
Definition recording_partitions (pool : list Call) : gset Z :=
  ⋃ ((λ c, if recording c then list_to_set (partition_ids (call_request c))
           else ∅) <$> pool).

(** [_partition_ids] lacks, of the partition ids of the batches that
    decremented, exactly those still to be recorded. *)
Definition partitions_inv (ch0 : LocalTabletsChannel) (sys : System)
    (acts : list Action) : Prop :=
  _partition_ids (channel sys) ∪ recording_partitions (calls sys)
  = _partition_ids ch0 ∪ closed_partitions acts.

(** The sequence numbers of the calls in flight on a slot. *)
Definition flight_of (i : nat) (c : Call) : option Z :=
  if decide (Z.to_nat (sender_id (call_request c)) = i)
  then Some (packet_seq (call_request c)) else None.

Definition flight (i : nat) (pool : list Call) : list Z :=
  omap (flight_of i) pool.

(** Each slot of the channel, with the calls in flight on it, is a state
    of the slot protocol. *)
Definition slot_projection (W init : Z) (sys : System) : Prop :=
  ∀ i s, _senders (channel sys) !! i = Some s →
    NoDup (flight i (calls sys))
    ∧ slot_reachable W init
        {| slot_sender := s; in_flight := list_to_set (flight i (calls sys)) |}.

(** No batch is twice among the calls about to submit their writes and
    the writes submitted, and the admission check will not let any of them
    in again. *)
Definition written_inv (sys : System) (acts : list Action) : Prop :=
  NoDup (omap accepted_key (calls sys) ++ omap dispatch_key acts)
  ∧ Forall (covered (channel sys))
      (omap accepted_key (calls sys) ++ omap dispatch_key acts).

(** The partition ids that eos batches have recorded in [_partition_ids]
    in an execution. *)
Definition recorded_partitions (acts : list Action) : gset Z :=
  ⋃ ((λ a, match a with
           | ActRecord r => list_to_set (partition_ids r)
           | _ => ∅
           end) <$> acts).

(** ** Scenarios *)

(** A writer as [AsyncDeltaWriter::open] returns it for a tablet that is
    not replicated from another node. *)
Definition primary_writer (t : PTabletWithPartition)
  : StatusOr AsyncDeltaWriter :=
  Value {| partition_id := tablet_partition_id t; replica_state := Primary |}.

(** One sender, one tablet (id 5, partition 10). *)
Definition one_tablet_request : PTabletWriterOpenRequest :=
  {| num_senders := 1;
     tablets := [ {| tablet_id := 5; tablet_partition_id := 10 |} ];
     index_in_schema := true |}.

Definition one_tablet_channel : LocalTabletsChannel :=
  {| _senders := [new_sender (-1)];
     _num_remaining_senders := 1;
     _partition_ids := ∅;
     _delta_writers := {[ 5 := {| partition_id := 10; replica_state := Primary |} ]};
     _tablet_id_to_sorted_indexes := {[ 5 := 0 ]} |}.

(** A batch of one row for tablet 5, sent by sender 0. *)
Definition row_request (seq : Z) : PTabletWriterAddChunkRequest :=
  {| opt_sender_id := Some 0; opt_packet_seq := Some seq; opt_eos := None;
     tablet_ids := [5]; partition_ids := [] |}.

Definition row_call (seq : Z) : option Chunk * PTabletWriterAddChunkRequest :=
  (Some {| num_rows := 1 |}, row_request seq).

Definition row_result : CallResult :=
  {| status_code := OK; trace := [EvWrite 5 [0]]; close_channel := false |}.

(** The channel after the batches 1 to 20 of sender 0, batch 0 missing. *)
Definition gap_channel : LocalTabletsChannel :=
  {| _senders := [ {| receive_sliding_window := list_to_set (seqZ 1 20);
                      success_sliding_window := list_to_set (seqZ 1 20);
                      last_sliding_packet_seq := -1 |} ];
     _num_remaining_senders := 1;
     _partition_ids := ∅;
     _delta_writers := {[ 5 := {| partition_id := 10; replica_state := Primary |} ]};
     _tablet_id_to_sorted_indexes := {[ 5 := 0 ]} |}.

(** The slot in which the [k] batches after the first one have been
    written and the first one is missing. *)
Definition gap_sender (init : Z) (k : nat) : Sender :=
  {| receive_sliding_window := list_to_set (seqZ (init + 2) (Z.of_nat k));
     success_sliding_window := list_to_set (seqZ (init + 2) (Z.of_nat k));
     last_sliding_packet_seq := init |}.

(** An eos batch without rows. *)
Definition eos_request (sender seq : Z) (partitions : list Z)
  : PTabletWriterAddChunkRequest :=
  {| opt_sender_id := Some sender; opt_packet_seq := Some seq;
     opt_eos := Some true; tablet_ids := []; partition_ids := partitions |}.

(** A writer as [AsyncDeltaWriter::open] returns it on a node that holds a
    secondary replica of the tablet. *)
Definition secondary_writer (t : PTabletWithPartition)
  : StatusOr AsyncDeltaWriter :=
  Value {| partition_id := tablet_partition_id t; replica_state := Secondary |}.

(** [one_tablet_request] opened on such a node. *)
Definition secondary_channel : LocalTabletsChannel :=
  {| _senders := [new_sender (-1)];
     _num_remaining_senders := 1;
     _partition_ids := ∅;
     _delta_writers := {[ 5 := {| partition_id := 10; replica_state := Secondary |} ]};
     _tablet_id_to_sorted_indexes := {[ 5 := 0 ]} |}.

(** Two senders, two tablets: 5 in partition 10 and 8 in partition 30. *)
Definition two_sender_request : PTabletWriterOpenRequest :=
  {| num_senders := 2;
     tablets := [ {| tablet_id := 5; tablet_partition_id := 10 |};
                  {| tablet_id := 8; tablet_partition_id := 30 |} ];
     index_in_schema := true |}.

Definition two_sender_channel : LocalTabletsChannel :=
  {| _senders := [new_sender (-1); new_sender (-1)];
     _num_remaining_senders := 2;
     _partition_ids := ∅;
     _delta_writers := {[ 5 := {| partition_id := 10; replica_state := Primary |};
                          8 := {| partition_id := 30; replica_state := Primary |} ]};
     _tablet_id_to_sorted_indexes := {[ 5 := 0; 8 := 1 ]} |}.

(** [one_tablet_channel] while the call of the eos batch of partition 10 is
    about to run the loop over the writers. *)
Definition one_tablet_closing : LocalTabletsChannel :=
  {| _senders := [ {| receive_sliding_window := {[0]};
                      success_sliding_window := ∅;
                      last_sliding_packet_seq := -1 |} ];
     _num_remaining_senders := 0;
     _partition_ids := {[10]};
     _delta_writers := {[ 5 := {| partition_id := 10; replica_state := Primary |} ]};
     _tablet_id_to_sorted_indexes := {[ 5 := 0 ]} |}.


(** * Properties *)

(** ** Requests that are rejected or replayed *)

Lemma admission_well_formed W ch request s :
  well_formed ch request →
  _senders ch !! Z.to_nat (sender_id request) = Some s →
  admission W ch request =
    match window_check W s (packet_seq request) (eos request) with
    | (_, Reply code) => Done (ch, Reply code)
    | (s1, Proceed) =>
        Done (with_sender ch (Z.to_nat (sender_id request)) s1, Proceed)
    end.
Proof.
  intros ([x Hx] & Hrange & [y Hy]) Hs. unfold admission.
  unfold has_sender_id, has_packet_seq. rewrite Hx, Hy. simpl.
  destruct (decide (sender_id request < 0)); [lia|].
  destruct (decide (sender_id request >= _)); [lia|].
  unfold read. rewrite Hs. reflexivity.
Qed.

(** C9. A request without sender id, with a negative sender id or one not
    below the number of senders, or without packet sequence number gets
    INVALID_ARGUMENT; the channel is returned as it was, nothing is
    dispatched and the channel is not closed. *)
Theorem malformed_request_rejected W fuel ch chunk request :
  malformed ch request →
  add_chunk W fuel ch chunk request = Done (ch, reply INVALID_ARGUMENT).
Proof.
  intros H. unfold add_chunk, admission, has_sender_id, has_packet_seq.
  destruct (opt_sender_id request) as [sid|] eqn:Hsid; simpl; [|reflexivity].
  destruct (decide (sender_id request < 0)); [reflexivity|].
  destruct (decide (sender_id request >= _)); [reflexivity|].
  destruct (opt_packet_seq request) as [seq|] eqn:Hseq; simpl; [|reflexivity].
  destruct H as [H|[H|[H|H]]]; congruence || lia.
Qed.

Lemma malformed_request_rejected_witness :
  add_chunk 40 0
    {| _senders := [new_sender (-1)]; _num_remaining_senders := 1;
       _partition_ids := ∅; _delta_writers := ∅;
       _tablet_id_to_sorted_indexes := ∅ |}
    None
    {| opt_sender_id := Some 1; opt_packet_seq := Some 0; opt_eos := Some true;
       tablet_ids := []; partition_ids := [7] |}
  = Done ({| _senders := [new_sender (-1)]; _num_remaining_senders := 1;
             _partition_ids := ∅; _delta_writers := ∅;
             _tablet_id_to_sorted_indexes := ∅ |}, reply INVALID_ARGUMENT).
Proof.
  apply malformed_request_rejected.
  right; right; left. vm_compute. discriminate.
Defined.

(** C2. A well-formed request whose sequence number is in the receive
    window gets DUPLICATE_RPC_INVOCATION when it is not in the success
    window or the request is an eos, and OK when it is in the success
    window and the request is no eos; one whose sequence number is not in
    the receive window and not above [last_sliding_packet_seq] gets OK. In
    the three cases the channel is returned as it was and nothing is
    dispatched. *)
Theorem duplicate_or_replayed_request W fuel ch chunk request s :
  well_formed ch request →
  _senders ch !! Z.to_nat (sender_id request) = Some s →
  (packet_seq request ∈ receive_sliding_window s →
   packet_seq request ∉ success_sliding_window s ∨ eos request = true →
   add_chunk W fuel ch chunk request = Done (ch, reply DUPLICATE_RPC_INVOCATION))
  ∧ (packet_seq request ∈ receive_sliding_window s →
     packet_seq request ∈ success_sliding_window s → eos request = false →
     add_chunk W fuel ch chunk request = Done (ch, reply OK))
  ∧ (packet_seq request ∉ receive_sliding_window s →
     packet_seq request ≤ last_sliding_packet_seq s →
     add_chunk W fuel ch chunk request = Done (ch, reply OK)).
Proof.
  intros Hwf Hs. unfold add_chunk.
  rewrite (admission_well_formed _ _ _ _ Hwf Hs). unfold window_check.
  split; [|split].
  - intros Hin Hor. rewrite decide_True by done.
    destruct Hor as [Hout|Heos].
    + rewrite bool_decide_eq_true_2 by done. reflexivity.
    + rewrite Heos, orb_true_r. reflexivity.
  - intros Hin Hin' Heos. rewrite decide_True by done.
    rewrite bool_decide_eq_false_2 by (intros Hn; apply Hn, Hin').
    rewrite Heos. reflexivity.
  - intros Hout Hle. rewrite decide_False by done.
    rewrite decide_True by done. reflexivity.
Qed.

Lemma duplicate_or_replayed_request_witness :
  let ch := {| _senders := [ {| receive_sliding_window := {[3; 4]};
                                success_sliding_window := {[4]};
                                last_sliding_packet_seq := 2 |} ];
               _num_remaining_senders := 1; _partition_ids := ∅;
               _delta_writers := ∅; _tablet_id_to_sorted_indexes := ∅ |} in
  let request seq := {| opt_sender_id := Some 0; opt_packet_seq := Some seq;
                        opt_eos := None; tablet_ids := []; partition_ids := [] |} in
  add_chunk 40 0 ch None (request 3) = Done (ch, reply DUPLICATE_RPC_INVOCATION)
  ∧ add_chunk 40 0 ch None (request 4) = Done (ch, reply OK)
  ∧ add_chunk 40 0 ch None (request 1) = Done (ch, reply OK).
Proof.
  intros ch request.
  assert (Hwf : ∀ seq, well_formed ch (request seq)).
  { intros seq. unfold well_formed, sender_id, ch, request. simpl.
    repeat split; eauto; lia. }
  split; [|split].
  - apply (proj1 (duplicate_or_replayed_request 40 0 ch None (request 3) _
                    (Hwf 3) eq_refl)); unfold packet_seq; simpl.
    + set_solver.
    + left. set_solver.
  - apply (proj1 (proj2 (duplicate_or_replayed_request 40 0 ch None (request 4) _
                           (Hwf 4) eq_refl))); unfold packet_seq; simpl.
    + set_solver.
    + set_solver.
    + reflexivity.
  - apply (proj2 (proj2 (duplicate_or_replayed_request 40 0 ch None (request 1) _
                           (Hwf 1) eq_refl))); unfold packet_seq; simpl.
    + set_solver.
    + lia.
Defined.

(** ** The least element of a window *)

Lemma list_min_None l : list_min l = None → l = [].
Proof. destruct l; [done|discriminate]. Qed.

Lemma list_min_spec l m :
  list_min l = Some m → m ∈ l ∧ ∀ x, x ∈ l → m ≤ x.
Proof.
  revert m. induction l as [|a l IH]; intros m; simpl; [discriminate|].
  destruct (list_min l) as [m'|] eqn:Hl; simpl; intros [= <-].
  - destruct (IH m' eq_refl) as [Hin Hle]. split.
    + destruct (Z.min_spec a m') as [[_ ->]|[_ ->]]; [left|right; done].
    + intros x [->|Hx]%elem_of_cons; [lia|]. specialize (Hle x Hx). lia.
  - apply list_min_None in Hl as ->. split; [left|].
    intros x [->|Hx]%elem_of_cons; [lia|]. inversion Hx.
Qed.

Lemma cbegin_elem_of X m : cbegin X = Some m → m ∈ X.
Proof. intros H%list_min_spec. apply elem_of_elements, H. Qed.

Lemma cbegin_le X m x : cbegin X = Some m → x ∈ X → m ≤ x.
Proof. intros H%list_min_spec Hx. apply H, elem_of_elements, Hx. Qed.

Lemma cbegin_None X : cbegin X = None → X = ∅.
Proof. intros H%list_min_None. by apply elements_empty_inv, leibniz_equiv in H. Qed.

(** ** The pruning loop, pass by pass *)

Lemma prune_once_cases s s' :
  prune_once s = Done s' → s' = s ∨ removes_front s s'.
Proof.
  unfold prune_once.
  destruct (cbegin (success_sliding_window s)) as [ms|] eqn:Hs; simpl; [|done].
  destruct (decide (_ = ms)) as [Hms|]; [|intros [= <-]; by left].
  destruct (cbegin (receive_sliding_window s)) as [mr|] eqn:Hr; simpl; [|done].
  destruct (decide (ms = mr)) as [<-|]; intros [= <-]; [right|by left].
  apply cbegin_elem_of in Hs, Hr. unfold removes_front. simpl.
  rewrite Hms. done.
Qed.

Lemma prune_chain W fuel s s' :
  prune W fuel s = Done s' → rtc removes_front s s'.
Proof.
  revert s. induction fuel as [|fuel IH]; intros s; simpl.
  - destruct (window_over_half W s); [done|]. intros [= <-]. constructor.
  - destruct (window_over_half W s); [|intros [= <-]; constructor].
    destruct (prune_once s) as [s1| |] eqn:H1; simpl; [|done..].
    intros H. apply IH in H.
    destruct (prune_once_cases _ _ H1) as [->|Hfront]; [done|].
    by eapply rtc_l.
Qed.

Lemma removes_front_last s s' :
  rtc removes_front s s' →
  last_sliding_packet_seq s ≤ last_sliding_packet_seq s'.
Proof.
  induction 1 as [|s s1 s2 (_ & _ & _ & _ & Hl) _ IH]; [lia|].
  rewrite Hl in IH. lia.
Qed.

(** ** The invariant of a sender slot *)

Lemma removes_front_inv W fl s s' :
  removes_front s s' →
  slot_inv W {| slot_sender := s; in_flight := fl |} →
  slot_inv W {| slot_sender := s'; in_flight := fl |}.
Proof.
  unfold removes_front, slot_inv. simpl.
  intros (Hr & Hs & -> & -> & ->) (Hsub & Hwin & Hfl & Hdis).
  split; [set_solver|]. split; [|set_solver].
  intros x [Hx Hne]%elem_of_difference. apply Hwin in Hx.
  rewrite not_elem_of_singleton in Hne. lia.
Qed.

Lemma removes_front_rtc_inv W fl s s' :
  rtc removes_front s s' →
  slot_inv W {| slot_sender := s; in_flight := fl |} →
  slot_inv W {| slot_sender := s'; in_flight := fl |}.
Proof. induction 1; eauto using removes_front_inv. Qed.

Lemma window_check_cases W s seq is_eos s' verdict :
  window_check W s seq is_eos = (s', verdict) →
  (s' = s ∧ ∃ code, verdict = Reply code)
  ∨ (verdict = Proceed
     ∧ (seq ∉ receive_sliding_window s)
     ∧ (last_sliding_packet_seq s < seq ∧ seq ≤ last_sliding_packet_seq s + W)
     ∧ s' = {| receive_sliding_window := {[seq]} ∪ receive_sliding_window s;
               success_sliding_window := success_sliding_window s;
               last_sliding_packet_seq := last_sliding_packet_seq s |}).
Proof.
  unfold window_check. repeat case_decide; try destruct (_ || _);
    intros [= <- <-]; eauto.
  right. repeat split; auto; lia.
Qed.

Lemma slot_step_inv W st st' :
  slot_step W st st' → slot_inv W st → slot_inv W st'.
Proof.
  intros Hstep Hinv.
  destruct Hstep as [s fl seq e s' v Ha|s fl seq Hin|s fl seq fuel s' Hin Hrec].
  - apply window_check_cases in Ha as [[-> [code ->]]|(-> & Hout & Hwin & ->)]; [done|].
    destruct Hinv as (Hsub & Hbound & Hfl & Hdis). unfold slot_inv; simpl in *.
    split; [set_solver|]. split; [|set_solver].
    intros x [->%elem_of_singleton|Hx]%elem_of_union; [lia|]. by apply Hbound.
  - destruct Hinv as (Hsub & Hbound & Hfl & Hdis). unfold slot_inv; simpl in *.
    split; [set_solver|]. split; [exact Hbound|set_solver].
  - apply prune_chain in Hrec. eapply removes_front_rtc_inv; [done|].
    destruct Hinv as (Hsub & Hbound & Hfl & Hdis). unfold slot_inv; simpl in *.
    split; [set_solver|]. split; [exact Hbound|set_solver].
Qed.

Lemma slot_reachable_inv W init st :
  slot_reachable W init st → slot_inv W st.
Proof.
  unfold slot_reachable. intros H.
  eapply (rtc_ind_r (slot_inv W)); [| |exact H].
  - unfold slot_inv; simpl. set_solver.
  - intros mid st' _ Hstep IH. eauto using slot_step_inv.
Qed.

(** C7. In every state a sender slot reaches by admission checks and
    success-window updates, the success window is included in the receive
    window; and every further step leaves [last_sliding_packet_seq] where
    it was or above, and is made of additions to the windows followed by
    removals that each take the entry equal to
    [last_sliding_packet_seq + 1], present in both windows, out of both
    and advance [last_sliding_packet_seq] to it. *)
Theorem sliding_window_invariant W init st :
  slot_reachable W init st →
  success_sliding_window (slot_sender st) ⊆ receive_sliding_window (slot_sender st)
  ∧ ∀ st', slot_step W st st' →
      last_sliding_packet_seq (slot_sender st)
        ≤ last_sliding_packet_seq (slot_sender st')
      ∧ ∃ mid, grows (slot_sender st) mid
               ∧ rtc removes_front mid (slot_sender st').
Proof.
  intros Hreach. split; [apply (slot_reachable_inv _ _ _ Hreach)|].
  intros st' Hstep.
  assert (∃ mid, grows (slot_sender st) mid
                 ∧ rtc removes_front mid (slot_sender st')) as (mid & Hg & Hr).
  { destruct Hstep as [s fl seq e s' v Ha|s fl seq Hin|s fl seq fuel s' Hin Hrec];
      simpl.
    - exists s'. split; [|constructor].
      apply window_check_cases in Ha as [[-> _]|(_ & _ & _ & ->)];
        unfold grows; simpl; set_solver.
    - exists s. split; [|constructor]. unfold grows; set_solver.
    - eexists. split; [|exact (prune_chain _ _ _ _ Hrec)].
      unfold grows; simpl; set_solver. }
  split; [|by eauto].
  apply removes_front_last in Hr. destruct Hg as (_ & _ & Hl). lia.
Qed.

Lemma sliding_window_invariant_witness :
  let st := {| slot_sender := {| receive_sliding_window := {[0]};
                                 success_sliding_window := ∅;
                                 last_sliding_packet_seq := -1 |};
               in_flight := {[0]} |} in
  success_sliding_window (slot_sender st) ⊆ receive_sliding_window (slot_sender st)
  ∧ ∀ st', slot_step 40 st st' →
      last_sliding_packet_seq (slot_sender st)
        ≤ last_sliding_packet_seq (slot_sender st')
      ∧ ∃ mid, grows (slot_sender st) mid
               ∧ rtc removes_front mid (slot_sender st').
Proof.
  apply (sliding_window_invariant 40 (-1)).
  eapply rtc_l; [|apply rtc_refl].
  exact (slot_enter 40 (new_sender (-1)) ∅ 0 false _ _ eq_refl).
Defined.

(** ** Requests ahead of the window *)

(** C5. In every state a sender slot reaches, whatever the order of the
    earlier requests, a sequence number above
    [last_sliding_packet_seq + _max_sliding_window_size] is not in the
    receive window, and a well-formed request carrying it gets
    INVALID_ARGUMENT; the channel is returned as it was and nothing is
    dispatched. *)
Theorem request_ahead_of_window_rejected W init fuel ch chunk request s fl :
  0 ≤ W →
  well_formed ch request →
  _senders ch !! Z.to_nat (sender_id request) = Some s →
  slot_reachable W init {| slot_sender := s; in_flight := fl |} →
  packet_seq request > last_sliding_packet_seq s + W →
  (packet_seq request ∉ receive_sliding_window s)
  ∧ add_chunk W fuel ch chunk request = Done (ch, reply INVALID_ARGUMENT).
Proof.
  intros HW Hwf Hs Hreach Hfar.
  apply slot_reachable_inv in Hreach as (_ & Hbound & _). simpl in Hbound.
  assert (Hout : packet_seq request ∉ receive_sliding_window s).
  { intros Hin%Hbound. lia. }
  split; [exact Hout|]. unfold add_chunk.
  rewrite (admission_well_formed _ _ _ _ Hwf Hs). unfold window_check.
  rewrite decide_False by done. rewrite decide_False by lia.
  rewrite decide_True by done. reflexivity.
Qed.

Lemma request_ahead_of_window_rejected_witness :
  let s := {| receive_sliding_window := {[0]};
              success_sliding_window := ∅;
              last_sliding_packet_seq := -1 |} in
  let ch := {| _senders := [s]; _num_remaining_senders := 1;
               _partition_ids := ∅; _delta_writers := ∅;
               _tablet_id_to_sorted_indexes := ∅ |} in
  let request := {| opt_sender_id := Some 0; opt_packet_seq := Some 40;
                    opt_eos := None; tablet_ids := []; partition_ids := [] |} in
  (packet_seq request ∉ receive_sliding_window s)
  ∧ add_chunk 40 0 ch None request = Done (ch, reply INVALID_ARGUMENT).
Proof.
  intros s ch request.
  apply (request_ahead_of_window_rejected 40 (-1) 0 ch None request s {[0]}).
  - lia.
  - unfold well_formed, sender_id, ch, request; simpl. repeat split; eauto; lia.
  - reflexivity.
  - eapply rtc_l; [|apply rtc_refl].
    exact (slot_enter 40 (new_sender (-1)) ∅ 0 false _ _ eq_refl).
  - unfold packet_seq, request, s; simpl. lia.
Defined.

(** ** A write context that cannot be built *)

Lemma create_write_context_fails idx chunk request :
  context_fails chunk request →
  _create_write_context idx chunk request = Done (idx, Failure INVALID_ARGUMENT).
Proof.
  unfold context_fails, _create_write_context.
  destruct chunk as [c|]; intros H.
  - by rewrite decide_True.
  - by rewrite H.
Qed.

Lemma removes_front_orphaned seq fl s s' :
  rtc removes_front s s' →
  orphaned seq {| slot_sender := s; in_flight := fl |} →
  orphaned seq {| slot_sender := s'; in_flight := fl |}.
Proof.
  induction 1 as [|s s1 s2 (Hr & Hs & Hr1 & Hs1 & Hl) _ IH]; [done|].
  intros (Hin & Hout & Hfl). apply IH. unfold orphaned in *; simpl in *.
  rewrite Hr1, Hs1. set_solver.
Qed.

Lemma slot_step_orphaned W seq st st' :
  slot_step W st st' → orphaned seq st → orphaned seq st'.
Proof.
  intros Hstep Horph.
  destruct Hstep as [s fl x e s' v Ha|s fl x Hin|s fl x fuel s' Hin Hrec].
  - apply window_check_cases in Ha as [[-> [code ->]]|(-> & Hout & Hwin & ->)]; [done|].
    unfold orphaned in *; simpl in *. set_solver.
  - unfold orphaned in *; simpl in *. set_solver.
  - apply prune_chain in Hrec. eapply removes_front_orphaned; [done|].
    unfold orphaned in *; simpl in *. set_solver.
Qed.

Lemma slot_steps_orphaned W seq st st' :
  rtc (slot_step W) st st' → orphaned seq st → orphaned seq st'.
Proof. induction 1; eauto using slot_step_orphaned. Qed.

Lemma in_process_reply W fuel ch chunk request s :
  well_formed ch request →
  _senders ch !! Z.to_nat (sender_id request) = Some s →
  packet_seq request ∈ receive_sliding_window s →
  packet_seq request ∉ success_sliding_window s →
  add_chunk W fuel ch chunk request = Done (ch, reply DUPLICATE_RPC_INVOCATION).
Proof.
  intros Hwf Hs Hin Hout. unfold add_chunk.
  rewrite (admission_well_formed _ _ _ _ Hwf Hs). unfold window_check.
  rewrite decide_True by done. by rewrite bool_decide_eq_true_2.
Qed.

(** C10. When the admission check has inserted the sequence number into
    the receive window and the write context cannot be built (no chunk and
    no eos, or a tablet-id array that is not as long as the chunk),
    [add_chunk] returns the failure with the sequence number left in the
    receive window and not put into the success window; from then on,
    whatever else the slot goes through, a request with the same sender id
    and sequence number gets DUPLICATE_RPC_INVOCATION. *)
Theorem failed_context_blocks_sequence W init fuel ch chunk request s fl :
  well_formed ch request →
  _senders ch !! Z.to_nat (sender_id request) = Some s →
  slot_reachable W init {| slot_sender := s; in_flight := fl |} →
  packet_seq request ∉ receive_sliding_window s →
  last_sliding_packet_seq s < packet_seq request →
  packet_seq request ≤ last_sliding_packet_seq s + W →
  context_fails chunk request →
  let s1 := {| receive_sliding_window :=
                 {[packet_seq request]} ∪ receive_sliding_window s;
               success_sliding_window := success_sliding_window s;
               last_sliding_packet_seq := last_sliding_packet_seq s |} in
  add_chunk W fuel ch chunk request
    = Done (with_sender ch (Z.to_nat (sender_id request)) s1,
            reply INVALID_ARGUMENT)
  ∧ (packet_seq request ∉ success_sliding_window s1)
  ∧ ∀ st', rtc (slot_step W) {| slot_sender := s1; in_flight := fl |} st' →
      ∀ fuel' ch' chunk' retry,
        well_formed ch' retry →
        sender_id retry = sender_id request →
        packet_seq retry = packet_seq request →
        _senders ch' !! Z.to_nat (sender_id retry) = Some (slot_sender st') →
        add_chunk W fuel' ch' chunk' retry
          = Done (ch', reply DUPLICATE_RPC_INVOCATION).
Proof.
  intros Hwf Hs Hreach Hout Hlo Hhi Hfail s1.
  apply slot_reachable_inv in Hreach as (Hsub & _ & Hfl & _). simpl in *.
  assert (Horph : orphaned (packet_seq request)
                    {| slot_sender := s1; in_flight := fl |}).
  { unfold orphaned, s1; simpl. set_solver. }
  split; [|split].
  - unfold add_chunk. rewrite (admission_well_formed _ _ _ _ Hwf Hs).
    unfold window_check. rewrite decide_False by done.
    rewrite decide_False by lia. rewrite decide_False by lia. simpl.
    unfold scatter_and_dispatch.
    rewrite (create_write_context_fails _ _ _ Hfail). reflexivity.
  - apply Horph.
  - intros st' Hsteps fuel' ch' chunk' retry Hwf' Hsid Hseq Hs'.
    destruct (slot_steps_orphaned _ _ _ _ Hsteps Horph) as (Hin' & Hout' & _). rewrite <- Hseq in Hin', Hout'.
    by apply (in_process_reply W fuel' ch' chunk' retry _ Hwf' Hs').
Qed.

Lemma failed_context_blocks_sequence_witness :
  let s := new_sender (-1) in
  let ch := {| _senders := [s]; _num_remaining_senders := 1;
               _partition_ids := ∅; _delta_writers := ∅;
               _tablet_id_to_sorted_indexes := ∅ |} in
  let request := {| opt_sender_id := Some 0; opt_packet_seq := Some 0;
                    opt_eos := None; tablet_ids := []; partition_ids := [] |} in
  let s1 := {| receive_sliding_window :=
                 {[packet_seq request]} ∪ receive_sliding_window s;
               success_sliding_window := success_sliding_window s;
               last_sliding_packet_seq := last_sliding_packet_seq s |} in
  add_chunk 40 0 ch None request
    = Done (with_sender ch (Z.to_nat (sender_id request)) s1,
            reply INVALID_ARGUMENT)
  ∧ (packet_seq request ∉ success_sliding_window s1)
  ∧ ∀ st', rtc (slot_step 40) {| slot_sender := s1; in_flight := ∅ |} st' →
      ∀ fuel' ch' chunk' retry,
        well_formed ch' retry →
        sender_id retry = sender_id request →
        packet_seq retry = packet_seq request →
        _senders ch' !! Z.to_nat (sender_id retry) = Some (slot_sender st') →
        add_chunk 40 fuel' ch' chunk' retry
          = Done (ch', reply DUPLICATE_RPC_INVOCATION).
Proof.
  intros s ch request.
  apply (failed_context_blocks_sequence 40 (-1) 0 ch None request s ∅).
  - unfold well_formed, sender_id, ch, request; simpl. repeat split; eauto; lia.
  - reflexivity.
  - apply rtc_refl.
  - unfold packet_seq, request, s; simpl. set_solver.
  - unfold packet_seq, request, s; simpl. lia.
  - unfold packet_seq, request, s; simpl. lia.
  - reflexivity.
Defined.

(** ** The pruning loop on a gap *)

Lemma prune_stuck W s :
  window_over_half W s = true →
  prune_once s = Done s →
  ∀ fuel, prune W fuel s = OutOfFuel.
Proof.
  intros Hover Hsame fuel. induction fuel as [|fuel IH]; simpl; rewrite Hover.
  - reflexivity.
  - rewrite Hsame. exact IH.
Qed.

(** Once the success window is more than half the sliding window and its
    least entry is not the one that follows [last_sliding_packet_seq], no
    number of passes ends the loop. *)
Lemma record_success_spins W s seq m :
  let s1 := {| receive_sliding_window := receive_sliding_window s;
               success_sliding_window := {[seq]} ∪ success_sliding_window s;
               last_sliding_packet_seq := last_sliding_packet_seq s |} in
  window_over_half W s1 = true →
  cbegin (success_sliding_window s1) = Some m →
  m ≠ last_sliding_packet_seq s + 1 →
  ∀ fuel, record_success W fuel s seq = OutOfFuel.
Proof.
  intros s1 Hover Hmin Hne fuel. unfold record_success. fold s1.
  apply prune_stuck; [exact Hover|].
  unfold prune_once. rewrite Hmin. simpl.
  rewrite decide_False; [reflexivity|]. simpl. congruence.
Qed.

Lemma add_chunk_spins W ch chunk request ch1 ch2 writes s :
  admission W ch request = Done (ch1, Proceed) →
  scatter_and_dispatch ch1 chunk request = Done (ch2, Value writes) →
  eos request = false →
  _senders ch2 !! Z.to_nat (sender_id request) = Some s →
  (∀ fuel, record_success W fuel s (packet_seq request) = OutOfFuel) →
  ∀ fuel, add_chunk W fuel ch chunk request = OutOfFuel.
Proof.
  intros Ha Hd He Hs Hspin fuel. unfold add_chunk.
  rewrite Ha. simpl. rewrite Hd. simpl. rewrite He.
  unfold success_update, read. rewrite Hs. simpl. rewrite Hspin. reflexivity.
Qed.

(** What the loop removes when it ends. *)
Lemma removes_front_size s s' :
  removes_front s s' →
  size (success_sliding_window s) = S (size (success_sliding_window s')).
Proof.
  intros (_ & Hin & _ & -> & _).
  rewrite size_difference by set_solver. rewrite size_singleton.
  assert (size (success_sliding_window s) ≠ 0%nat); [|lia].
  intros H0%size_empty_inv. set_solver.
Qed.

Lemma prune_at_most_one W fuel s s' :
  Z.of_nat (size (success_sliding_window s)) ≤ wrap64 (W `quot` 2) + 1 →
  prune W fuel s = Done s' →
  s' = s ∨ removes_front s s'.
Proof.
  revert s. induction fuel as [|fuel IH]; intros s Hsize; simpl.
  - destruct (window_over_half W s); [done|]. intros [= <-]. by left.
  - destruct (window_over_half W s) eqn:Hover; [|intros [= <-]; by left].
    destruct (prune_once s) as [s1| |] eqn:H1; simpl; [|done..].
    destruct (prune_once_cases _ _ H1) as [->|Hfront]; [by apply IH|].
    pose proof (removes_front_size _ _ Hfront) as Hs.
    destruct fuel as [|fuel]; simpl.
    + unfold window_over_half. rewrite bool_decide_eq_false_2 by lia.
      intros [= <-]. by right.
    + unfold window_over_half at 1. rewrite bool_decide_eq_false_2 by lia.
      intros [= <-]. by right.
Qed.

(** In every state a slot reaches the success window is at most half the
    sliding window, so an update that ends has pruned at most one entry. *)
Lemma slot_reachable_half W init st :
  slot_reachable W init st → window_over_half W (slot_sender st) = false.
Proof.
  unfold slot_reachable. intros H.
  eapply (rtc_ind_r (λ st, window_over_half W (slot_sender st) = false));
    [| |exact H].
  - unfold window_over_half, new_sender.
    cbn [slot_sender success_sliding_window].
    apply bool_decide_eq_false_2. rewrite size_empty. unfold wrap64.
    pose proof (Z.mod_pos_bound (W `quot` 2) (2 ^ 64) ltac:(lia)). lia.
  - intros mid st' _ Hstep IH.
    destruct Hstep as [s fl seq e s' v Ha|s fl seq Hin|s fl seq fuel s' Hin Hrec];
      simpl in *.
    + apply window_check_cases in Ha as [[-> _]|(_ & _ & _ & ->)]; done.
    + done.
    + clear IH. unfold record_success in Hrec. revert Hrec.
      generalize {| receive_sliding_window := receive_sliding_window s;
                    success_sliding_window := {[seq]} ∪ success_sliding_window s;
                    last_sliding_packet_seq := last_sliding_packet_seq s |}.
      induction fuel as [|fuel IHf]; intros s1; simpl.
      * destruct (window_over_half W s1) eqn:Hover; [done|]. by intros [= <-].
      * destruct (window_over_half W s1) eqn:Hover; [|by intros [= <-]].
        destruct (prune_once s1) as [s2| |]; simpl; [|done..]. apply IHf.
Qed.

Lemma record_success_prunes_at_most_one W init fuel s fl seq s' :
  slot_reachable W init {| slot_sender := s; in_flight := fl |} →
  record_success W fuel s seq = Done s' →
  let s1 := {| receive_sliding_window := receive_sliding_window s;
               success_sliding_window := {[seq]} ∪ success_sliding_window s;
               last_sliding_packet_seq := last_sliding_packet_seq s |} in
  s' = s1 ∨ removes_front s1 s'.
Proof.
  intros Hreach%slot_reachable_half Hrec s1. simpl in Hreach.
  apply (prune_at_most_one W fuel); [|exact Hrec]. simpl.
  unfold window_over_half in Hreach. apply bool_decide_eq_false in Hreach.
  pose proof (size_union_alt {[seq]} (success_sliding_window s)) as Hu.
  rewrite size_singleton in Hu.
  pose proof (subseteq_size (success_sliding_window s ∖ {[seq]})
                (success_sliding_window s) ltac:(set_solver)).
  lia.
Qed.

Lemma cbegin_least X m :
  m ∈ X → (∀ x, x ∈ X → m ≤ x) → cbegin X = Some m.
Proof.
  intros Hin Hle. destruct (cbegin X) as [m'|] eqn:Hm.
  - f_equal. pose proof (cbegin_elem_of _ _ Hm). pose proof (cbegin_le _ _ m Hm Hin).
    specialize (Hle m' H). lia.
  - apply cbegin_None in Hm. set_solver.
Qed.

Lemma seqZ_snoc_set (a : Z) (k : nat) :
  ({[a + Z.of_nat k]} ∪ list_to_set (seqZ a (Z.of_nat k)) : gset Z)
  = list_to_set (seqZ a (Z.of_nat (S k))).
Proof.
  rewrite seqZ_S, list_to_set_app_L. simpl. set_solver.
Qed.

Lemma size_seqZ_set (a : Z) (k : nat) :
  size (list_to_set (seqZ a (Z.of_nat k)) : gset Z) = k.
Proof.
  rewrite size_list_to_set by apply NoDup_seqZ.
  rewrite length_seqZ. lia.
Qed.

Lemma size_seqZ_snoc_set (a : Z) (k : nat) :
  size ({[a + Z.of_nat k]} ∪ list_to_set (seqZ a (Z.of_nat k)) : gset Z) = S k.
Proof. by rewrite seqZ_snoc_set, size_seqZ_set. Qed.

Lemma wrap64_half W : 0 ≤ W < 2 ^ 64 → wrap64 (W `quot` 2) = W / 2.
Proof.
  intros HW. unfold wrap64. rewrite Z.quot_div_nonneg by lia.
  apply Z.mod_small. split; [apply Z.div_pos; lia|].
  apply Z.div_lt_upper_bound; lia.
Qed.

Lemma gap_sender_S init k :
  gap_sender init (S k)
  = {| receive_sliding_window :=
         {[init + 2 + Z.of_nat k]} ∪ receive_sliding_window (gap_sender init k);
       success_sliding_window :=
         {[init + 2 + Z.of_nat k]} ∪ success_sliding_window (gap_sender init k);
       last_sliding_packet_seq := init |}.
Proof. unfold gap_sender. simpl. by rewrite !seqZ_snoc_set. Qed.

Lemma gap_window_check W init (k : nat) :
  Z.of_nat k + 2 ≤ W →
  window_check W (gap_sender init k) (init + 2 + Z.of_nat k) false
  = ({| receive_sliding_window :=
          {[init + 2 + Z.of_nat k]} ∪ receive_sliding_window (gap_sender init k);
        success_sliding_window := success_sliding_window (gap_sender init k);
        last_sliding_packet_seq := init |}, Proceed).
Proof.
  intros Hwin. unfold window_check, gap_sender. simpl.
  rewrite decide_False.
  2:{ rewrite elem_of_list_to_set, elem_of_seqZ. lia. }
  rewrite decide_False by lia. rewrite decide_False by lia. reflexivity.
Qed.

Lemma prune_below_half W s fuel :
  Z.of_nat (size (success_sliding_window s)) ≤ wrap64 (W `quot` 2) →
  prune W fuel s = Done s.
Proof.
  intros Hsize. destruct fuel; simpl; unfold window_over_half;
    by rewrite bool_decide_eq_false_2 by lia.
Qed.

Lemma gap_sender_reachable W init (k : nat) :
  0 ≤ W < 2 ^ 64 →
  Z.of_nat k ≤ W / 2 → Z.of_nat k + 1 ≤ W →
  slot_reachable W init {| slot_sender := gap_sender init k; in_flight := ∅ |}.
Proof.
  intros HW. induction k as [|k IH]; intros Hhalf Hwin.
  - apply rtc_refl.
  - set (x := init + 2 + Z.of_nat k).
    assert (({[x]} ∪ ∅) ∖ {[x]} = (∅ : gset Z)) as Hfl by set_solver.
    rewrite <- Hfl.
    eapply rtc_r; [eapply rtc_r; [apply IH; lia|]|].
    + (* the admission check lets the batch in *)
      eapply (slot_enter W (gap_sender init k) ∅ x false _ Proceed).
      apply gap_window_check. lia.
    + (* its success update finds at most half a window and prunes nothing *)
      apply (slot_success W _ _ x 0); [set_solver|].
      rewrite gap_sender_S. fold x. unfold record_success.
      etrans; [apply prune_below_half|reflexivity].
      cbn [success_sliding_window]. unfold gap_sender, x.
      cbn [success_sliding_window].
      rewrite size_seqZ_snoc_set, wrap64_half by done. lia.
Qed.

(** Whatever the size of the sliding window, from 3 on: a sender that
    skips its first batch and delivers the following ones gets each of
    them written, until the success window is one entry over half the
    sliding window; the update of that batch never ends. *)
Lemma gap_spins W init :
  3 ≤ W < 2 ^ 64 →
  let half := Z.to_nat (W / 2) in
  let seq := init + 2 + Z.of_nat half in
  slot_reachable W init {| slot_sender := gap_sender init half; in_flight := ∅ |}
  ∧ window_check W (gap_sender init half) seq false
    = ({| receive_sliding_window :=
            {[seq]} ∪ receive_sliding_window (gap_sender init half);
          success_sliding_window := success_sliding_window (gap_sender init half);
          last_sliding_packet_seq := init |}, Proceed)
  ∧ ∀ fuel,
      record_success W fuel
        {| receive_sliding_window :=
             {[seq]} ∪ receive_sliding_window (gap_sender init half);
           success_sliding_window := success_sliding_window (gap_sender init half);
           last_sliding_packet_seq := init |} seq
      = OutOfFuel.
Proof.
  intros HW half seq.
  assert (0 ≤ W / 2) as Hpos by (apply Z.div_pos; lia).
  assert (W / 2 + 2 ≤ W) as Hfit.
  { pose proof (Z.div_mod W 2 ltac:(lia)).
    pose proof (Z.mod_pos_bound W 2 ltac:(lia)). lia. }
  assert (Z.of_nat half = W / 2) as Hhalf by (unfold half; lia).
  split; [|split].
  - apply gap_sender_reachable; lia.
  - apply gap_window_check. lia.
  - apply (record_success_spins _ _ _ (init + 2)).
    + unfold window_over_half. apply bool_decide_eq_true_2.
      unfold gap_sender, seq. cbn [success_sliding_window].
      rewrite size_seqZ_snoc_set, wrap64_half by lia. lia.
    + unfold gap_sender, seq. cbn [success_sliding_window].
      rewrite seqZ_snoc_set. apply cbegin_least.
      * rewrite elem_of_list_to_set, elem_of_seqZ. lia.
      * intros x. rewrite elem_of_list_to_set, elem_of_seqZ. lia.
    + cbn [last_sliding_packet_seq]. lia.
Qed.

(** With a sliding window of 4, three batches in order: the third update
    finds three entries, more than half the window, and prunes batch 0. *)
Example pruning_in_order :
  add_chunks 4 1 one_tablet_channel (row_call <$> seqZ 0 3)
  = Done ({| _senders := [ {| receive_sliding_window := {[1; 2]};
                              success_sliding_window := {[1; 2]};
                              last_sliding_packet_seq := 0 |} ];
             _num_remaining_senders := 1;
             _partition_ids := ∅;
             _delta_writers := _delta_writers one_tablet_channel;
             _tablet_id_to_sorted_indexes := {[ 5 := 0 ]} |},
          replicate 3 row_result).
Proof. vm_compute. reflexivity. Qed.

(** C6 (the code against the claim). Sender 0 delivers the batches 1 to 20
    and each is written; with batch 0 still missing, the success-window
    update of batch 21 finds 21 entries in the success window, the least
    of them 1 and not 0, and its pruning loop does not end: whatever the
    number of passes allowed, the call has not returned. *)
Theorem pruning_loop_spins_on_gap :
  open primary_writer (-1) one_tablet_request = Done (Value one_tablet_channel)
  ∧ add_chunks 40 0 one_tablet_channel (row_call <$> seqZ 1 20)
    = Done (gap_channel, replicate 20 row_result)
  ∧ ∀ fuel, add_chunk 40 fuel gap_channel (Some {| num_rows := 1 |})
              (row_request 21) = OutOfFuel.
Proof.
  split; [vm_compute; reflexivity|].
  split; [vm_compute; reflexivity|].
  eapply add_chunk_spins.
  - vm_compute. reflexivity.
  - vm_compute. reflexivity.
  - reflexivity.
  - vm_compute. reflexivity.
  - apply (record_success_spins _ _ _ 1).
    + vm_compute. reflexivity.
    + vm_compute. reflexivity.
    + simpl. lia.
Qed.

(** ** The row scatter *)

Lemma cnt_nil c : cnt c [] = 0%nat.
Proof. reflexivity. Qed.

Lemma cnt_cons c o os :
  cnt c (o :: os) = ((if decide (o = c) then 1 else 0) + cnt c os)%nat.
Proof. unfold cnt. rewrite filter_cons. by destruct (decide (o = c)). Qed.

Lemma cnt_app c os1 os2 : cnt c (os1 ++ os2) = (cnt c os1 + cnt c os2)%nat.
Proof. unfold cnt. by rewrite filter_app, length_app. Qed.

Lemma cnt_take_le c k os : (cnt c (take k os) ≤ cnt c os)%nat.
Proof.
  rewrite <- (take_drop k os) at 2. rewrite cnt_app. lia.
Qed.

Lemma cnt_take_S c k os o :
  os !! k = Some o →
  cnt c (take (S k) os) = (cnt c (take k os) + if decide (o = c) then 1 else 0)%nat.
Proof.
  intros H. rewrite (take_S_r _ _ _ H), cnt_app, cnt_cons, cnt_nil. lia.
Qed.

Lemma cnt_take_lt c k os :
  os !! k = Some c → (cnt c (take k os) < cnt c os)%nat.
Proof.
  intros H. pose proof (cnt_take_le c (S k) os) as Hle.
  rewrite (cnt_take_S _ _ _ _ H), decide_True in Hle by done. lia.
Qed.

Lemma below_S c os : below (S c) os = (below c os + cnt c os)%nat.
Proof. reflexivity. Qed.

Lemma below_mono c c' os : (c ≤ c')%nat → (below c os ≤ below c' os)%nat.
Proof. induction 1; simpl; lia. Qed.

Lemma below_cons c o os :
  below c (o :: os) = ((if decide (o < c)%nat then 1 else 0) + below c os)%nat.
Proof.
  induction c as [|c IH]; simpl; [done|]. rewrite IH, cnt_cons.
  repeat case_decide; lia.
Qed.

(** Two rows never share a position. *)
Lemma position_inj c m c' m' os :
  (m < cnt c os)%nat → (m' < cnt c' os)%nat →
  (below c os + m = below c' os + m')%nat → c = c' ∧ m = m'.
Proof.
  intros Hm Hm' Heq.
  destruct (decide (c = c')) as [->|Hne]; [split; [done|lia]|].
  exfalso. destruct (decide (c < c')%nat).
  - pose proof (below_mono (S c) c' os ltac:(lia)). rewrite below_S in H. lia.
  - pose proof (below_mono (S c') c os ltac:(lia)). rewrite below_S in H. lia.
Qed.

(** The rank of a row in its bucket. *)
Lemma filter_seq_lookup (P : nat → Prop) `{!∀ x, Decision (P x)} a len m j :
  filter P (seq a len) !! m = Some j →
  P j ∧ (a ≤ j < a + len)%nat ∧ m = length (filter P (seq a (j - a))).
Proof.
  revert a m. induction len as [|len IH]; intros a m; simpl; [done|].
  rewrite filter_cons. destruct (decide (P a)) as [Ha|Ha].
  - destruct m as [|m]; simpl.
    + intros [= <-]. rewrite Nat.sub_diag. simpl. repeat split; auto; lia.
    + intros (Hj & Hr & ->)%IH. repeat split; auto; [lia..|].
      replace (j - a)%nat with (S (j - S a)) by lia. simpl.
      rewrite filter_cons, decide_True by done. done.
  - intros (Hj & Hr & ->)%IH. repeat split; auto; [lia..|].
    replace (j - a)%nat with (S (j - S a)) by lia. simpl.
    rewrite filter_cons, decide_False by done. done.
Qed.

Lemma length_filter_seq_take c os k :
  length (filter (λ j, os !! j = Some c) (seq 0 k)) = cnt c (take k os).
Proof.
  induction k as [|k IH]; [by rewrite take_0|].
  rewrite seq_S, filter_app, length_app, IH. simpl.
  rewrite filter_cons, filter_nil.
  destruct (os !! k) as [o|] eqn:Hk.
  - rewrite (cnt_take_S _ _ _ _ Hk).
    destruct (decide (Some o = Some c)) as [[= ->]|Hne].
    + by rewrite decide_True.
    + rewrite decide_False by congruence. done.
  - rewrite decide_False by done. simpl.
    apply lookup_ge_None in Hk. rewrite !take_ge by lia. lia.
Qed.

Lemma length_bucket c os : length (bucket c os) = cnt c os.
Proof. unfold bucket. by rewrite length_filter_seq_take, firstn_all. Qed.

Lemma bucket_lookup c os m j :
  bucket c os !! m = Some j → os !! j = Some c ∧ m = cnt c (take j os).
Proof.
  unfold bucket. intros (Hj & _ & ->)%filter_seq_lookup.
  by rewrite Nat.sub_0_r, length_filter_seq_take.
Qed.

Lemma bucket_lookup_rank c os j :
  os !! j = Some c → bucket c os !! cnt c (take j os) = Some j.
Proof.
  intros Hj.
  assert (cnt c (take j os) < length (bucket c os))%nat as Hlt.
  { rewrite length_bucket. by apply cnt_take_lt. }
  apply lookup_lt_is_Some in Hlt as [j' Hj'].
  destruct (bucket_lookup _ _ _ _ Hj') as [Hc Hm].
  (* ranks determine rows *)
  destruct (decide (j = j')) as [->|Hne]; [done|]. exfalso.
  assert (∀ a b, (a < b)%nat → os !! a = Some c → (cnt c (take a os) < cnt c (take b os))%nat) as Hmono.
  { intros a b Hab Ha. pose proof (cnt_take_le c (S a) (take b os)).
    rewrite take_take in *. rewrite Nat.min_l in * by lia.
    rewrite (cnt_take_S _ _ _ _ Ha), decide_True in H by done. lia. }
  destruct (decide (j < j')%nat).
  - specialize (Hmono j j' ltac:(lia) Hj). lia.
  - specialize (Hmono j' j ltac:(lia) Hc). lia.
Qed.

Lemma below_le_length c os : (below c os ≤ length os)%nat.
Proof.
  induction os as [|o os IH]; simpl.
  - induction c; simpl; [done|]. rewrite cnt_nil. lia.
  - rewrite below_cons. case_decide; lia.
Qed.

Lemma below_cnt_le_length c os : (below c os + cnt c os ≤ length os)%nat.
Proof. rewrite <- below_S. apply below_le_length. Qed.

Local Arguments below : simpl never.
Local Arguments cnt : simpl never.

Lemma wrap32_small z : 0 ≤ z < 2 ^ 32 → wrap32 z = z.
Proof. intros H. unfold wrap32. by apply Z.mod_small. Qed.

Lemma read_Some {A} (l : list A) i a : l !! i = Some a → read l i = Done a.
Proof. unfold read. by intros ->. Qed.

Lemma write_lt {A} (l : list A) i a :
  (i < length l)%nat → write l i a = Done (<[i:=a]> l).
Proof. intros H. unfold write. by rewrite decide_True. Qed.

Lemma count_rows_spec idx ids points :
  Forall (routed idx (length points)) ids →
  Forall (λ v, 0 ≤ v ∧ v + Z.of_nat (length ids) < 2 ^ 32) points →
  ∃ points', count_rows ids idx points = Done (idx, points')
    ∧ length points' = length points
    ∧ ∀ c v, points !! c = Some v →
        points' !! c = Some (v + Z.of_nat (cnt c (ords idx ids))).
Proof.
  revert points. induction ids as [|t ids IH]; intros points Hids Hpts.
  - exists points. simpl. split; [done|]. split; [done|].
    intros c v ->. f_equal. rewrite cnt_nil. lia.
  - apply Forall_cons in Hids as [(o & Ho & Hpos & Hlt) Hids]. simpl.
    unfold subscript. rewrite Ho.
    destruct (lookup_lt_is_Some_2 points (Z.to_nat o) Hlt) as [v0 Hv0].
    rewrite (read_Some _ _ _ Hv0). simpl. rewrite write_lt by done. simpl.
    pose proof (proj1 (Forall_lookup _ _) Hpts _ _ Hv0) as [Hv0a Hv0b].
    simpl in Hv0b. rewrite wrap32_small by lia.
    destruct (IH (<[Z.to_nat o:=v0 + 1]> points)) as (points' & Hrun & Hlen & Hcells).
    + by rewrite length_insert.
    + apply Forall_insert; [|lia].
      eapply Forall_impl; [exact Hpts|]. simpl. intros v. lia.
    + exists points'. split; [done|]. rewrite length_insert in Hlen.
      split; [done|]. intros c v Hc.
      assert (ordinal idx t = Z.to_nat o) as Hord.
      { unfold ordinal. by rewrite Ho. }
      change (ords idx (t :: ids)) with (ordinal idx t :: ords idx ids).
      rewrite cnt_cons, Hord.
      destruct (decide (Z.to_nat o = c)) as [<-|Hne].
      * rewrite Hv0 in Hc. injection Hc as <-.
        rewrite (Hcells _ (v0 + 1)); [f_equal; lia|].
        by rewrite list_lookup_insert_eq.
      * rewrite (Hcells _ v); [f_equal; lia|].
        by rewrite list_lookup_insert_ne.
Qed.

Lemma accumulate_spec os n i points :
  (1 ≤ i)%nat →
  length points = (i + n)%nat →
  Z.of_nat (length os) < 2 ^ 32 →
  (∀ c, (c < i + n)%nat →
     points !! c = Some (Z.of_nat (if decide (c < i)%nat then below (S c) os
                                   else cnt c os))) →
  ∃ points', accumulate n i points = Done points'
    ∧ length points' = (i + n)%nat
    ∧ ∀ c, (c < i + n)%nat → points' !! c = Some (Z.of_nat (below (S c) os)).
Proof.
  revert i points. induction n as [|n IH]; intros i points Hi Hlen Hos Hcells.
  - exists points. simpl. split; [done|]. split; [done|].
    intros c Hc. rewrite (Hcells c Hc). by rewrite decide_True by lia.
  - simpl.
    rewrite (read_Some _ _ _ (Hcells i ltac:(lia))).
    rewrite decide_False by lia. simpl.
    rewrite (read_Some _ _ _ (Hcells (i - 1)%nat ltac:(lia))).
    rewrite decide_True by lia. simpl.
    rewrite write_lt by lia. simpl.
    replace (S (i - 1)) with i by lia.
    pose proof (below_le_length (S i) os) as Hle. rewrite below_S in Hle.
    rewrite wrap32_small by lia.
    destruct (IH (S i) (<[i:=Z.of_nat (cnt i os) + Z.of_nat (below i os)]> points))
      as (points' & Hrun & Hlen' & Hcells').
    + lia.
    + rewrite length_insert. lia.
    + done.
    + intros c Hc. destruct (decide (c = i)) as [->|Hne].
      * rewrite list_lookup_insert_eq by lia. rewrite decide_True by lia.
        f_equal. rewrite below_S. lia.
      * rewrite list_lookup_insert_ne by done. rewrite (Hcells c ltac:(lia)).
        repeat case_decide; try lia; done.
    + exists points'. split; [done|]. split; [lia|].
      intros c Hc. apply Hcells'. lia.
Qed.

Lemma scatter_rows_spec idx ids n_ch k rows points :
  let os := ords idx ids in
  Forall (routed idx n_ch) ids →
  (k ≤ length ids)%nat →
  Z.of_nat (length ids) < 2 ^ 32 →
  length rows = length ids →
  length points = S n_ch →
  (∀ c, (c ≤ n_ch)%nat →
     points !! c = Some (Z.of_nat (below c os + cnt c (take k os)))) →
  (∀ c m j, bucket c os !! m = Some j → (k ≤ j)%nat →
     rows !! (below c os + m)%nat = Some (Z.of_nat j)) →
  ∃ rows' points',
    scatter_rows k ids idx rows points = Done (Value (rows', points'))
    ∧ length rows' = length ids
    ∧ length points' = S n_ch
    ∧ (∀ c, (c ≤ n_ch)%nat → points' !! c = Some (Z.of_nat (below c os)))
    ∧ (∀ c m j, bucket c os !! m = Some j →
         rows' !! (below c os + m)%nat = Some (Z.of_nat j)).
Proof.
  intros os Hids. revert rows points.
  induction k as [|i IH]; intros rows points Hk Hn Hrows Hpoints Hcells Hplaced.
  - exists rows, points. simpl. repeat split; auto.
    + intros c Hc. rewrite (Hcells c Hc), take_0, cnt_nil. f_equal. lia.
    + intros c m j Hj. apply Hplaced; [done|lia].
  - simpl.
    destruct (lookup_lt_is_Some_2 ids i ltac:(lia)) as [t Ht].
    rewrite (read_Some _ _ _ Ht). simpl.
    pose proof (proj1 (Forall_lookup _ _) Hids _ _ Ht) as (o & Ho & Hpos & Hlt).
    rewrite Ho.
    assert (os !! i = Some (Z.to_nat o)) as Hoi.
    { unfold os, ords. rewrite list_lookup_fmap, Ht. simpl.
      unfold ordinal. by rewrite Ho. }
    set (c := Z.to_nat o) in *.
    rewrite (read_Some _ _ _ (Hcells c ltac:(lia))). simpl.
    rewrite (cnt_take_S _ _ _ _ Hoi), decide_True by done.
    pose proof (cnt_take_lt _ _ _ Hoi) as Hrank.
    pose proof (below_cnt_le_length c os) as Hfit.
    assert (length os = length ids) as Hlos by apply length_fmap.
    replace (Z.of_nat (below c os + (cnt c (take i os) + 1)) - 1)
      with (Z.of_nat (below c os + cnt c (take i os))) by lia.
    rewrite wrap32_small by lia. rewrite Nat2Z.id.
    rewrite write_lt by lia. simpl. rewrite wrap32_small by lia.
    rewrite write_lt by lia. simpl.
    apply IH.
    + lia.
    + done.
    + by rewrite length_insert.
    + by rewrite length_insert.
    + intros c' Hc'. destruct (decide (c' = c)) as [->|Hne].
      * by rewrite list_lookup_insert_eq by lia.
      * rewrite list_lookup_insert_ne by done. rewrite (Hcells c' Hc').
        rewrite (cnt_take_S _ _ _ _ Hoi), decide_False by done.
        f_equal. lia.
    + intros c' m j Hj Hij. destruct (decide (j = i)) as [->|Hne].
      * destruct (bucket_lookup _ _ _ _ Hj) as [Hc' ->].
        rewrite Hoi in Hc'. injection Hc' as <-.
        by rewrite list_lookup_insert_eq by lia.
      * rewrite list_lookup_insert_ne; [apply Hplaced; [done|lia]|].
        intros Heq. apply Hne.
        pose proof (lookup_lt_Some _ _ _ Hj) as Hm. rewrite length_bucket in Hm.
        destruct (position_inj _ _ _ _ _ Hrank Hm Heq) as [<- <-].
        rewrite (bucket_lookup_rank _ _ _ Hoi) in Hj. congruence.
Qed.

Lemma StronglySorted_lt_seq a n : StronglySorted lt (seq a n).
Proof.
  revert a. induction n as [|n IH]; intros a; simpl; constructor; [apply IH|].
  apply Forall_forall. intros x [Hx _]%elem_of_seq. lia.
Qed.

Lemma StronglySorted_filter {A} (R : relation A) (P : A → Prop)
    `{!∀ x, Decision (P x)} l :
  StronglySorted R l → StronglySorted R (filter P l).
Proof.
  induction 1 as [|x l _ IH Hx]; [constructor|].
  rewrite filter_cons. destruct (decide (P x)); [|done].
  constructor; [done|]. apply Forall_forall.
  intros y [_ Hy]%list_elem_of_filter.
  by apply (proj1 (Forall_forall _ _) Hx).
Qed.

Lemma bucket_sorted c os : StronglySorted Z.lt (Z.of_nat <$> bucket c os).
Proof.
  apply (StronglySorted_fmap Z.of_nat lt Z.lt).
  - intros x y. lia.
  - apply StronglySorted_filter, StronglySorted_lt_seq.
Qed.

Lemma scatter_spec idx chunk request :
  dense idx →
  Forall (λ t, is_Some (idx !! t)) (tablet_ids request) →
  tablet_ids_size request = num_rows chunk →
  Z.of_nat (tablet_ids_size request) < 2 ^ 31 →
  let os := ords idx (tablet_ids request) in
  ∃ rows points,
    _create_write_context idx (Some chunk) request
      = Done (idx, Value {| _row_indexes := Some rows;
                            _channel_row_idx_start_points := Some points |})
    ∧ length rows = num_rows chunk
    ∧ length points = S (size idx)
    ∧ (∀ c, (c ≤ size idx)%nat → points !! c = Some (Z.of_nat (below c os)))
    ∧ (∀ c m j, bucket c os !! m = Some j →
         rows !! (below c os + m)%nat = Some (Z.of_nat j)).
Proof.
  intros Hdense Hpresent Hsize Hint os.
  assert (Forall (routed idx (size idx)) (tablet_ids request)) as Hrouted.
  { eapply Forall_impl; [exact Hpresent|]. intros t [o Ho]. exists o.
    specialize (Hdense _ _ Ho). split; [done|]. lia. }
  assert (length os = tablet_ids_size request) as Hlos by apply length_fmap.
  unfold tablet_ids_size in *.
  unfold _create_write_context.
  destruct (decide (tablet_ids_size request ≠ num_rows chunk)) as [Hne|_];
    [by destruct Hne|].
  destruct (count_rows_spec idx (tablet_ids request) (replicate (size idx + 1) 0))
    as (points1 & Hrun1 & Hlen1 & Hcells1).
  { eapply Forall_impl; [exact Hrouted|]. intros t (o & ? & ? & ?).
    exists o. rewrite length_replicate. repeat split; auto; lia. }
  { apply Forall_replicate. lia. }
  rewrite Hrun1. simpl. rewrite length_replicate in Hlen1.
  destruct (accumulate_spec os (size idx) 1 points1) as (points2 & Hrun2 & Hlen2 & Hcells2).
  { lia. }
  { lia. }
  { lia. }
  { intros c Hc. rewrite (Hcells1 c 0).
    - f_equal. fold os. case_decide; [|lia].
      assert (c = 0%nat) as -> by lia. done.
    - apply lookup_replicate. split; [done|lia]. }
  rewrite Hrun2. simpl.
  destruct (scatter_rows_spec idx (tablet_ids request) (size idx)
              (length (tablet_ids request))
              (replicate (num_rows chunk) 0) points2)
    as (rows3 & points3 & Hrun3 & Hlen3 & Hlenp3 & Hcells3 & Hplaced3).
  { done. }
  { lia. }
  { lia. }
  { rewrite length_replicate. lia. }
  { lia. }
  { intros c Hc. fold os. rewrite <- Hlos, firstn_all.
    rewrite (Hcells2 c ltac:(lia)). done. }
  { intros c m j Hj Hle. apply bucket_lookup in Hj as [Hj%lookup_lt_Some _].
    unfold os in *. lia. }
  unfold tablet_ids_size. rewrite Hrun3. simpl.
  exists rows3, points3. split; [done|]. split; [lia|]. split; [done|].
  split; [exact Hcells3|exact Hplaced3].
Qed.

Lemma sub_range_bucket c os rows :
  (below c os + cnt c os ≤ length rows)%nat →
  (∀ m j, bucket c os !! m = Some j →
     rows !! (below c os + m)%nat = Some (Z.of_nat j)) →
  take (cnt c os) (drop (below c os) rows) = Z.of_nat <$> bucket c os.
Proof.
  intros Hfit Hplaced. apply list_eq. intros m.
  rewrite list_lookup_fmap.
  destruct (decide (m < cnt c os)%nat) as [Hm|Hm].
  - rewrite lookup_take_lt, lookup_drop by done.
    destruct (lookup_lt_is_Some_2 (bucket c os) m) as [j Hj].
    { by rewrite length_bucket. }
    rewrite Hj. simpl. by apply Hplaced.
  - rewrite lookup_take_ge by lia.
    rewrite (proj2 (lookup_ge_None (bucket c os) m)); [done|].
    rewrite length_bucket. lia.
Qed.

Lemma ords_lookup idx ids j c :
  Forall (λ t, ∃ o, idx !! t = Some o ∧ 0 ≤ o) ids →
  ords idx ids !! j = Some c ↔
  ∃ t, ids !! j = Some t ∧ idx !! t = Some (Z.of_nat c).
Proof.
  intros Hids. unfold ords. rewrite list_lookup_fmap. split.
  - destruct (ids !! j) as [t|] eqn:Ht; simpl; [|done]. intros [= <-].
    exists t. split; [done|].
    destruct (proj1 (Forall_lookup _ _) Hids _ _ Ht) as (o & Ho & Hpos).
    unfold ordinal. rewrite Ho. simpl. f_equal. lia.
  - intros (t & -> & Ht). simpl. unfold ordinal. rewrite Ht. simpl.
    by rewrite Nat2Z.id.
Qed.

(** C1. For a batch with a chunk, one tablet id per row and every tablet
    id in a dense sorted index, [_create_write_context] builds a context
    (and leaves the index as it was) in which the row indexes are a
    permutation of the row numbers of the chunk, and for every ordinal the
    cells between its start point and the next hold exactly the rows whose
    tablet has that ordinal, in increasing order. The number of tablet ids
    is an [int]. *)
Theorem scatter_is_stable_partition idx chunk request :
  dense idx →
  Forall (λ t, is_Some (idx !! t)) (tablet_ids request) →
  tablet_ids_size request = num_rows chunk →
  Z.of_nat (tablet_ids_size request) < 2 ^ 31 →
  ∃ rows points,
    _create_write_context idx (Some chunk) request
      = Done (idx, Value {| _row_indexes := Some rows;
                            _channel_row_idx_start_points := Some points |})
    ∧ rows ≡ₚ Z.of_nat <$> seq 0 (num_rows chunk)
    ∧ length points = S (size idx)
    ∧ ∀ i, (i < size idx)%nat →
        ∃ sub, sub_range rows points i = Some sub
          ∧ (∀ r, r ∈ sub ↔
               ∃ j t, r = Z.of_nat j ∧ tablet_ids request !! j = Some t
                      ∧ idx !! t = Some (Z.of_nat i))
          ∧ StronglySorted Z.lt sub.
Proof.
  intros Hdense Hpresent Hsize Hint.
  destruct (scatter_spec idx chunk request Hdense Hpresent Hsize Hint)
    as (rows & points & Hrun & Hlen & Hlenp & Hcells & Hplaced).
  set (os := ords idx (tablet_ids request)) in *.
  assert (length os = num_rows chunk) as Hlos.
  { unfold os, ords. rewrite length_fmap. exact Hsize. }
  assert (Forall (λ t, ∃ o, idx !! t = Some o ∧ 0 ≤ o) (tablet_ids request))
    as Hpos.
  { eapply Forall_impl; [exact Hpresent|]. intros t [o Ho]. exists o.
    split; [done|]. apply (Hdense _ _ Ho). }
  exists rows, points. split; [exact Hrun|]. split; [|split; [exact Hlenp|]].
  - symmetry. apply submseteq_length_Permutation.
    + apply NoDup_submseteq.
      * apply (NoDup_fmap_2 _), NoDup_seq.
      * intros r (j & -> & [_ Hj]%elem_of_seq)%list_elem_of_fmap.
        destruct (lookup_lt_is_Some_2 os j ltac:(lia)) as [c Hc].
        eapply list_elem_of_lookup_2, Hplaced, bucket_lookup_rank, Hc.
    + rewrite length_fmap, length_seq. lia.
  - intros i Hi. unfold sub_range.
    rewrite (Hcells i ltac:(lia)), (Hcells (S i) ltac:(lia)). simpl.
    eexists. split; [reflexivity|].
    replace (Z.to_nat (Z.of_nat (below (S i) os) - Z.of_nat (below i os)))
      with (cnt i os) by (rewrite below_S; lia).
    rewrite Nat2Z.id, sub_range_bucket.
    + split; [|apply bucket_sorted].
      intros r. rewrite list_elem_of_fmap. unfold bucket. split.
      * intros (j & -> & [Hj _]%list_elem_of_filter).
        apply (ords_lookup _ _ _ _ Hpos) in Hj as (t & Hj & Ht). eauto.
      * intros (j & t & -> & Hj & Ht). exists j. split; [done|].
        apply list_elem_of_filter. split.
        -- apply (ords_lookup _ _ _ _ Hpos). eauto.
        -- apply elem_of_seq. apply lookup_lt_Some in Hj.
           unfold tablet_ids_size in Hsize. lia.
    + pose proof (below_cnt_le_length i os). lia.
    + apply Hplaced.
Qed.

(** ** The sorted tablet index *)

Lemma open_writers_ids open_writer ts writers ids writers' ids' :
  open_writers open_writer ts writers ids = Value (writers', ids') →
  ids' = ids ++ (tablet_id <$> ts).
Proof.
  revert writers ids. induction ts as [|t ts IH]; intros writers ids; simpl.
  - intros [= _ <-]. by rewrite app_nil_r.
  - destruct (open_writer t) as [writer|code]; [|done].
    intros ->%IH. by rewrite <- app_assoc.
Qed.

Lemma open_sorted_indexes open_writer init params ch :
  open open_writer init params = Done (Value ch) →
  _tablet_id_to_sorted_indexes ch = sorted_indexes (tablet_id <$> tablets params).
Proof.
  unfold open, _open_all_writers. case_decide; [done|].
  destruct (index_in_schema params); simpl; [|done].
  destruct (open_writers _ _ _ _) as [[writers ids]|code] eqn:Hopen; [|done].
  intros [= <-]. simpl. by apply open_writers_ids in Hopen as ->.
Qed.

(** C8. A channel opened with the tablets 5, 2 and 8 has the sorted index
    2 to 0, 5 to 1, 8 to 2; for a batch of four rows with the tablet ids
    5, 2, 5, 8 the scatter leaves the start points [0; 1; 3; 4] and the row
    indexes [1; 0; 2; 3]. *)
Theorem scenario_tablets_5_2_8 open_writer init params ch :
  tablet_id <$> tablets params = [5; 2; 8] →
  open open_writer init params = Done (Value ch) →
  _tablet_id_to_sorted_indexes ch = {[ 2 := 0; 5 := 1; 8 := 2 ]}
  ∧ ∀ request, tablet_ids request = [5; 2; 5; 8] →
      _create_write_context (_tablet_id_to_sorted_indexes ch)
        (Some {| num_rows := 4 |}) request
      = Done (_tablet_id_to_sorted_indexes ch,
              Value {| _row_indexes := Some [1; 0; 2; 3];
                       _channel_row_idx_start_points := Some [0; 1; 3; 4] |}).
Proof.
  intros Hids Hopen. apply open_sorted_indexes in Hopen. rewrite Hids in Hopen.
  assert (_tablet_id_to_sorted_indexes ch = {[ 2 := 0; 5 := 1; 8 := 2 ]}) as ->.
  { rewrite Hopen. vm_compute. reflexivity. }
  split; [reflexivity|]. intros request Hrows.
  unfold _create_write_context, tablet_ids_size. rewrite Hrows.
  vm_compute. reflexivity.
Qed.

Lemma scenario_tablets_5_2_8_witness :
  let params := {| num_senders := 2;
                   tablets := [ {| tablet_id := 5; tablet_partition_id := 10 |};
                                {| tablet_id := 2; tablet_partition_id := 20 |};
                                {| tablet_id := 8; tablet_partition_id := 30 |} ];
                   index_in_schema := true |} in
  ∃ ch, open primary_writer (-1) params = Done (Value ch)
    ∧ _tablet_id_to_sorted_indexes ch = {[ 2 := 0; 5 := 1; 8 := 2 ]}
    ∧ ∀ request, tablet_ids request = [5; 2; 5; 8] →
        _create_write_context (_tablet_id_to_sorted_indexes ch)
          (Some {| num_rows := 4 |}) request
        = Done (_tablet_id_to_sorted_indexes ch,
                Value {| _row_indexes := Some [1; 0; 2; 3];
                         _channel_row_idx_start_points := Some [0; 1; 3; 4] |}).
Proof.
  intros params. eexists. split; [vm_compute; reflexivity|].
  apply (scenario_tablets_5_2_8 primary_writer (-1) params).
  - reflexivity.
  - vm_compute. reflexivity.
Defined.

Lemma emplace_from_size i l (m : gmap Z Z) :
  NoDup l → (∀ t, t ∈ l → m !! t = None) →
  size (emplace_from i l m) = (size m + length l)%nat.
Proof.
  revert i m. induction l as [|t l IH]; intros i m Hnd Hfresh; simpl; [lia|].
  apply NoDup_cons in Hnd as [Ht Hnd]. unfold emplace.
  rewrite (Hfresh t) by left. rewrite IH; [|done|].
  - rewrite map_size_insert_None by (apply Hfresh; left). lia.
  - intros t' Ht'. rewrite lookup_insert_ne by (intros ->; done).
    apply Hfresh. by right.
Qed.

Lemma emplace_from_lookup i l (m : gmap Z Z) t o :
  emplace_from i l m !! t = Some o →
  m !! t = Some o
  ∨ ∃ k, l !! k = Some t ∧ o = wrap32 (Z.of_nat (i + k)).
Proof.
  revert i m. induction l as [|t' l IH]; intros i m; simpl; [by left|].
  intros [H|(k & Hk & ->)]%IH.
  - unfold emplace in H. destruct (m !! t') eqn:Ht'; [by left|].
    destruct (decide (t' = t)) as [->|Hne].
    + rewrite lookup_insert_eq in H. injection H as <-. right. exists 0%nat.
      split; [done|]. by rewrite Nat.add_0_r.
    + rewrite lookup_insert_ne in H by done. by left.
  - right. exists (S k). split; [done|]. f_equal. lia.
Qed.

Lemma sorted_indexes_dense ids :
  NoDup ids → Z.of_nat (length ids) < 2 ^ 32 → dense (sorted_indexes ids).
Proof.
  intros Hnd Hlen t o Ho. unfold sorted_indexes in *.
  pose proof (merge_sort_Permutation Z.le ids) as Hperm.
  rewrite emplace_from_size; [| by rewrite Hperm | intros; apply lookup_empty].
  apply emplace_from_lookup in Ho as [Ho|(k & Hk & ->)].
  - by rewrite lookup_empty in Ho.
  - apply lookup_lt_Some in Hk. rewrite map_size_empty. simpl.
    rewrite Hperm in Hk |- *.
    rewrite wrap32_small by lia. lia.
Qed.

Lemma scatter_is_stable_partition_witness :
  let idx := sorted_indexes [5; 2; 8] in
  let chunk := {| num_rows := 4 |} in
  let request := {| opt_sender_id := Some 0; opt_packet_seq := Some 0;
                    opt_eos := None; tablet_ids := [5; 2; 5; 8];
                    partition_ids := [] |} in
  ∃ rows points,
    _create_write_context idx (Some chunk) request
      = Done (idx, Value {| _row_indexes := Some rows;
                            _channel_row_idx_start_points := Some points |})
    ∧ rows ≡ₚ Z.of_nat <$> seq 0 (num_rows chunk)
    ∧ length points = S (size idx)
    ∧ ∀ i, (i < size idx)%nat →
        ∃ sub, sub_range rows points i = Some sub
          ∧ (∀ r, r ∈ sub ↔
               ∃ j t, r = Z.of_nat j ∧ tablet_ids request !! j = Some t
                      ∧ idx !! t = Some (Z.of_nat i))
          ∧ StronglySorted Z.lt sub.
Proof.
  intros idx chunk request.
  apply (scatter_is_stable_partition idx chunk request).
  - apply sorted_indexes_dense; [|simpl; lia].
    apply (bool_decide_unpack _). vm_compute. exact I.
  - repeat (constructor; [eexists; vm_compute; reflexivity|]). constructor.
  - reflexivity.
  - vm_compute. reflexivity.
Defined.

(** * Calls that overlap *)

(** ** What each block does to the channel *)

Lemma admission_Reply W ch request ch' code :
  admission W ch request = Done (ch', Reply code) → ch' = ch.
Proof.
  unfold admission.
  destruct (negb (has_sender_id request)); [by intros [= <-]|].
  destruct (decide (sender_id request < 0)); [by intros [= <-]|].
  destruct (decide (sender_id request >= _)); [by intros [= <-]|].
  destruct (negb (has_packet_seq request)); [by intros [= <-]|].
  destruct (read _ _) as [s| |]; simpl; [|done..].
  destruct (window_check _ _ _ _) as [s1 [code'|]]; by intros [= <-].
Qed.

Lemma admission_window_check W ch request ch' :
  admission W ch request = Done (ch', Proceed) →
  ∃ s s1, well_formed ch request
    ∧ _senders ch !! Z.to_nat (sender_id request) = Some s
    ∧ window_check W s (packet_seq request) (eos request) = (s1, Proceed)
    ∧ ch' = with_sender ch (Z.to_nat (sender_id request)) s1.
Proof.
  unfold admission, has_sender_id, has_packet_seq.
  destruct (opt_sender_id request) as [sid|] eqn:Hsid; simpl; [|done].
  destruct (decide (sender_id request < 0)); [done|].
  destruct (decide (sender_id request >= _)); [done|].
  destruct (opt_packet_seq request) as [seq|] eqn:Hseq; simpl; [|done].
  unfold read.
  destruct (_senders ch !! _) as [s|] eqn:Hs; simpl; [|done].
  destruct (window_check _ _ _ _) as [s1 v] eqn:Hcheck.
  destruct v; [done|]. intros [= <-].
  exists s, s1. repeat split; eauto; lia.
Qed.

Lemma admission_Proceed W ch request ch' :
  admission W ch request = Done (ch', Proceed) →
  ∃ s, well_formed ch request
    ∧ _senders ch !! Z.to_nat (sender_id request) = Some s
    ∧ (packet_seq request ∉ receive_sliding_window s)
    ∧ last_sliding_packet_seq s < packet_seq request
    ∧ ch' = with_sender ch (Z.to_nat (sender_id request))
              {| receive_sliding_window :=
                   {[packet_seq request]} ∪ receive_sliding_window s;
                 success_sliding_window := success_sliding_window s;
                 last_sliding_packet_seq := last_sliding_packet_seq s |}.
Proof.
  intros (s & s1 & Hwf & Hs & Hcheck & ->)%admission_window_check.
  apply window_check_cases in Hcheck as [[_ [? ?]]|(_ & Hout & Hwin & ->)]; [done|].
  exists s. split; [done|]. split; [done|]. split; [done|]. split; [lia|done].
Qed.

Lemma scatter_and_dispatch_channel ch chunk request ch' res :
  scatter_and_dispatch ch chunk request = Done (ch', res) →
  ∃ idx, ch' = with_sorted_indexes ch idx.
Proof.
  unfold scatter_and_dispatch.
  destruct (_create_write_context _ _ _) as [[idx r]| |]; simpl; [|done..].
  destruct r as [context|code].
  - destruct (dispatch_writes _ _ _ _); simpl; [|done..].
    intros [= <- _]. eauto.
  - intros [= <- _]. eauto.
Qed.

Lemma success_update_channel W fuel ch request ch' :
  success_update W fuel ch request = Done ch' →
  ∃ s s', _senders ch !! Z.to_nat (sender_id request) = Some s
    ∧ record_success W fuel s (packet_seq request) = Done s'
    ∧ ch' = with_sender ch (Z.to_nat (sender_id request)) s'.
Proof.
  unfold success_update, read.
  destruct (_senders ch !! _) as [s|]; simpl; [|done].
  destruct (record_success _ _ _ _) as [s'| |] eqn:Hrec; simpl; [|done..].
  intros [= <-]. eauto.
Qed.

(** The eight blocks a step can be, with the channel after the blocks
    that only reply, scatter or dispatch already rewritten. *)
Ltac block_cases Hstep :=
  destruct Hstep as
    [ch pool request ch' code ->%admission_Reply
    |ch pool chunk request ch' Hadm
    |ch pre post chunk request ch' code [idx ->]%scatter_and_dispatch_channel
    |ch pre post chunk request ch' writes [idx ->]%scatter_and_dispatch_channel
    |ch pre post chunk request
    |ch pre post chunk request n
    |ch pre post chunk request
    |ch pre post chunk request closing fuel ch' Hupd].

(** The writers, the counter and the recorded partitions after a step. *)
Lemma step_writers W sys a sys' :
  step W sys a sys' →
  _delta_writers (channel sys') = _delta_writers (channel sys).
Proof.
  intros Hstep. block_cases Hstep; try reflexivity.
  - by apply admission_Proceed in Hadm as (s & _ & _ & _ & _ & ->).
  - by apply success_update_channel in Hupd as (s & s' & _ & _ & ->).
Qed.

Lemma step_remaining W sys a sys' :
  step W sys a sys' →
  _num_remaining_senders (channel sys')
  = match a with
    | ActDecrement _ _ => _num_remaining_senders (channel sys) - 1
    | _ => _num_remaining_senders (channel sys)
    end.
Proof.
  intros Hstep. block_cases Hstep; try reflexivity.
  - by apply admission_Proceed in Hadm as (s & _ & _ & _ & _ & ->).
  - by apply success_update_channel in Hupd as (s & s' & _ & _ & ->).
Qed.

Lemma step_partition_ids W sys a sys' :
  step W sys a sys' →
  _partition_ids (channel sys')
  = match a with
    | ActRecord r => list_to_set (partition_ids r) ∪ _partition_ids (channel sys)
    | _ => _partition_ids (channel sys)
    end.
Proof.
  intros Hstep. block_cases Hstep; try reflexivity.
  - by apply admission_Proceed in Hadm as (s & _ & _ & _ & _ & ->).
  - by apply success_update_channel in Hupd as (s & s' & _ & _ & ->).
Qed.

(** ** Counting calls and actions *)

Lemma filter_length_insert {A} (P : A → Prop) `{!∀ x, Decision (P x)}
    (pre post : list A) c :
  length (filter P (pre ++ c :: post))
  = (length (filter P (pre ++ post)) + if decide (P c) then 1 else 0)%nat.
Proof.
  rewrite !filter_app, filter_cons, !length_app.
  destruct (decide (P c)); simpl; lia.
Qed.

Lemma closes_snoc acts a :
  closes (acts ++ [a]) = (closes acts + if is_close_action a then 1 else 0)%nat.
Proof.
  unfold closes. rewrite filter_app, length_app, filter_cons, filter_nil.
  destruct (decide (is_close_action a)) as [H|H];
    destruct (is_close_action a); simpl in *; try done; lia.
Qed.

Lemma closers_insert pre post c :
  closers (pre ++ c :: post)
  = (closers (pre ++ post) + if closer c then 1 else 0)%nat.
Proof.
  unfold closers. rewrite filter_length_insert.
  destruct (decide (closer c)) as [H|H];
    destruct (closer c); simpl in *; try done; lia.
Qed.

(** ** The call that closes the channel *)

Lemma closers_cons c pool :
  closers (c :: pool) = (closers pool + if closer c then 1 else 0)%nat.
Proof. apply (closers_insert [] pool c). Qed.

Lemma close_inv_step W r0 sys acts a sys' :
  step W sys a sys' →
  close_inv r0 sys acts → close_inv r0 sys' (acts ++ [a]).
Proof.
  intros Hstep [Hle Hcount]. unfold close_inv.
  rewrite (step_remaining _ _ _ _ Hstep), closes_snoc.
  destruct Hstep; simpl in *.
  all: rewrite ?closers_cons, ?closers_insert in *; unfold closer in *; simpl in *.
  all: rewrite ?Nat.add_0_r in *.
  - done.
  - done.
  - done.
  - split; [done|]. rewrite <- Hcount. destruct (eos request); simpl; lia.
  - split; [lia|].
    destruct (bool_decide_reflect (_num_remaining_senders ch = 1)) as [Heq|Hne].
    + rewrite Heq in *. rewrite decide_False in Hcount by lia.
      rewrite decide_True by lia. lia.
    + repeat case_decide; lia.
  - split; [done|]. rewrite <- Hcount.
    destruct (decide (n - 1 = 0)) as [Hn|Hn]; simpl.
    + rewrite bool_decide_eq_true_2 by lia. lia.
    + rewrite bool_decide_eq_false_2 by lia. lia.
  - split; [done|]. rewrite <- Hcount. lia.
  - done.
Qed.

Lemma close_inv_execution W ch0 acts sys :
  execution W {| channel := ch0; calls := [] |} acts sys →
  close_inv (_num_remaining_senders ch0) sys acts.
Proof.
  remember {| channel := ch0; calls := [] |} as sys0 eqn:Hsys0.
  induction 1 as [sys|sys acts sys1 a sys2 _ IH Hstep].
  - subst. unfold close_inv, closers, closes. simpl. split; [lia|].
    case_decide; [lia|done].
  - eapply close_inv_step; eauto.
Qed.

(** ** Who issues commit and abort *)

Lemma dispatch_only_writes n i writers ids rows points evs :
  dispatch n i writers ids rows points = Done evs →
  Forall (λ e, ¬ is_close e) evs.
Proof.
  revert i evs. induction n as [|n IH]; intros i evs; simpl.
  - intros [= <-]. constructor.
  - destruct (read points i) as [from| |]; simpl; [|done..].
    destruct (read points (S i)) as [upto| |]; simpl; [|done..].
    case_decide; [apply IH|].
    destruct (read rows _) as [row| |]; simpl; [|done..].
    destruct (read ids _) as [t| |]; simpl; [|done..].
    destruct (writers !! t); [|done].
    destruct (slice _ _ _) as [indexes| |]; simpl; [|done..].
    destruct (dispatch n _ _ _ _ _) as [rest| |] eqn:Hrest; simpl; [|done..].
    intros [= <-]. constructor; [by intros []|]. by eapply IH.
Qed.

Lemma scatter_and_dispatch_only_writes ch chunk request ch' writes :
  scatter_and_dispatch ch chunk request = Done (ch', Value writes) →
  Forall (λ e, ¬ is_close e) writes.
Proof.
  unfold scatter_and_dispatch.
  destruct (_create_write_context _ _ _) as [[idx r]| |]; simpl; [|done..].
  destruct r as [context|code]; [|done].
  destruct (dispatch_writes _ _ _ _) as [evs| |] eqn:Hd; simpl; [|done..].
  intros [= _ <-]. unfold dispatch_writes in Hd.
  destruct chunk; [|injection Hd as <-; constructor].
  destruct (size _); [injection Hd as <-; constructor|].
  destruct (_row_indexes context); [|done].
  destruct (_channel_row_idx_start_points context); [|done].
  by eapply dispatch_only_writes.
Qed.

Lemma decremented_by_snoc acts a c :
  decremented_by acts c → decremented_by (acts ++ [a]) c.
Proof.
  unfold decremented_by. destruct (call_stage c); auto; set_solver.
Qed.

Lemma provenance_step W sys acts a sys' :
  step W sys a sys' →
  Forall (decremented_by acts) (calls sys) →
  Forall (decremented_by (acts ++ [a])) (calls sys').
Proof.
  intros Hstep Hall.
  assert (Forall (decremented_by (acts ++ [a])) (calls sys)) as Hall'.
  { eapply Forall_impl; [exact Hall|]. intros c. apply decremented_by_snoc. }
  clear Hall. destruct Hstep; simpl in *.
  all: rewrite ?Forall_app, ?Forall_cons in *.
  all: unfold decremented_by in *; simpl in *.
  - done.
  - done.
  - tauto.
  - destruct (eos request); tauto.
  - split; [tauto|]. split; [set_solver|tauto].
  - destruct Hall' as (? & Hn & ?). split; [done|]. split; [|done].
    case_decide; [|done]. by replace 1 with n by lia.
  - tauto.
  - tauto.
Qed.

Lemma provenance_execution W ch0 acts sys :
  execution W {| channel := ch0; calls := [] |} acts sys →
  Forall (decremented_by acts) (calls sys).
Proof.
  remember {| channel := ch0; calls := [] |} as sys0 eqn:Hsys0.
  induction 1 as [sys|sys acts sys1 a sys2 _ IH Hstep].
  - subst. constructor.
  - eapply provenance_step; eauto.
Qed.


(** ** One decrement for a batch *)



Lemma covered_senders ch ch' k :
  _senders ch' = _senders ch → covered ch k → covered ch' k.
Proof. unfold covered. by intros ->. Qed.

Lemma covered_with_sender ch slot s s' k :
  _senders ch !! slot = Some s →
  (∀ x, x ∈ receive_sliding_window s ∨ x ≤ last_sliding_packet_seq s →
        x ∈ receive_sliding_window s' ∨ x ≤ last_sliding_packet_seq s') →
  covered ch k → covered (with_sender ch slot s') k.
Proof.
  intros Hs Hmono (Hpos & s0 & Hs0 & Hk). split; [done|]. simpl.
  destruct (decide (Z.to_nat k.1 = slot)) as [<-|Hne].
  - exists s'. rewrite list_lookup_insert_eq by by eapply lookup_lt_Some.
    split; [done|]. apply Hmono. congruence.
  - exists s0. by rewrite list_lookup_insert_ne.
Qed.

Lemma removes_front_covers s s' x :
  rtc removes_front s s' →
  x ∈ receive_sliding_window s ∨ x ≤ last_sliding_packet_seq s →
  x ∈ receive_sliding_window s' ∨ x ≤ last_sliding_packet_seq s'.
Proof.
  induction 1 as [|s s1 s2 (_ & _ & Hr & _ & Hl) _ IH]; [done|].
  intros Hx. apply IH. rewrite Hr, Hl.
  destruct Hx as [Hx|Hx]; [|right; lia].
  destruct (decide (x = last_sliding_packet_seq s + 1)) as [->|Hne];
    [right; lia|left; set_solver].
Qed.

Lemma record_success_covers W fuel s seq s' x :
  record_success W fuel s seq = Done s' →
  x ∈ receive_sliding_window s ∨ x ≤ last_sliding_packet_seq s →
  x ∈ receive_sliding_window s' ∨ x ≤ last_sliding_packet_seq s'.
Proof.
  intros Hrec%prune_chain Hx. by apply (removes_front_covers _ _ _ Hrec).
Qed.





(** ** The partitions the closing call sees *)

Lemma recording_partitions_insert pre c post :
  recording_partitions (pre ++ c :: post)
  = (if recording c then list_to_set (partition_ids (call_request c)) else ∅)
    ∪ recording_partitions (pre ++ post).
Proof.
  unfold recording_partitions. rewrite !fmap_app, fmap_cons.
  rewrite !union_list_app_L, union_list_cons. set_solver.
Qed.

Lemma closed_partitions_snoc acts a :
  closed_partitions (acts ++ [a])
  = closed_partitions acts
    ∪ match a with
      | ActDecrement r _ => list_to_set (partition_ids r)
      | _ => ∅
      end.
Proof.
  unfold closed_partitions. rewrite fmap_app, union_list_app_L. simpl.
  set_solver.
Qed.

Lemma partitions_inv_step W ch0 sys acts a sys' :
  step W sys a sys' →
  partitions_inv ch0 sys acts → partitions_inv ch0 sys' (acts ++ [a]).
Proof.
  intros Hstep. unfold partitions_inv.
  rewrite (step_partition_ids _ _ _ _ Hstep), closed_partitions_snoc.
  destruct Hstep; simpl.
  all: rewrite ?recording_partitions_insert; unfold recording; simpl.
  - set_solver.
  - change (recording_partitions (?c :: pool))
      with (recording_partitions ([] ++ c :: pool)).
    rewrite recording_partitions_insert. unfold recording; simpl. set_solver.
  - set_solver.
  - destruct (eos request); simpl; set_solver.
  - set_solver.
  - destruct (decide (n - 1 = 0)); simpl; set_solver.
  - set_solver.
  - set_solver.
Qed.

Lemma partitions_inv_execution W ch0 acts sys :
  execution W {| channel := ch0; calls := [] |} acts sys →
  partitions_inv ch0 sys acts.
Proof.
  remember {| channel := ch0; calls := [] |} as sys0 eqn:Hsys0.
  induction 1 as [sys|sys acts sys1 a sys2 _ IH Hstep].
  - subst. unfold partitions_inv, recording_partitions, closed_partitions.
    simpl. set_solver.
  - eapply partitions_inv_step; eauto.
Qed.

Lemma writers_execution W ch0 acts sys :
  execution W {| channel := ch0; calls := [] |} acts sys →
  _delta_writers (channel sys) = _delta_writers ch0.
Proof.
  remember {| channel := ch0; calls := [] |} as sys0 eqn:Hsys0.
  induction 1 as [sys|sys acts sys1 a sys2 _ IH Hstep].
  - by subst.
  - rewrite (step_writers _ _ _ _ Hstep). auto.
Qed.

Lemma recording_partitions_none pool :
  Forall (λ c, recording c = false) pool → recording_partitions pool = ∅.
Proof.
  unfold recording_partitions. induction 1 as [|c pool Hc _ IH]; [done|].
  rewrite fmap_cons, union_list_cons, Hc, IH. set_solver.
Qed.

Lemma close_writers_spec ch t w :
  _delta_writers ch !! t = Some w →
  if decide (replica_state w = Secondary)
  then (EvCommit t ∉ close_writers ch) ∧ (EvAbort t ∉ close_writers ch)
  else (EvCommit t ∈ close_writers ch ↔ partition_id w ∈ _partition_ids ch)
       ∧ (EvAbort t ∈ close_writers ch ↔ partition_id w ∉ _partition_ids ch).
Proof.
  intros Hw. unfold close_writers.
  assert (∀ e, e ∈ map_to_list (_delta_writers ch)
                   ≫= close_writer (_partition_ids ch)
               ↔ ∃ t' w', _delta_writers ch !! t' = Some w'
                          ∧ e ∈ close_writer (_partition_ids ch) (t', w')) as Hin.
  { intros e. rewrite list_elem_of_bind. split.
    - intros ([t' w'] & He & Hin%elem_of_map_to_list). eauto.
    - intros (t' & w' & Hl & He). exists (t', w').
      split; [done|]. by apply elem_of_map_to_list. }
  assert (∀ e t' w', e ∈ close_writer (_partition_ids ch) (t', w') →
            (e = EvCommit t' ∨ e = EvAbort t')) as Hshape.
  { intros e t' w'. unfold close_writer. repeat case_decide; set_solver. }
  case_decide as Hsec.
  - split; intros (t' & w' & Hl & He)%Hin.
    + assert (t' = t) as -> by (apply Hshape in He as [?|?]; congruence).
      rewrite Hw in Hl. injection Hl as <-. unfold close_writer in He.
      rewrite decide_False in He by (intros Hn; by apply Hn). set_solver.
    + assert (t' = t) as -> by (apply Hshape in He as [?|?]; congruence).
      rewrite Hw in Hl. injection Hl as <-. unfold close_writer in He.
      rewrite decide_False in He by (intros Hn; by apply Hn). set_solver.
  - split; rewrite Hin; split.
    + intros (t' & w' & Hl & He).
      assert (t' = t) as -> by (apply Hshape in He as [?|?]; congruence).
      rewrite Hw in Hl. injection Hl as <-. unfold close_writer in He.
      rewrite decide_True in He by done.
      destruct (decide (partition_id w ∉ _partition_ids ch)) as [Hn|Hn];
        [set_solver|]. by apply dec_stable.
    + intros Hp. exists t, w. split; [done|]. unfold close_writer.
      rewrite decide_True by done. rewrite decide_False by (intros Hn; by apply Hn).
      set_solver.
    + intros (t' & w' & Hl & He).
      assert (t' = t) as -> by (apply Hshape in He as [?|?]; congruence).
      rewrite Hw in Hl. injection Hl as <-. unfold close_writer in He.
      rewrite decide_True in He by done.
      destruct (decide (partition_id w ∉ _partition_ids ch)) as [Hn|Hn];
        [done|set_solver].
    + intros Hp. exists t, w. split; [done|]. unfold close_writer.
      rewrite decide_True by done. rewrite decide_True by done. set_solver.
Qed.

(** ** The slots of a channel follow the slot protocol *)

Local Arguments flight : simpl never.

Lemma flight_insert i pre c post :
  flight i (pre ++ c :: post)
  ≡ₚ option_list (flight_of i c) ++ flight i (pre ++ post).
Proof.
  unfold flight. rewrite !omap_app. simpl.
  destruct (flight_of i c) as [x|]; simpl; [|done].
  symmetry. apply Permutation_middle.
Qed.

Lemma flight_cons i c pool :
  flight i (c :: pool) = option_list (flight_of i c) ++ flight i pool.
Proof. unfold flight. simpl. by destruct (flight_of i c). Qed.

Lemma flight_restage i pre chunk request st st' post :
  flight i (pre ++ {| call_chunk := chunk; call_request := request;
                      call_stage := st |} :: post)
  = flight i (pre ++ {| call_chunk := chunk; call_request := request;
                        call_stage := st' |} :: post).
Proof. unfold flight. by rewrite !omap_app. Qed.

Lemma slot_reachable_step W init st st' :
  slot_reachable W init st → slot_step W st st' → slot_reachable W init st'.
Proof. intros H Hstep. eapply rtc_r; eauto. Qed.

Lemma slot_projection_step W init sys a sys' :
  step W sys a sys' → slot_projection W init sys → slot_projection W init sys'.
Proof.
  intros Hstep Hproj.
  block_cases Hstep;
    intros i s Hs; simpl in *.
  - by apply Hproj.
  - apply admission_window_check in Hadm as (s0 & s1 & Hwf & Hs0 & Hcheck & ->).
    simpl in Hs.
    rewrite flight_cons. unfold flight_of. simpl.
    destruct (decide (Z.to_nat (sender_id request) = i)) as [<-|Hne]; simpl.
    + rewrite list_lookup_insert_eq in Hs by by eapply lookup_lt_Some.
      injection Hs as <-. destruct (Hproj _ _ Hs0) as [Hnd Hreach]. simpl in *.
      pose proof (slot_reachable_inv _ _ _ Hreach) as (_ & _ & Hfl & _).
      simpl in Hfl.
      pose proof (window_check_cases _ _ _ _ _ _ Hcheck)
        as [[_ [? ?]]|(_ & Hout & _ & _)]; [done|].
      split.
      * apply NoDup_cons. split; [|done]. intros Hin.
        apply Hout, Hfl. by apply elem_of_list_to_set.
      * eapply slot_reachable_step; [exact Hreach|].
        apply (slot_enter W s0 _ _ _ s1 Proceed Hcheck).
    + rewrite list_lookup_insert_ne in Hs by done. by apply Hproj.
  - destruct (Hproj i s Hs) as [Hnd Hreach]. simpl in *.
    rewrite flight_insert in Hnd, Hreach. unfold flight_of in *. simpl in *.
    destruct (decide (Z.to_nat (sender_id request) = i)) as [<-|Hne]; simpl in *;
      [|done].
    apply NoDup_cons in Hnd as [Hout Hnd]. split; [done|].
    assert (list_to_set (flight (Z.to_nat (sender_id request)) (pre ++ post))
            = ({[packet_seq request]}
               ∪ list_to_set (flight (Z.to_nat (sender_id request)) (pre ++ post)))
              ∖ {[packet_seq request]} :> gset Z) as ->.
    { apply set_eq. intros x. rewrite elem_of_difference, elem_of_union,
        !elem_of_list_to_set, elem_of_singleton.
      split; [|tauto]. intros Hx. split; [by right|]. by intros ->. }
    eapply slot_reachable_step; [exact Hreach|].
    apply slot_fail. set_solver.
  - rewrite <- (flight_restage i pre chunk request Accepted). by apply Hproj.
  - rewrite <- (flight_restage i pre chunk request Dispatched). by apply Hproj.
  - rewrite <- (flight_restage i pre chunk request (Decremented n)). by apply Hproj.
  - rewrite <- (flight_restage i pre chunk request Closing). by apply Hproj.
  - apply success_update_channel in Hupd as (s0 & s1 & Hs0 & Hrec & ->).
    simpl in Hs.
    destruct (decide (Z.to_nat (sender_id request) = i)) as [<-|Hne].
    + rewrite list_lookup_insert_eq in Hs by by eapply lookup_lt_Some.
      injection Hs as <-. destruct (Hproj _ _ Hs0) as [Hnd Hreach]. simpl in *.
      rewrite flight_insert in Hnd, Hreach. unfold flight_of in *. simpl in *.
      rewrite decide_True in Hnd, Hreach by done. simpl in *.
      apply NoDup_cons in Hnd as [Hout Hnd]. split; [done|].
      assert (list_to_set (flight (Z.to_nat (sender_id request)) (pre ++ post))
              = ({[packet_seq request]}
                 ∪ list_to_set (flight (Z.to_nat (sender_id request)) (pre ++ post)))
                ∖ {[packet_seq request]} :> gset Z) as ->.
      { apply set_eq. intros x. rewrite elem_of_difference, elem_of_union,
          !elem_of_list_to_set, elem_of_singleton.
        split; [|tauto]. intros Hx. split; [by right|]. by intros ->. }
      eapply slot_reachable_step; [exact Hreach|].
      eapply slot_success; [set_solver|exact Hrec].
    + rewrite list_lookup_insert_ne in Hs by done.
      destruct (Hproj i s Hs) as [Hnd Hreach]. simpl in *.
      rewrite flight_insert in Hnd, Hreach. unfold flight_of in *. simpl in *.
      rewrite decide_False in Hnd, Hreach by done. done.
Qed.

(** Every sender slot of a channel reached from fresh slots, by whatever
    interleaving, is a state of the slot protocol. *)
Lemma execution_slot_reachable W init ch0 acts sys :
  Forall (λ s, s = new_sender init) (_senders ch0) →
  execution W {| channel := ch0; calls := [] |} acts sys →
  ∀ i s, _senders (channel sys) !! i = Some s →
    ∃ fl, slot_reachable W init {| slot_sender := s; in_flight := fl |}.
Proof.
  intros Hfresh Hexec.
  assert (slot_projection W init sys) as Hproj.
  { remember {| channel := ch0; calls := [] |} as sys0 eqn:Hsys0.
    induction Hexec as [sys|sys acts sys1 a sys2 _ IH Hstep].
    - subst. intros i s Hs. simpl in *. split; [constructor|].
      rewrite (proj1 (Forall_lookup _ _) Hfresh _ _ Hs). apply rtc_refl.
    - eapply slot_projection_step; eauto. }
  intros i s Hs. destruct (Hproj i s Hs) as [_ Hreach]. eauto.
Qed.

(** ** Calls that do not overlap *)

Lemma execution_step_l W sys a sys1 acts sys2 :
  step W sys a sys1 → execution W sys1 acts sys2 →
  execution W sys (a :: acts) sys2.
Proof.
  intros Hstep. induction 1 as [sys1|sys1 acts sys2 b sys3 _ IH Hb].
  - apply (execution_snoc W sys [] sys a sys1); [constructor|done].
  - apply (execution_snoc W sys (a :: acts) sys2 b sys3); auto.
Qed.

(** A call of [add_chunk] that returns is a run of its blocks with no
    other call in between. *)
Lemma add_chunk_execution W fuel ch chunk request ch' r pool :
  add_chunk W fuel ch chunk request = Done (ch', r) →
  ∃ acts,
    execution W {| channel := ch; calls := pool |} acts
      {| channel := ch'; calls := pool |}
    ∧ acts ≫= events_of = trace r
    ∧ closes acts = (if close_channel r then 1 else 0)%nat.
Proof.
  unfold add_chunk.
  destruct (admission W ch request) as [[ch1 verdict]| |] eqn:Hadm; simpl; [|done..].
  destruct verdict as [code|].
  { intros [= <- <-]. exists [ActReply request code]. split; [|done].
    eapply execution_step_l; [|constructor]. by constructor. }
  destruct (scatter_and_dispatch ch1 chunk request) as [[ch2 res]| |] eqn:Hsd;
    simpl; [|done..].
  set (call st := {| call_chunk := chunk; call_request := request;
                     call_stage := st |}).
  assert (step W {| channel := ch; calls := pool |} (ActAccept request)
            {| channel := ch1; calls := call Accepted :: pool |}) as Hs1.
  { by constructor. }
  destruct res as [writes|code].
  2:{ intros [= <- <-]. exists [ActAccept request; ActFail request code].
      split; [|done]. eapply execution_step_l; [exact Hs1|].
      eapply execution_step_l; [|constructor].
      by apply (step_fail W ch1 [] pool chunk request ch2 code). }
  assert (step W {| channel := ch1; calls := call Accepted :: pool |}
            (ActDispatch request writes)
            {| channel := ch2;
               calls := call (if eos request then Dispatched else Settled false)
                          :: pool |}) as Hs2.
  { by apply (step_dispatch W ch1 [] pool chunk request ch2 writes). }
  destruct (eos request) eqn:Heos.
  - unfold _close_sender. simpl.
    set (ch3 := insert_partitions (fetch_sub ch2).1 (partition_ids request)).
    assert (step W {| channel := ch2; calls := call Dispatched :: pool |}
              (ActDecrement request (fetch_sub ch2).2)
              {| channel := (fetch_sub ch2).1;
                 calls := call (Decremented (fetch_sub ch2).2) :: pool |}) as Hs3.
    { apply (step_decrement W ch2 [] pool chunk request). }
    assert (step W {| channel := (fetch_sub ch2).1;
                      calls := call (Decremented (fetch_sub ch2).2) :: pool |}
              (ActRecord request)
              {| channel := ch3;
                 calls := call (if decide ((fetch_sub ch2).2 - 1 = 0) then Closing
                                else Settled false) :: pool |}) as Hs4.
    { apply (step_record W _ [] pool chunk request). }
    simpl in *. destruct (decide (_num_remaining_senders ch2 - 1 = 0)) as [Hz|Hz].
    + destruct (success_update W fuel _ request) as [ch4| |] eqn:Hupd; simpl; [|done..].
      intros [= <- <-]. simpl.
      exists [ActAccept request; ActDispatch request writes;
              ActDecrement request (_num_remaining_senders ch2);
              ActRecord request; ActClose request (close_writers ch3);
              ActReturn request true].
      split; [|split; [simpl; by rewrite app_nil_r|done]].
      eapply execution_step_l; [exact Hs1|].
      eapply execution_step_l; [exact Hs2|].
      eapply execution_step_l; [exact Hs3|].
      eapply execution_step_l; [exact Hs4|].
      eapply execution_step_l; [apply (step_close W ch3 [] pool chunk request)|].
      eapply execution_step_l; [|constructor].
      by apply (step_return W ch3 [] pool chunk request true fuel ch4).
    + destruct (success_update W fuel _ request) as [ch4| |] eqn:Hupd; simpl; [|done..].
      intros [= <- <-]. simpl.
      exists [ActAccept request; ActDispatch request writes;
              ActDecrement request (_num_remaining_senders ch2);
              ActRecord request; ActReturn request false].
      split; [|split; [simpl; by rewrite !app_nil_r|done]].
      eapply execution_step_l; [exact Hs1|].
      eapply execution_step_l; [exact Hs2|].
      eapply execution_step_l; [exact Hs3|].
      eapply execution_step_l; [exact Hs4|].
      eapply execution_step_l; [|constructor].
      by apply (step_return W ch3 [] pool chunk request false fuel ch4).
  - destruct (success_update W fuel _ request) as [ch4| |] eqn:Hupd; simpl; [|done..].
    intros [= <- <-]. simpl.
    exists [ActAccept request; ActDispatch request writes; ActReturn request false].
    split; [|split; [simpl; by rewrite !app_nil_r|done]].
    eapply execution_step_l; [exact Hs1|].
    eapply execution_step_l; [exact Hs2|].
    eapply execution_step_l; [|constructor].
    by apply (step_return W ch2 [] pool chunk request false fuel ch4).
Qed.

(** Building an execution block by block; the actions and the final state
    are compared with the expected ones at the end. *)
Lemma execution_eq W sys acts sys' acts' sys'' :
  execution W sys acts' sys'' → acts' = acts → sys'' = sys' →
  execution W sys acts sys'.
Proof. by intros ? <- <-. Qed.

Lemma one_call_execution :
  execution 40 {| channel := one_tablet_channel; calls := [] |}
    [ActAccept (eos_request 0 0 [10]); ActDispatch (eos_request 0 0 [10]) [];
     ActDecrement (eos_request 0 0 [10]) 1; ActRecord (eos_request 0 0 [10])]
    {| channel := one_tablet_closing;
       calls := [ {| call_chunk := None; call_request := eos_request 0 0 [10];
                     call_stage := Closing |} ] |}.
Proof.
  eapply execution_eq.
  - eapply execution_step_l.
    { eapply (step_accept 40 _ [] None (eos_request 0 0 [10])).
      vm_compute. reflexivity. }
    eapply execution_step_l.
    { eapply (step_dispatch 40 _ [] [] None (eos_request 0 0 [10])).
      vm_compute. reflexivity. }
    eapply execution_step_l.
    { apply (step_decrement 40 _ [] [] None (eos_request 0 0 [10])). }
    eapply execution_step_l.
    { apply (step_record 40 _ [] [] None (eos_request 0 0 [10])). }
    apply execution_nil.
  - vm_compute. reflexivity.
  - vm_compute. reflexivity.
Qed.

(** ** The commits and aborts of an execution *)










(** C3 as the code has it. When the closing call runs the loop over the
    writers, with no other call between its decrement and the recording of
    its partition ids, the counter is at zero or below, and for every
    writer of the channel: one whose replica state is Secondary gets
    neither commit nor abort; any other gets commit if and only if its
    partition id is among those of the eos batches that decremented the
    counter, and abort if and only if it is not. *)
Theorem partition_coverage W ch0 acts sys request evs sys' :
  _partition_ids ch0 = ∅ →
  execution W {| channel := ch0; calls := [] |} acts sys →
  step W sys (ActClose request evs) sys' →
  Forall (λ c, recording c = false) (calls sys) →
  _num_remaining_senders (channel sys) ≤ 0
  ∧ ∀ t w, _delta_writers ch0 !! t = Some w →
      if decide (replica_state w = Secondary)
      then (EvCommit t ∉ evs) ∧ (EvAbort t ∉ evs)
      else (EvCommit t ∈ evs ↔ partition_id w ∈ closed_partitions acts)
           ∧ (EvAbort t ∈ evs ↔ partition_id w ∉ closed_partitions acts).
Proof.
  intros Hempty Hexec Hstep Hnone.
  pose proof (close_inv_execution _ _ _ _ Hexec) as [_ Hcount].
  pose proof (partitions_inv_execution _ _ _ _ Hexec) as Hparts.
  pose proof (writers_execution _ _ _ _ Hexec) as Hwriters.
  unfold partitions_inv in Hparts.
  rewrite (recording_partitions_none _ Hnone), Hempty in Hparts.
  inversion Hstep as [| | | | | |ch pre post chunk req Hsys Hact Hsys'|]; subst.
  simpl in *. split.
  - rewrite closers_insert in Hcount. unfold closer in Hcount. simpl in Hcount.
    case_decide; lia.
  - intros t w Hw. rewrite <- Hwriters in Hw.
    pose proof (close_writers_spec ch t w Hw) as Hspec.
    replace (closed_partitions acts) with (_partition_ids ch) by set_solver.
    exact Hspec.
Qed.

Lemma partition_coverage_witness :
  let r := eos_request 0 0 [10] in
  let acts := [ActAccept r; ActDispatch r []; ActDecrement r 1; ActRecord r] in
  let call st := {| call_chunk := None; call_request := r; call_stage := st |} in
  let sys := {| channel := one_tablet_closing; calls := [call Closing] |} in
  let evs := close_writers one_tablet_closing in
  _num_remaining_senders (channel sys) ≤ 0
  ∧ ∀ t w, _delta_writers one_tablet_channel !! t = Some w →
      if decide (replica_state w = Secondary)
      then (EvCommit t ∉ evs) ∧ (EvAbort t ∉ evs)
      else (EvCommit t ∈ evs ↔ partition_id w ∈ closed_partitions acts)
           ∧ (EvAbort t ∈ evs ↔ partition_id w ∉ closed_partitions acts).
Proof.
  intros r acts call sys evs.
  apply (partition_coverage 40 one_tablet_channel acts sys r evs
           {| channel := one_tablet_closing; calls := [call (Settled true)] |}).
  - reflexivity.
  - exact one_call_execution.
  - apply (step_close 40 one_tablet_closing [] [] None r).
  - repeat constructor.
Defined.

(** C3 as the claim has it fails on a secondary replica: the only sender
    closes with partition 10, the writer of tablet 5 is in partition 10,
    and the closing call issues no commit (and no abort) to it. *)
Lemma secondary_writer_not_committed :
  open secondary_writer (-1) one_tablet_request = Done (Value secondary_channel)
  ∧ ∃ ch' r,
      add_chunk 40 0 secondary_channel None (eos_request 0 0 [10]) = Done (ch', r)
      ∧ close_channel r = true
      ∧ _num_remaining_senders ch' = 0
      ∧ _delta_writers ch' !! 5
        = Some {| partition_id := 10; replica_state := Secondary |}
      ∧ 10 ∈ _partition_ids ch'
      ∧ (EvCommit 5 ∉ trace r)
      ∧ (EvAbort 5 ∉ trace r).
Proof.
  split; [vm_compute; reflexivity|].
  eexists _, _. split; [vm_compute; reflexivity|]. simpl.
  repeat split; try done; set_solver.
Qed.

Example two_sender_channel_opened :
  open primary_writer (-1) two_sender_request = Done (Value two_sender_channel).
Proof. vm_compute. reflexivity. Qed.

(** The decrement and the recording of the partition ids are two blocks:
    sender 0 closes with partition 10 and decrements first, sender 1
    closes with partition 30, finds the counter at 1 and runs the loop
    before sender 0 has recorded partition 10; tablet 5 of partition 10 is
    aborted. *)
Lemma late_recording_aborts_touched_tablet :
  let a := eos_request 0 0 [10] in
  let b := eos_request 1 0 [30] in
  ∃ evs sys,
    execution 40 {| channel := two_sender_channel; calls := [] |}
      [ActAccept a; ActDispatch a []; ActAccept b; ActDispatch b [];
       ActDecrement a 2; ActDecrement b 1; ActRecord b; ActClose b evs] sys
    ∧ EvAbort 5 ∈ evs.
Proof.
  intros a b. eexists _, _. split.
  - eapply execution_eq.
    + eapply execution_step_l.
      { eapply (step_accept 40 _ [] None a). vm_compute. reflexivity. }
      eapply execution_step_l.
      { eapply (step_dispatch 40 _ [] [] None a). vm_compute. reflexivity. }
      eapply execution_step_l.
      { eapply (step_accept 40 _ _ None b). vm_compute. reflexivity. }
      eapply execution_step_l.
      { eapply (step_dispatch 40 _ [] [_] None b). vm_compute. reflexivity. }
      eapply execution_step_l.
      { apply (step_decrement 40 _ [_] [] None a). }
      eapply execution_step_l.
      { apply (step_decrement 40 _ [] [_] None b). }
      eapply execution_step_l.
      { apply (step_record 40 _ [] [_] None b). }
      eapply execution_step_l.
      { apply (step_close 40 _ [] [_] None b). }
      apply execution_nil.
    + vm_compute. reflexivity.
    + reflexivity.
  - set_solver.
Qed.

(** * Further properties *)

(** ** The writes of a batch *)

Lemma with_sorted_indexes_same ch :
  with_sorted_indexes ch (_tablet_id_to_sorted_indexes ch) = ch.
Proof. by destruct ch. Qed.

Lemma wrap64_small z : 0 ≤ z < 2 ^ 64 → wrap64 z = z.
Proof. intros H. unfold wrap64. by apply Z.mod_small. Qed.

Lemma dispatch_spec writers ids idx rows points n i :
  Forall (λ t, is_Some (writers !! t)) ids →
  Z.of_nat (length ids) < 2 ^ 64 →
  length rows = length ids →
  (∀ c, (c ≤ i + n)%nat →
     points !! c = Some (Z.of_nat (below c (ords idx ids)))) →
  (∀ c m j, bucket c (ords idx ids) !! m = Some j →
     rows !! (below c (ords idx ids) + m)%nat = Some (Z.of_nat j)) →
  dispatch n i writers ids rows points
  = Done (omap (write_of ids (ords idx ids)) (seq i n)).
Proof.
  intros Hwriters Hlen Hrows. set (os := ords idx ids).
  assert (length os = length ids) as Hlos by apply length_fmap.
  revert i. induction n as [|n IH]; intros i Hcells Hplaced; [done|].
  cbn [dispatch].
  rewrite (read_Some _ _ _ (Hcells i ltac:(lia))). cbn [mbind run_bind].
  rewrite (read_Some _ _ _ (Hcells (S i) ltac:(lia))). cbn [mbind run_bind].
  rewrite below_S.
  pose proof (below_cnt_le_length i os) as Hfit.
  replace (Z.of_nat (below i os + cnt i os) - Z.of_nat (below i os))
    with (Z.of_nat (cnt i os)) by lia.
  rewrite wrap64_small by lia.
  rewrite IH by (try done; intros; apply Hcells; lia).
  change (seq i (S n)) with (i :: seq (S i) n).
  change (omap (write_of ids os) (i :: seq (S i) n))
    with (match write_of ids os i with
          | Some e => e :: omap (write_of ids os) (seq (S i) n)
          | None => omap (write_of ids os) (seq (S i) n)
          end).
  destruct (bucket i os) as [|j tl] eqn:Hbucket.
  - assert (write_of ids os i = None) as ->
      by (unfold write_of; by rewrite Hbucket).
    assert (cnt i os = 0%nat) as -> by (by rewrite <- length_bucket, Hbucket).
    by rewrite decide_True.
  - assert (cnt i os = S (length tl)) as Hcnt
      by (by rewrite <- length_bucket, Hbucket).
    rewrite decide_False by lia.
    assert (bucket i os !! 0%nat = Some j) as Hj by (by rewrite Hbucket).
    pose proof (Hplaced _ _ _ Hj) as Hrow. rewrite Nat.add_0_r in Hrow.
    rewrite !Nat2Z.id, (read_Some _ _ _ Hrow). cbn [mbind run_bind].
    apply bucket_lookup in Hj as [Hj _].
    destruct (lookup_lt_is_Some_2 ids j) as [t Ht].
    { apply lookup_lt_Some in Hj. lia. }
    assert (write_of ids os i = Some (EvWrite t (Z.of_nat <$> bucket i os)))
      as -> by (unfold write_of; by rewrite Hbucket, Ht).
    rewrite !Nat2Z.id, (read_Some _ _ _ Ht). cbn [mbind run_bind].
    destruct (proj1 (Forall_lookup _ _) Hwriters _ _ Ht) as [w ->].
    unfold slice. rewrite decide_True by lia. cbn [mbind run_bind].
    rewrite sub_range_bucket; [done|lia|apply Hplaced].
Qed.

Lemma NoDup_omap_inj {A B} (f : A → option B) l :
  NoDup l →
  (∀ x y b, f x = Some b → f y = Some b → x = y) →
  NoDup (omap f l).
Proof.
  intros Hnd Hinj. induction Hnd as [|x l Hx Hnd IH]; simpl; [constructor|].
  destruct (f x) as [b|] eqn:Hb; [|done]. constructor; [|done].
  intros (y & Hy & Hfy)%list_elem_of_omap.
  by rewrite (Hinj _ _ _ Hb Hfy) in Hx.
Qed.

(** The rows with an ordinal are the rows of the tablet that has it. *)
Lemma bucket_rows_of idx ids t c :
  distinct_ordinals idx →
  Forall (λ t, ∃ o, idx !! t = Some o ∧ 0 ≤ o) ids →
  idx !! t = Some (Z.of_nat c) →
  Z.of_nat <$> bucket c (ords idx ids) = rows_of ids t.
Proof.
  intros Hinj Hpos Ht. unfold rows_of, bucket, ords.
  rewrite length_fmap. f_equal. apply list_filter_iff. intros j.
  fold (ords idx ids). rewrite (ords_lookup _ _ _ _ Hpos). split.
  - intros (t' & Hj & Ht'). by rewrite (Hinj _ _ _ Ht Ht').
  - intros Hj. eauto.
Qed.

Lemma write_of_Some idx ids c e :
  distinct_ordinals idx →
  Forall (λ t, ∃ o, idx !! t = Some o ∧ 0 ≤ o) ids →
  write_of ids (ords idx ids) c = Some e ↔
  ∃ t, t ∈ ids ∧ idx !! t = Some (Z.of_nat c) ∧ e = EvWrite t (rows_of ids t).
Proof.
  intros Hinj Hpos. unfold write_of. split.
  - destruct (bucket c (ords idx ids)) as [|j tl] eqn:Hbucket; [done|].
    assert (bucket c (ords idx ids) !! 0%nat = Some j) as Hj
      by (by rewrite Hbucket).
    apply bucket_lookup in Hj as [Hj _].
    apply (ords_lookup _ _ _ _ Hpos) in Hj as (t & Hj & Ht).
    rewrite Hj. cbn [mbind option_bind]. intros [= <-]. exists t.
    split; [by eapply list_elem_of_lookup_2|]. split; [done|].
    by rewrite <- (bucket_rows_of idx ids t c), Hbucket.
  - intros (t & [j0 Hj0]%list_elem_of_lookup_1 & Ht & ->).
    assert (ords idx ids !! j0 = Some c) as Hos
      by (apply (ords_lookup _ _ _ _ Hpos); eauto).
    pose proof (bucket_lookup_rank _ _ _ Hos) as Hrank.
    destruct (bucket c (ords idx ids)) as [|j tl] eqn:Hbucket; [done|].
    assert (bucket c (ords idx ids) !! 0%nat = Some j) as Hj
      by (by rewrite Hbucket).
    apply bucket_lookup in Hj as [Hj _].
    apply (ords_lookup _ _ _ _ Hpos) in Hj as (t' & Hj & Ht').
    rewrite Hj, (Hinj _ _ _ Ht' Ht). cbn [mbind option_bind].
    by rewrite <- (bucket_rows_of idx ids t c), Hbucket.
Qed.

(** The writes of a batch, ordinal by ordinal. *)
Lemma scatter_and_dispatch_writes ch chunk request :
  dense (_tablet_id_to_sorted_indexes ch) →
  Forall (λ t, is_Some (_tablet_id_to_sorted_indexes ch !! t)
               ∧ is_Some (_delta_writers ch !! t)) (tablet_ids request) →
  tablet_ids_size request = num_rows chunk →
  Z.of_nat (tablet_ids_size request) < 2 ^ 31 →
  scatter_and_dispatch ch (Some chunk) request
  = Done (ch, Value (omap (write_of (tablet_ids request)
                             (ords (_tablet_id_to_sorted_indexes ch)
                                (tablet_ids request)))
                       (seq 0 (size (_tablet_id_to_sorted_indexes ch))))).
Proof.
  intros Hdense Hknown Hsize Hint.
  set (idx := _tablet_id_to_sorted_indexes ch) in *.
  set (ids := tablet_ids request) in *.
  assert (Forall (λ t, is_Some (idx !! t)) ids) as Hpresent.
  { eapply Forall_impl; [exact Hknown|]. by intros t [? _]. }
  assert (Forall (λ t, is_Some (_delta_writers ch !! t)) ids) as Hwriters.
  { eapply Forall_impl; [exact Hknown|]. by intros t [_ ?]. }
  destruct (scatter_spec idx chunk request Hdense Hpresent Hsize Hint)
    as (rows & points & Hrun & Hlen & Hlenp & Hcells & Hplaced).
  unfold scatter_and_dispatch. fold idx. rewrite Hrun.
  cbn [mbind run_bind].
  replace (with_sorted_indexes ch idx) with ch
    by (symmetry; apply with_sorted_indexes_same).
  unfold dispatch_writes. fold idx.
  cbn [_row_indexes _channel_row_idx_start_points].
  destruct (size idx) as [|n] eqn:Hn; [done|].
  rewrite (dispatch_spec _ ids idx); [done|done|..].
  - unfold tablet_ids_size in Hint. fold ids in Hint. lia.
  - unfold tablet_ids_size in Hsize. fold ids in Hsize. lia.
  - intros c Hc. apply Hcells. lia.
  - exact Hplaced.
Qed.

(** One write for each tablet of the batch, with the rows of the tablet. *)
Lemma writes_of_batch idx ids :
  dense idx → distinct_ordinals idx →
  Forall (λ t, is_Some (idx !! t)) ids →
  NoDup (omap (write_of ids (ords idx ids)) (seq 0 (size idx)))
  ∧ ∀ e, e ∈ omap (write_of ids (ords idx ids)) (seq 0 (size idx)) ↔
      ∃ t, t ∈ ids ∧ e = EvWrite t (rows_of ids t).
Proof.
  intros Hdense Hinj Hpresent.
  assert (Forall (λ t, ∃ o, idx !! t = Some o ∧ 0 ≤ o) ids) as Hpos.
  { eapply Forall_impl; [exact Hpresent|]. intros t [o Ho]. exists o.
    split; [done|]. apply (Hdense _ _ Ho). }
  split.
  - apply NoDup_omap_inj; [apply NoDup_seq|].
    intros c c' e (t & _ & Ht & ->)%(write_of_Some idx ids c _ Hinj Hpos)
      (t' & _ & Ht' & [= <- _])%(write_of_Some idx ids c' _ Hinj Hpos).
    rewrite Ht in Ht'. injection Ht' as Heq. lia.
  - intros e. rewrite list_elem_of_omap. split.
    + intros (c & _ & (t & Hin & _ & ->)%(write_of_Some idx ids c e Hinj Hpos)).
      eauto.
    + intros (t & Hin & ->).
      destruct (proj1 (Forall_forall _ _) Hpresent _ Hin) as [o Ho].
      pose proof (Hdense _ _ Ho) as Hrange.
      exists (Z.to_nat o). split; [apply elem_of_seq; lia|].
      apply (write_of_Some idx ids _ _ Hinj Hpos). exists t.
      split; [done|]. split; [|done]. rewrite Ho. f_equal. lia.
Qed.

(** X1. A batch with a chunk whose tablet ids all have a writer and an
    ordinal, on a channel whose index is dense and gives no two tablets
    the same ordinal: the dispatch loop submits one write for each tablet
    that has rows in the batch and none for the others, and the write of a
    tablet carries exactly the rows addressed to it, in batch order. The
    channel is left as it was. *)
Theorem dispatch_routes_rows ch chunk request :
  dense (_tablet_id_to_sorted_indexes ch) →
  distinct_ordinals (_tablet_id_to_sorted_indexes ch) →
  Forall (λ t, is_Some (_tablet_id_to_sorted_indexes ch !! t)
               ∧ is_Some (_delta_writers ch !! t)) (tablet_ids request) →
  tablet_ids_size request = num_rows chunk →
  Z.of_nat (tablet_ids_size request) < 2 ^ 31 →
  ∃ writes,
    scatter_and_dispatch ch (Some chunk) request = Done (ch, Value writes)
    ∧ NoDup writes
    ∧ ∀ e, e ∈ writes ↔
        ∃ t, t ∈ tablet_ids request
             ∧ e = EvWrite t (rows_of (tablet_ids request) t).
Proof.
  intros Hdense Hinj Hknown Hsize Hint.
  eexists. split.
  - by apply scatter_and_dispatch_writes.
  - apply writes_of_batch; [done..|].
    eapply Forall_impl; [exact Hknown|]. by intros t [? _].
Qed.

Lemma dispatch_routes_rows_witness :
  ∃ writes,
    scatter_and_dispatch two_sender_channel (Some {| num_rows := 3 |})
      {| opt_sender_id := Some 0; opt_packet_seq := Some 0; opt_eos := None;
         tablet_ids := [8; 5; 8]; partition_ids := [] |}
    = Done (two_sender_channel, Value writes)
    ∧ NoDup writes
    ∧ ∀ e, e ∈ writes ↔
        ∃ t, t ∈ [8; 5; 8] ∧ e = EvWrite t (rows_of [8; 5; 8] t).
Proof.
  apply (dispatch_routes_rows two_sender_channel {| num_rows := 3 |}
           {| opt_sender_id := Some 0; opt_packet_seq := Some 0;
              opt_eos := None; tablet_ids := [8; 5; 8];
              partition_ids := [] |}).
  - intros t o. simpl. rewrite lookup_insert_Some, lookup_singleton_Some.
    change (size _) with 2%nat. lia.
  - intros t t' o. simpl.
    rewrite !lookup_insert_Some, !lookup_singleton_Some. lia.
  - simpl. repeat (constructor; [split; eexists; vm_compute; reflexivity|]).
    constructor.
  - reflexivity.
  - vm_compute. reflexivity.
Defined.

(** ** Tablet ids the index does not know *)

Lemma read_cases {A} (l : list A) i :
  (∃ a, l !! i = Some a ∧ read l i = Done a)
  ∨ ((length l ≤ i)%nat ∧ read l i = Undefined).
Proof.
  unfold read. destruct (l !! i) as [a|] eqn:H; [left; eauto|].
  right. split; [by apply lookup_ge_None|done].
Qed.

Lemma write_cases {A} (l : list A) i a :
  ((i < length l)%nat ∧ write l i a = Done (<[i:=a]> l))
  ∨ write l i a = Undefined.
Proof. unfold write. case_decide; [left|right]; done. Qed.

Lemma count_rows_cases ids idx points :
  count_rows ids idx points = Undefined
  ∨ ∃ idx1 points1, count_rows ids idx points = Done (idx1, points1)
      ∧ idx ⊆ idx1
      ∧ Forall (λ t, is_Some (idx1 !! t)) ids
      ∧ length points1 = length points.
Proof.
  revert idx points. induction ids as [|t ids IH]; intros idx points; simpl.
  { right. exists idx, points. repeat split; auto. }
  destruct (subscript idx t) as [idx' o] eqn:Hsub.
  assert (idx ⊆ idx' ∧ is_Some (idx' !! t)) as [Hsubset Ht].
  { unfold subscript in Hsub. destruct (idx !! t) as [v|] eqn:Hv.
    - injection Hsub as <- <-. split; [done|eauto].
    - injection Hsub as <- <-. split; [by apply insert_subseteq|].
      rewrite lookup_insert_eq. eauto. }
  destruct (read_cases points (Z.to_nat o)) as [(c & _ & ->)|[_ ->]];
    [|by left]. simpl.
  destruct (write_cases points (Z.to_nat o) (wrap32 (c + 1))) as [[_ ->]| ->];
    [|by left]. simpl.
  destruct (IH idx' (<[Z.to_nat o:=wrap32 (c + 1)]> points))
    as [->|(idx1 & points1 & -> & Hsub1 & Hall & Hlen)]; [by left|].
  right. exists idx1, points1. split; [done|]. split; [by etrans|].
  split; [|by rewrite Hlen, length_insert].
  constructor; [|done]. destruct Ht as [v Hv]. exists v.
  by eapply lookup_weaken.
Qed.

Lemma accumulate_cases n i points :
  accumulate n i points = Undefined
  ∨ ∃ points', accumulate n i points = Done points'
      ∧ length points' = length points.
Proof.
  revert i points. induction n as [|n IH]; intros i points; simpl.
  { right. eauto. }
  destruct (read_cases points i) as [(a & _ & ->)|[_ ->]]; [|by left]. simpl.
  destruct (read_cases points (i - 1)) as [(b & _ & ->)|[_ ->]]; [|by left].
  simpl.
  destruct (write_cases points i (wrap32 (a + b))) as [[_ ->]| ->];
    [|by left]. simpl.
  destruct (IH (S i) (<[i:=wrap32 (a + b)]> points))
    as [->|(points' & -> & Hlen)]; [by left|].
  right. exists points'. split; [done|]. by rewrite Hlen, length_insert.
Qed.

Lemma scatter_rows_cases k ids idx rows points :
  Forall (λ t, is_Some (idx !! t)) ids →
  scatter_rows k ids idx rows points = Undefined
  ∨ ∃ rows' points', scatter_rows k ids idx rows points
                     = Done (Value (rows', points'))
      ∧ length points' = length points.
Proof.
  intros Hall. revert rows points.
  induction k as [|k IH]; intros rows points; simpl.
  { right. eauto. }
  destruct (read_cases ids k) as [(t & Ht & ->)|[_ ->]]; [|by left]. simpl.
  destruct (proj1 (Forall_lookup _ _) Hall _ _ Ht) as [o ->].
  destruct (read_cases points (Z.to_nat o)) as [(c & _ & ->)|[_ ->]];
    [|by left]. simpl.
  destruct (write_cases rows (Z.to_nat (wrap32 (c - 1))) (wrap32 (Z.of_nat k)))
    as [[_ ->]| ->]; [|by left]. simpl.
  destruct (write_cases points (Z.to_nat o) (wrap32 (c - 1))) as [[_ ->]| ->];
    [|by left]. simpl.
  destruct (IH (<[Z.to_nat (wrap32 (c - 1)):=wrap32 (Z.of_nat k)]> rows)
              (<[Z.to_nat o:=wrap32 (c - 1)]> points))
    as [->|(rows' & points' & -> & Hlen)]; [by left|].
  right. exists rows', points'. split; [done|].
  by rewrite Hlen, length_insert.
Qed.

(** What [_create_write_context] does with a chunk that has one tablet id
    per row: it steps out of a buffer, or it returns a context whose start
    points are as many as the index had entries on entry, plus one, and an
    index that holds every tablet id of the batch. *)
Lemma create_write_context_cases idx chunk request :
  tablet_ids_size request = num_rows chunk →
  _create_write_context idx (Some chunk) request = Undefined
  ∨ ∃ idx1 rows points,
      _create_write_context idx (Some chunk) request
      = Done (idx1, Value {| _row_indexes := Some rows;
                             _channel_row_idx_start_points := Some points |})
      ∧ idx ⊆ idx1
      ∧ Forall (λ t, is_Some (idx1 !! t)) (tablet_ids request)
      ∧ length points = S (size idx).
Proof.
  intros Hsize. unfold _create_write_context.
  rewrite decide_False by (intros H; by apply H).
  destruct (count_rows_cases (tablet_ids request) idx
              (replicate (size idx + 1) 0))
    as [->|(idx1 & points1 & -> & Hsub & Hall & Hlen1)]; [by left|]. simpl.
  destruct (accumulate_cases (size idx) 1 points1)
    as [->|(points2 & -> & Hlen2)]; [by left|]. simpl.
  destruct (scatter_rows_cases (tablet_ids_size request) (tablet_ids request)
              idx1 (replicate (num_rows chunk) 0) points2 Hall)
    as [->|(rows3 & points3 & -> & Hlen3)]; [by left|]. simpl.
  right. exists idx1, rows3, points3. split; [done|]. split; [done|].
  split; [done|]. rewrite Hlen3, Hlen2, Hlen1, length_replicate. lia.
Qed.

Lemma dispatch_out_of_bounds n i writers ids rows points :
  (0 < n)%nat → (length points ≤ i + n)%nat →
  dispatch n i writers ids rows points = Undefined.
Proof.
  revert i. induction n as [|n IH]; intros i Hn Hlen; [lia|]. simpl.
  destruct (read_cases points i) as [(from & _ & ->)|[_ ->]]; [|done]. simpl.
  destruct (read_cases points (S i)) as [(upto & Hupto & ->)|[_ ->]]; [|done].
  simpl. apply lookup_lt_Some in Hupto.
  assert (dispatch n (S i) writers ids rows points = Undefined) as Hrest
    by (apply IH; lia).
  case_decide; [done|].
  destruct (read_cases rows (Z.to_nat from)) as [(row & _ & ->)|[_ ->]];
    [|done]. simpl.
  destruct (read_cases ids (Z.to_nat row)) as [(t & _ & ->)|[_ ->]];
    [|done]. simpl.
  destruct (writers !! t); [|done].
  unfold slice. case_decide; [|done]. simpl. by rewrite Hrest.
Qed.

Lemma scatter_and_dispatch_unknown ch chunk request t :
  tablet_ids_size request = num_rows chunk →
  t ∈ tablet_ids request →
  _tablet_id_to_sorted_indexes ch !! t = None →
  scatter_and_dispatch ch (Some chunk) request = Undefined.
Proof.
  intros Hsize Hin Hnone. unfold scatter_and_dispatch.
  destruct (create_write_context_cases (_tablet_id_to_sorted_indexes ch)
              chunk request Hsize)
    as [->|(idx1 & rows & points & -> & Hsub & Hall & Hlen)]; [done|].
  simpl.
  assert (size (_tablet_id_to_sorted_indexes ch) < size idx1)%nat as Hgrow.
  { apply map_subset_size. split; [done|]. intros Hback.
    destruct (proj1 (Forall_forall _ _) Hall _ Hin) as [o Ho].
    pose proof (lookup_weaken _ _ _ _ Ho Hback). congruence. }
  destruct (size idx1) as [|n] eqn:Hn; [lia|].
  rewrite dispatch_out_of_bounds; [done|lia|lia].
Qed.

(** X2. A batch that passes the admission check with a chunk, one tablet
    id per row, and among them a tablet id the sorted index does not hold:
    the call does not reject it, and does not return. The counting loop
    enters the tablet id into the index with ordinal 0, and the call steps
    out of its buffers, at the latest when the dispatch loop, which runs up
    to the size the index has by then, reads the start points past their
    end. *)
Theorem unknown_tablet_id_out_of_bounds W fuel ch chunk request ch1 t :
  admission W ch request = Done (ch1, Proceed) →
  tablet_ids_size request = num_rows chunk →
  t ∈ tablet_ids request →
  _tablet_id_to_sorted_indexes ch !! t = None →
  add_chunk W fuel ch (Some chunk) request = Undefined.
Proof.
  intros Hadm Hsize Hin Hnone. unfold add_chunk. rewrite Hadm. simpl.
  rewrite (scatter_and_dispatch_unknown ch1 chunk request t); [done..|].
  apply admission_Proceed in Hadm as (s & _ & _ & _ & _ & ->). done.
Qed.

Lemma unknown_tablet_id_out_of_bounds_witness :
  add_chunk 40 0 one_tablet_channel (Some {| num_rows := 2 |})
    {| opt_sender_id := Some 0; opt_packet_seq := Some 0; opt_eos := None;
       tablet_ids := [5; 7]; partition_ids := [] |}
  = Undefined.
Proof.
  eapply (unknown_tablet_id_out_of_bounds 40 0 one_tablet_channel
            {| num_rows := 2 |} _ _ 7).
  - vm_compute. reflexivity.
  - reflexivity.
  - set_solver.
  - reflexivity.
Defined.

(** ** The ways a write context is not built *)

Lemma create_write_context_Failure idx chunk request idx' code :
  _create_write_context idx chunk request = Done (idx', Failure code) →
  code = INVALID_ARGUMENT ∧ idx' = idx ∧ context_fails chunk request.
Proof.
  destruct chunk as [chunk|].
  - destruct (decide (tablet_ids_size request = num_rows chunk)) as [Hsize|Hne].
    + destruct (create_write_context_cases idx chunk request Hsize)
        as [->|(idx1 & rows & points & -> & _)]; [done|]. intros [=].
    + unfold _create_write_context. rewrite decide_True by done.
      by intros [= <- <-].
  - simpl. destruct (eos request) eqn:Heos; [intros [=]|]. by intros [= <- <-].
Qed.

Lemma scatter_and_dispatch_Failure ch chunk request ch' code :
  scatter_and_dispatch ch chunk request = Done (ch', Failure code) →
  code = INVALID_ARGUMENT ∧ ch' = ch ∧ context_fails chunk request.
Proof.
  unfold scatter_and_dispatch.
  destruct (_create_write_context _ _ _) as [[idx res]| |] eqn:Hctx;
    simpl; [|done..].
  destruct res as [context|code'].
  - destruct (dispatch_writes _ _ _ _); simpl; done.
  - intros [= <- <-].
    apply create_write_context_Failure in Hctx as (-> & -> & Hfails).
    by rewrite with_sorted_indexes_same.
Qed.

(** X3. A call that has passed the admission check fails in two cases,
    and in no other: no chunk and no eos, or a number of tablet ids that is
    not the number of rows. Both give INVALID_ARGUMENT and leave the sorted
    index and the rest of the channel as they were. The return of
    [InternalError("invalid tablet id")] is never taken: the counting loop
    has entered every tablet id of the batch into the index by the time the
    scatter loop looks it up. *)
Theorem context_failure_is_invalid_argument ch chunk request ch' code :
  scatter_and_dispatch ch chunk request = Done (ch', Failure code) ↔
  code = INVALID_ARGUMENT ∧ ch' = ch ∧ context_fails chunk request.
Proof.
  split; [apply scatter_and_dispatch_Failure|].
  intros (-> & -> & Hfails). unfold scatter_and_dispatch.
  rewrite (create_write_context_fails _ _ _ Hfails). simpl.
  by rewrite with_sorted_indexes_same.
Qed.

(** ** What [open] leaves in the channel *)

Lemma emplace_lookup {V} k (v : V) m t :
  emplace k v m !! t
  = match m !! t with
    | Some w => Some w
    | None => if decide (k = t) then Some v else None
    end.
Proof.
  unfold emplace. destruct (m !! k) as [w|] eqn:Hk.
  - destruct (m !! t) eqn:Ht; [done|]. case_decide; [congruence|done].
  - destruct (decide (k = t)) as [->|Hne].
    + by rewrite lookup_insert_eq, Hk.
    + rewrite lookup_insert_ne by done. by destruct (m !! t).
Qed.

Lemma open_writers_lookup open_writer ts writers ids writers' ids' t :
  open_writers open_writer ts writers ids = Value (writers', ids') →
  writers' !! t
  = match writers !! t with
    | Some w => Some w
    | None =>
        p ← list_find (λ p, tablet_id p = t) ts;
        match open_writer p.2 with
        | Value w => Some w
        | Failure _ => None
        end
    end.
Proof.
  revert writers ids. induction ts as [|q ts IH]; intros writers ids; simpl.
  - intros [= <- _]. by destruct (writers !! t).
  - destruct (open_writer q) as [w|code] eqn:Hq; [|done].
    intros ->%IH. rewrite emplace_lookup.
    destruct (writers !! t) as [w0|]; [done|].
    destruct (decide (tablet_id q = t)) as [Heq|Hne]; simpl.
    + by rewrite Hq.
    + destruct (list_find _ ts) as [[k p]|]; done.
Qed.

Lemma emplace_from_keep i l (m : gmap Z Z) t v :
  m !! t = Some v → emplace_from i l m !! t = Some v.
Proof.
  revert i m. induction l as [|t' l IH]; intros i m Ht; simpl; [done|].
  apply IH. by rewrite emplace_lookup, Ht.
Qed.

Lemma emplace_from_first i l (m : gmap Z Z) t k :
  m !! t = None → l !! k = Some t →
  (∀ k', (k' < k)%nat → l !! k' ≠ Some t) →
  emplace_from i l m !! t = Some (wrap32 (Z.of_nat (i + k))).
Proof.
  revert i m k. induction l as [|t' l IH]; intros i m k Hm Hk Hfirst;
    [done|]. simpl. destruct k as [|k]; simpl in Hk.
  - injection Hk as ->. apply emplace_from_keep.
    rewrite emplace_lookup, Hm, decide_True by done.
    by rewrite Nat.add_0_r.
  - assert (t' ≠ t) as Hne.
    { intros ->. by apply (Hfirst 0%nat ltac:(lia)). }
    rewrite (IH (S i) _ k); [f_equal; f_equal; lia| |done|].
    + by rewrite emplace_lookup, Hm, decide_False.
    + intros k' Hk'. apply (Hfirst (S k')). lia.
Qed.

Lemma emplace_from_absent i l (m : gmap Z Z) t :
  m !! t = None → t ∉ l → emplace_from i l m !! t = None.
Proof.
  revert i m. induction l as [|t' l IH]; intros i m Hm Hl; simpl; [done|].
  apply not_elem_of_cons in Hl as [Hne Hl]. apply IH; [|done].
  by rewrite emplace_lookup, Hm, decide_False.
Qed.

Lemma first_occurrence (l : list Z) t :
  t ∈ l → ∃ k, l !! k = Some t ∧ ∀ k', (k' < k)%nat → l !! k' ≠ Some t.
Proof.
  induction l as [|a l IH]; [by intros ?%elem_of_nil|].
  destruct (decide (a = t)) as [->|Hne].
  - intros _. exists 0%nat. split; [done|]. intros; lia.
  - intros [?|Hin]%elem_of_cons; [congruence|].
    destruct (IH Hin) as (k & Hk & Hfirst). exists (S k). split; [done|].
    intros [|k'] Hk'; simpl; [congruence|]. apply Hfirst. lia.
Qed.

Lemma filter_none {A} (P : A → Prop) `{!∀ x, Decision (P x)} l :
  Forall (λ x, ¬ P x) l → filter P l = [].
Proof.
  induction 1 as [|x l Hx _ IH]; [done|]. by rewrite filter_cons_False.
Qed.

(** In a sorted list the first place of an entry is the number of
    entries below it. *)
Lemma sorted_first_rank l t k :
  StronglySorted Z.le l → l !! k = Some t →
  (∀ k', (k' < k)%nat → l !! k' ≠ Some t) →
  rank l t = k.
Proof.
  unfold rank. intros Hsorted. revert k.
  induction Hsorted as [|a l Hsorted IH Hle]; intros k Hk Hfirst; [done|].
  rewrite filter_cons. destruct k as [|k]; simpl in Hk.
  - injection Hk as ->. rewrite decide_False by lia.
    rewrite filter_none; [done|].
    eapply Forall_impl; [exact Hle|]. simpl. lia.
  - assert (a ≠ t) as Hne.
    { intros ->. by apply (Hfirst 0%nat ltac:(lia)). }
    pose proof (proj1 (Forall_lookup _ _) Hle _ _ Hk).
    rewrite decide_True by lia. simpl. f_equal. apply IH; [done|].
    intros k' Hk'. apply (Hfirst (S k')). lia.
Qed.

Lemma rank_le_length ids t : (rank ids t ≤ length ids)%nat.
Proof. apply length_filter. Qed.

Lemma rank_lt_length ids t : t ∈ ids → (rank ids t < length ids)%nat.
Proof. intros Hin. apply (length_filter_lt _ _ t); [done|lia]. Qed.

Lemma rank_mono ids t t' : t ≤ t' → (rank ids t ≤ rank ids t')%nat.
Proof.
  intros Hle. unfold rank. induction ids as [|a ids IH]; [done|].
  rewrite !filter_cons. repeat case_decide; simpl; lia.
Qed.

(** The ordinals grow with the tablet ids. *)
Lemma rank_lt ids t t' : t ∈ ids → t < t' → (rank ids t < rank ids t')%nat.
Proof.
  intros Hin Hlt. unfold rank.
  induction ids as [|a ids IH]; [by apply elem_of_nil in Hin|].
  pose proof (rank_mono ids t t' ltac:(lia)) as Hmono. unfold rank in Hmono.
  rewrite !filter_cons. apply elem_of_cons in Hin as [<-|Hin].
  - repeat case_decide; simpl; lia.
  - specialize (IH Hin). repeat case_decide; simpl; lia.
Qed.

Lemma sorted_indexes_lookup ids t :
  sorted_indexes ids !! t
  = if decide (t ∈ ids) then Some (wrap32 (Z.of_nat (rank ids t))) else None.
Proof.
  unfold sorted_indexes.
  pose proof (merge_sort_Permutation Z.le ids) as Hperm.
  case_decide as Hin.
  - destruct (first_occurrence (merge_sort Z.le ids) t) as (k & Hk & Hfirst).
    { by rewrite Hperm. }
    rewrite (emplace_from_first 0 _ _ t k); [|done..].
    rewrite <- (sorted_first_rank (merge_sort Z.le ids) t k); [|
      apply (StronglySorted_merge_sort _)|done..].
    unfold rank. by rewrite Hperm.
  - apply emplace_from_absent; [done|]. by rewrite Hperm.
Qed.

(** X4. After [open] has succeeded, a tablet has a writer exactly when
    the request lists it, and exactly then it has an ordinal in the sorted
    index. The writer of a tablet is the one opened for the first entry of
    the request with its id: [emplace] drops the writers opened for later
    entries with the same id. *)
Theorem open_covers_request open_writer init params ch :
  open open_writer init params = Done (Value ch) →
  (∀ t, is_Some (_delta_writers ch !! t) ↔ t ∈ tablet_id <$> tablets params)
  ∧ (∀ t, is_Some (_tablet_id_to_sorted_indexes ch !! t)
          ↔ t ∈ tablet_id <$> tablets params)
  ∧ ∀ t w, _delta_writers ch !! t = Some w →
      ∃ pre p post, tablets params = pre ++ p :: post ∧ tablet_id p = t
                    ∧ (t ∉ tablet_id <$> pre) ∧ open_writer p = Value w.
Proof.
  intros Hopen. pose proof (open_sorted_indexes _ _ _ _ Hopen) as Hidx.
  unfold open, _open_all_writers in Hopen. case_decide; [done|].
  destruct (index_in_schema params); simpl in Hopen; [|done].
  destruct (open_writers _ _ _ _) as [[writers ids]|code] eqn:Hws; [|done].
  injection Hopen as <-. simpl in *.
  assert (∀ p, p ∈ tablets params → ∃ w, open_writer p = Value w) as Hall.
  { clear Hidx. revert Hws. generalize (∅ : gmap Z AsyncDeltaWriter), ([] : list Z).
    induction (tablets params) as [|q ts IH]; intros m l Hws p;
      [by intros ?%elem_of_nil|]. simpl in Hws.
    destruct (open_writer q) as [w|] eqn:Hq; [|done].
    intros [->|Hin]%elem_of_cons; eauto. }
  assert (∀ t, writers !! t
               = p ← list_find (λ p, tablet_id p = t) (tablets params);
                 match open_writer p.2 with
                 | Value w => Some w
                 | Failure _ => None
                 end) as Hlookup.
  { intros t. by rewrite (open_writers_lookup _ _ _ _ _ _ t Hws), lookup_empty. }
  split; [|split].
  - intros t. rewrite Hlookup. split.
    + destruct (list_find _ _) as [[k p]|] eqn:Hfind; simpl; [|by intros []].
      intros _. apply list_find_Some in Hfind as (Hk & Hp & _).
      apply list_elem_of_fmap. exists p. split; [done|].
      by eapply list_elem_of_lookup_2.
    + intros (p & -> & Hin)%list_elem_of_fmap.
      destruct (list_find (λ q, tablet_id q = tablet_id p) (tablets params))
        as [[k q]|] eqn:Hfind; simpl.
      * apply list_find_Some in Hfind as (Hk & _ & _).
        destruct (Hall q) as [w ->]; [by eapply list_elem_of_lookup_2|]. eauto.
      * apply list_find_None in Hfind.
        by apply (proj1 (Forall_forall _ _) Hfind) in Hin.
  - intros t. rewrite Hidx, sorted_indexes_lookup. case_decide; [|split].
    + split; [done|eauto].
    + by intros [].
    + done.
  - intros t w. rewrite Hlookup.
    destruct (list_find _ _) as [[k p]|] eqn:Hfind; simpl; [|done].
    apply list_find_Some in Hfind as (Hk & Hp & Hfirst).
    destruct (open_writer p) as [w'|] eqn:Hw; [|done]. intros [= ->].
    exists (take k (tablets params)), p, (drop (S k) (tablets params)).
    split; [by rewrite take_drop_middle|]. split; [done|]. split; [|done].
    intros (q & Hq & Hin)%list_elem_of_fmap.
    apply list_elem_of_lookup_1 in Hin as [j Hj].
    pose proof (lookup_lt_Some _ _ _ Hj) as Hlt. rewrite length_take in Hlt.
    rewrite lookup_take_lt in Hj by lia.
    by apply (Hfirst j q Hj ltac:(lia)).
Qed.

Lemma open_covers_request_witness :
  (∀ t, is_Some (_delta_writers two_sender_channel !! t)
        ↔ t ∈ tablet_id <$> tablets two_sender_request)
  ∧ (∀ t, is_Some (_tablet_id_to_sorted_indexes two_sender_channel !! t)
          ↔ t ∈ tablet_id <$> tablets two_sender_request)
  ∧ ∀ t w, _delta_writers two_sender_channel !! t = Some w →
      ∃ pre p post, tablets two_sender_request = pre ++ p :: post
                    ∧ tablet_id p = t
                    ∧ (t ∉ tablet_id <$> pre) ∧ primary_writer p = Value w.
Proof.
  apply (open_covers_request primary_writer (-1) two_sender_request).
  vm_compute. reflexivity.
Defined.

(** X5. The ordinal the sorted index gives a tablet of the request is
    the number of entries of the request with a smaller tablet id: the
    ordinals follow the order of the tablet ids. An id listed twice counts
    twice for the tablets above it and leaves an ordinal unused. *)
Theorem sorted_index_is_rank open_writer init params ch t :
  open open_writer init params = Done (Value ch) →
  Z.of_nat (length (tablets params)) < 2 ^ 32 →
  t ∈ tablet_id <$> tablets params →
  _tablet_id_to_sorted_indexes ch !! t
  = Some (Z.of_nat (rank (tablet_id <$> tablets params) t)).
Proof.
  intros Hopen Hlen Hin. rewrite (open_sorted_indexes _ _ _ _ Hopen).
  rewrite sorted_indexes_lookup, decide_True by done. f_equal.
  pose proof (rank_le_length (tablet_id <$> tablets params) t) as Hle.
  rewrite length_fmap in Hle. apply wrap32_small. lia.
Qed.

Lemma sorted_index_is_rank_witness :
  _tablet_id_to_sorted_indexes two_sender_channel !! 8
  = Some (Z.of_nat (rank (tablet_id <$> tablets two_sender_request) 8)).
Proof.
  apply (sorted_index_is_rank primary_writer (-1) two_sender_request).
  - vm_compute. reflexivity.
  - vm_compute. reflexivity.
  - set_solver.
Defined.

(** The index of a request that lists no tablet twice is dense and gives
    no two tablets the same ordinal. *)
Lemma sorted_indexes_distinct ids :
  NoDup ids → Z.of_nat (length ids) < 2 ^ 32 →
  distinct_ordinals (sorted_indexes ids).
Proof.
  intros Hnd Hlen t t' o. rewrite !sorted_indexes_lookup.
  case_decide as Ht; [|done]. case_decide as Ht'; [|done].
  pose proof (rank_lt_length _ _ Ht). pose proof (rank_lt_length _ _ Ht').
  rewrite !wrap32_small by lia. intros [= <-] [= Heq%Nat2Z.inj].
  destruct (Z.lt_trichotomy t t') as [Hlt|[->|Hlt]]; [|done|].
  - pose proof (rank_lt ids t t' Ht Hlt). lia.
  - pose proof (rank_lt ids t' t Ht' Hlt). lia.
Qed.

(** ** An [open] that fails *)

Lemma open_writers_Failure open_writer ts writers ids code :
  open_writers open_writer ts writers ids = Failure code ↔
  ∃ pre p post, ts = pre ++ p :: post
    ∧ Forall (λ q, ∃ w, open_writer q = Value w) pre
    ∧ open_writer p = Failure code.
Proof.
  revert writers ids. induction ts as [|q ts IH]; intros writers ids; simpl.
  - split; [done|]. intros (pre & p & post & Heq & _). by destruct pre.
  - destruct (open_writer q) as [w|code'] eqn:Hq.
    + rewrite IH. split.
      * intros (pre & p & post & -> & Hpre & Hp).
        exists (q :: pre), p, post. split; [done|]. split; [|done].
        constructor; eauto.
      * intros (pre & p & post & Heq & Hpre & Hp).
        destruct pre as [|q' pre]; simplify_eq/=; [congruence|].
        apply Forall_cons in Hpre as [_ Hpre]. eauto 6.
    + split.
      * intros [= ->]. exists [], q, ts. split; [done|]. split; [constructor|done].
      * intros (pre & p & post & Heq & Hpre & Hp).
        destruct pre as [|q' pre]; simplify_eq/=; [congruence|].
        apply Forall_cons in Hpre as [[w Hw] _]. congruence.
Qed.

(** X6. With the memory of the global dictionaries allocated, [open]
    returns an error in two cases only. When the schema does not have the
    index of the request, the error is INVALID_ARGUMENT, whatever the
    writers would do. Otherwise it is the error of the first tablet of the
    request whose writer fails to open, the writers of all the tablets
    before it having opened. *)
Theorem open_fails_with_first_error open_writer init params code :
  open open_writer init params = Done (Failure code) ↔
  0 ≤ num_senders params
  ∧ (index_in_schema params = false ∧ code = INVALID_ARGUMENT
     ∨ index_in_schema params = true
       ∧ ∃ pre p post, tablets params = pre ++ p :: post
           ∧ Forall (λ q, ∃ w, open_writer q = Value w) pre
           ∧ open_writer p = Failure code).
Proof.
  unfold open, _open_all_writers.
  destruct (decide (num_senders params < 0)) as [Hneg|Hpos].
  { split; [done|]. intros [? _]. lia. }
  destruct (index_in_schema params); simpl.
  - destruct (open_writers _ _ _ _) as [[writers ids]|code'] eqn:Hws.
    + split; [done|]. intros [_ [[? _]|[_ Hfail]]]; [done|].
      apply (open_writers_Failure open_writer _ ∅ []) in Hfail.
      rewrite Hws in Hfail. done.
    + apply open_writers_Failure in Hws. split.
      * intros [= <-]. split; [lia|]. right. done.
      * intros [_ [[? _]|[_ Hfail]]]; [done|].
        destruct Hws as (pre & p & post & Heq & Hpre & Hp).
        destruct Hfail as (pre' & p' & post' & Heq' & Hpre' & Hp').
        (* the first failing tablet is the same *)
        assert (pre = pre' ∧ p = p') as [-> ->]; [|congruence].
        rewrite Heq in Heq'. clear Heq. revert pre' Heq' Hpre'.
        induction Hpre as [|q pre [w Hq] Hpre IH]; intros pre' Heq' Hpre'.
        -- destruct Hpre' as [|q' pre' [w' Hq'] Hpre']; simplify_eq/=;
             [done|congruence].
        -- destruct Hpre' as [|q' pre' [w' Hq'] Hpre']; simplify_eq/=;
             [congruence|].
           destruct (IH pre' ltac:(done) Hpre') as [-> ->]. done.
  - split.
    + intros [= <-]. split; [lia|]. by left.
    + intros [_ [[_ ->]|[? _]]]; done.
Qed.

(** ** The global dictionaries *)

Lemma emplace_key_lookup `{Countable K} {V} (k : K) (v : V) (m : gmap K V) k' :
  emplace_key k v m !! k'
  = match m !! k' with
    | Some w => Some w
    | None => if decide (k = k') then Some v else None
    end.
Proof.
  unfold emplace_key. destruct (m !! k) as [w|] eqn:Hk.
  - destruct (m !! k') eqn:Hk'; [done|]. case_decide; [congruence|done].
  - destruct (decide (k = k')) as [->|Hne].
    + by rewrite lookup_insert_eq, Hk.
    + rewrite lookup_insert_ne by done. by destruct (m !! k').
Qed.

Lemma to_int32_small z : 0 ≤ z < 2 ^ 31 → to_int32 z = z.
Proof. intros Hz. unfold to_int32. rewrite Z.mod_small; lia. Qed.

Lemma add_dict_words_spec allocate words i n dict :
  match add_dict_words allocate words i n dict with
  | None => ∃ k, (k < length words)%nat ∧ allocate (n + k)%nat = false
  | Some (dict', n') =>
      n' = (n + length words)%nat
      ∧ (∀ k, (k < length words)%nat → allocate (n + k)%nat = true)
      ∧ ∀ w, dict' !! w
             = match dict !! w with
               | Some v => Some v
               | None => (λ p, to_int32 (Z.of_nat (i + p.1)))
                           <$> list_find (λ x, x = w) words
               end
  end.
Proof.
  revert i n dict. induction words as [|a words IH]; intros i n dict; simpl.
  { split; [lia|]. split; [intros; lia|]. intros w. by destruct (dict !! w). }
  destruct (allocate n) eqn:Ha.
  2:{ exists 0%nat. split; [lia|]. by rewrite Nat.add_0_r. }
  specialize (IH (S i) (S n) (emplace_key a (to_int32 (Z.of_nat i)) dict)).
  destruct (add_dict_words _ _ _ _ _) as [[dict' n']|].
  - destruct IH as (-> & Hall & Hlookup). split; [lia|]. split.
    + intros [|k] Hk; [by rewrite Nat.add_0_r|].
      replace (n + S k)%nat with (S n + k)%nat by lia. apply Hall. lia.
    + intros w. rewrite Hlookup, emplace_key_lookup.
      destruct (dict !! w) as [v|]; [done|].
      destruct (decide (a = w)) as [->|Hne]; simpl.
      * by rewrite Nat.add_0_r.
      * destruct (list_find _ words) as [[k x]|]; simpl; [|done].
        do 2 f_equal. lia.
  - destruct IH as (k & Hk & Hfail). exists (S k). split; [lia|].
    by replace (n + S k)%nat with (S n + k)%nat by lia.
Qed.

Lemma total_words_cons slot slots :
  total_words (slot :: slots)
  = (length (global_dict_words slot) + total_words slots)%nat.
Proof. reflexivity. Qed.

Lemma init_global_dicts_spec allocate slots n dicts :
  match init_global_dicts allocate slots n dicts with
  | None => ∃ k, (k < total_words slots)%nat ∧ allocate (n + k)%nat = false
  | Some dicts' =>
      (∀ k, (k < total_words slots)%nat → allocate (n + k)%nat = true)
      ∧ ∀ c,
          match dicts !! c with
          | Some dict => dicts' !! c = Some dict
          | None =>
              match list_find (λ s, col_name s = c ∧ global_dict_words s ≠ [])
                      slots with
              | None => dicts' !! c = None
              | Some (_, slot) =>
                  ∃ dict, dicts' !! c = Some dict
                    ∧ ∀ w, dict !! w
                           = (λ p, to_int32 (Z.of_nat p.1))
                               <$> list_find (λ x, x = w)
                                     (global_dict_words slot)
              end
          end
  end.
Proof.
  revert n dicts. induction slots as [|slot slots IH]; intros n dicts.
  { simpl. split; [intros k Hk; unfold total_words in Hk; simpl in Hk; lia|].
    intros c. by destruct (dicts !! c). }
  rewrite total_words_cons. cbn [init_global_dicts].
  destruct (global_dict_words slot) as [|a words] eqn:Hwords.
  - specialize (IH n dicts).
    destruct (init_global_dicts _ _ _ _) as [dicts'|]; [|exact IH].
    destruct IH as [Hall Hlookup]. split; [exact Hall|]. intros c.
    specialize (Hlookup c). destruct (dicts !! c); [done|].
    cbn [list_find]. rewrite decide_False by (intros [_ ?]; congruence).
    destruct (list_find _ slots) as [[k s]|]; done.
  - pose proof (add_dict_words_spec allocate (a :: words) 0 n ∅) as Hdict.
    destruct (add_dict_words _ _ _ _ _) as [[dict n1]|]; cbn [mbind option_bind].
    2:{ destruct Hdict as (k & Hk & Hfail). exists k. split; [|done].
        cbn [length] in *. lia. }
    destruct Hdict as (-> & Hall1 & Hdict).
    specialize (IH (n + length (a :: words))%nat
                  (emplace_key (col_name slot) dict dicts)).
    destruct (init_global_dicts _ _ _ _) as [dicts'|].
    2:{ destruct IH as (k & Hk & Hfail).
        exists (length (a :: words) + k)%nat. split; [lia|].
        by rewrite Nat.add_assoc. }
    destruct IH as [Hall Hlookup]. split.
    + intros k Hk. destruct (decide (k < length (a :: words))%nat).
      * by apply Hall1.
      * replace (n + k)%nat
          with (n + length (a :: words) + (k - length (a :: words)))%nat by lia.
        apply Hall. lia.
    + intros c. specialize (Hlookup c). rewrite emplace_key_lookup in Hlookup.
      destruct (dicts !! c) as [d|]; [done|].
      cbn [list_find]. destruct (decide (col_name slot = c)) as [Hc|Hc].
      * rewrite decide_True by (split; [done|congruence]).
        exists dict. split; [done|]. intros w. rewrite Hdict, lookup_empty.
        rewrite Hwords. done.
      * rewrite decide_False by (intros [? _]; done).
        destruct (list_find _ slots) as [[k s]|]; done.
Qed.

(** X7. Once the index is found, opening fills the global dictionaries
    in the order of the schema and gives up with [MemoryAllocFailed] at the
    first word whose memory is not allocated, one allocation being made for
    each word of each slot.
    When all are made, a column has a dictionary exactly when a slot of
    the schema names it and lists words; the dictionary is that of the
    first such slot, and it numbers each word with the place at which the
    word first stands in the list of the slot (for fewer than 2^31
    words). *)
Theorem global_dicts_number_words allocate slots :
  Forall (λ s, Z.of_nat (length (global_dict_words s)) ≤ 2 ^ 31) slots →
  match init_global_dicts allocate slots 0 ∅ with
  | None => ∃ k, (k < total_words slots)%nat ∧ allocate k = false
  | Some dicts =>
      (∀ k, (k < total_words slots)%nat → allocate k = true)
      ∧ ∀ c,
          match list_find (λ s, col_name s = c ∧ global_dict_words s ≠ [])
                  slots with
          | None => dicts !! c = None
          | Some (_, slot) =>
              ∃ dict, dicts !! c = Some dict
                ∧ ∀ w, dict !! w
                       = (λ p, Z.of_nat p.1)
                           <$> list_find (λ x, x = w) (global_dict_words slot)
          end
  end.
Proof.
  intros Hsmall.
  pose proof (init_global_dicts_spec allocate slots 0 ∅) as Hspec.
  destruct (init_global_dicts _ _ _ _) as [dicts|]; [|exact Hspec].
  destruct Hspec as [Hall Hlookup]. split; [exact Hall|]. intros c.
  specialize (Hlookup c). rewrite lookup_empty in Hlookup.
  destruct (list_find _ slots) as [[k slot]|] eqn:Hfind; [|done].
  destruct Hlookup as (dict & Hdict & Hwords). exists dict. split; [done|].
  intros w. rewrite Hwords.
  destruct (list_find (λ x, x = w) (global_dict_words slot)) as [[j x]|]
    eqn:Hw; [|done]. simpl. f_equal.
  apply list_find_Some in Hfind as (Hslot%list_elem_of_lookup_2 & _).
  apply list_find_Some in Hw as (Hj%lookup_lt_Some & _).
  pose proof (proj1 (Forall_forall _ _) Hsmall _ Hslot). simpl in *.
  apply to_int32_small. lia.
Qed.

Lemma global_dicts_number_words_witness :
  match init_global_dicts (λ _, true)
          [ {| col_name := "city"; global_dict_words := ["a"; "b"; "a"] |} ]
          0 ∅ with
  | None => ∃ k, (k < total_words
                        [ {| col_name := "city";
                             global_dict_words := ["a"; "b"; "a"] |} ])%nat
                 ∧ (λ _ : nat, true) k = false
  | Some dicts =>
      (∀ k, (k < total_words
                   [ {| col_name := "city";
                        global_dict_words := ["a"; "b"; "a"] |} ])%nat →
            (λ _ : nat, true) k = true)
      ∧ ∀ c,
          match list_find (λ s, col_name s = c ∧ global_dict_words s ≠ [])
                  [ {| col_name := "city";
                       global_dict_words := ["a"; "b"; "a"] |} ] with
          | None => dicts !! c = None
          | Some (_, slot) =>
              ∃ dict, dicts !! c = Some dict
                ∧ ∀ w, dict !! w
                       = (λ p, Z.of_nat p.1)
                           <$> list_find (λ x, x = w) (global_dict_words slot)
          end
  end.
Proof.
  apply (global_dicts_number_words (λ _, true)
           [ {| col_name := "city"; global_dict_words := ["a"; "b"; "a"] |} ]).
  repeat constructor. simpl. lia.
Defined.

(** ** Batches that come in order *)

Lemma elem_of_seqZ_set (a : Z) (k : nat) x :
  x ∈ (list_to_set (seqZ a (Z.of_nat k)) : gset Z) ↔ a ≤ x < a + Z.of_nat k.
Proof. by rewrite elem_of_list_to_set, elem_of_seqZ. Qed.

Lemma seqZ_set_tail (a : Z) (k : nat) :
  (list_to_set (seqZ a (Z.of_nat (S k))) : gset Z) ∖ {[a]}
  = list_to_set (seqZ (a + 1) (Z.of_nat k)).
Proof.
  apply set_eq. intros x.
  rewrite elem_of_difference, !elem_of_seqZ_set, not_elem_of_singleton. lia.
Qed.

Lemma cbegin_seqZ_set (a : Z) (k : nat) :
  cbegin (list_to_set (seqZ a (Z.of_nat (S k)))) = Some a.
Proof.
  apply cbegin_least.
  - apply elem_of_seqZ_set. lia.
  - intros x Hx%elem_of_seqZ_set. lia.
Qed.

(** X8. A sender whose batches come in order does not stall, as long as
    the end of the sliding window is an [int64_t]. With both windows
    holding the [k] sequence numbers after [last_sliding_packet_seq], at
    most half a sliding window of them, and
    [last_sliding_packet_seq + _max_sliding_window_size] within [int64_t],
    the next sequence number passes the admission check, and its
    success-window update ends within one pass of the pruning loop: below
    half a window it adds the sequence number, at half a window it also
    prunes the oldest one and moves [last_sliding_packet_seq] up by one.
    The windows are in order again afterwards. *)
Theorem in_order_batch_slides W s (k : nat) is_eos :
  1 ≤ W < 2 ^ 64 →
  no_overflow W s →
  Z.of_nat k ≤ W `quot` 2 →
  contiguous s k →
  ∃ s1 s',
    window_check W s (last_sliding_packet_seq s + 1 + Z.of_nat k) is_eos
    = (s1, Proceed)
    ∧ (∀ fuel, (1 ≤ fuel)%nat →
         record_success W fuel s1 (last_sliding_packet_seq s + 1 + Z.of_nat k)
         = Done s')
    ∧ if decide (Z.of_nat k < W `quot` 2)
      then contiguous s' (S k)
           ∧ last_sliding_packet_seq s' = last_sliding_packet_seq s
      else contiguous s' k
           ∧ last_sliding_packet_seq s' = last_sliding_packet_seq s + 1.
Proof.
  intros HW _ Hk [Hr Hs]. destruct s as [receive success last]. simpl in *.
  subst success. subst receive.
  rewrite Z.quot_div_nonneg in * by lia.
  assert (W / 2 + 1 ≤ W) as Hfit.
  { pose proof (Z.div_mod W 2 ltac:(lia)).
    pose proof (Z.mod_pos_bound W 2 ltac:(lia)). lia. }
  pose proof (seqZ_snoc_set (last + 1) k) as Hgrown.
  exists {| receive_sliding_window :=
              {[last + 1 + Z.of_nat k]}
              ∪ list_to_set (seqZ (last + 1) (Z.of_nat k));
            success_sliding_window := list_to_set (seqZ (last + 1) (Z.of_nat k));
            last_sliding_packet_seq := last |}.
  exists (if decide (Z.of_nat k < W / 2)
          then {| receive_sliding_window :=
                    list_to_set (seqZ (last + 1) (Z.of_nat (S k)));
                  success_sliding_window :=
                    list_to_set (seqZ (last + 1) (Z.of_nat (S k)));
                  last_sliding_packet_seq := last |}
          else {| receive_sliding_window :=
                    list_to_set (seqZ (last + 1 + 1) (Z.of_nat k));
                  success_sliding_window :=
                    list_to_set (seqZ (last + 1 + 1) (Z.of_nat k));
                  last_sliding_packet_seq := last + 1 |}).
  split; [|split].
  - unfold window_check. cbn [receive_sliding_window success_sliding_window
                              last_sliding_packet_seq].
    rewrite decide_False.
    2:{ rewrite elem_of_seqZ_set. lia. }
    rewrite decide_False by lia. rewrite decide_False by lia. reflexivity.
  - intros fuel Hfuel. unfold record_success.
    cbn [receive_sliding_window success_sliding_window
         last_sliding_packet_seq]. rewrite Hgrown.
    destruct (decide (Z.of_nat k < W / 2)) as [Hlt|Hge].
    + apply prune_below_half.
      cbn [success_sliding_window].
      rewrite size_seqZ_set, wrap64_half by lia. lia.
    + destruct fuel as [|fuel]; [lia|]. cbn [prune].
      unfold window_over_half at 1. cbn [success_sliding_window].
      rewrite bool_decide_eq_true_2
        by (rewrite size_seqZ_set, wrap64_half by lia; lia).
      unfold prune_once.
      cbn [receive_sliding_window success_sliding_window
           last_sliding_packet_seq].
      rewrite cbegin_seqZ_set. cbn [deref mbind run_bind].
      rewrite decide_True by done. cbn [mbind run_bind].
      rewrite decide_True by done. rewrite seqZ_set_tail.
      apply prune_below_half. cbn [success_sliding_window].
      rewrite size_seqZ_set, wrap64_half by lia. lia.
  - destruct (decide (Z.of_nat k < W / 2)) as [Hlt|Hge]; done.
Qed.


Lemma in_order_batch_slides_witness :
  ∃ s1 s',
    window_check 2
      {| receive_sliding_window := {[0]}; success_sliding_window := {[0]};
         last_sliding_packet_seq := -1 |} (-1 + 1 + Z.of_nat 1) false
    = (s1, Proceed)
    ∧ (∀ fuel, (1 ≤ fuel)%nat →
         record_success 2 fuel s1 (-1 + 1 + Z.of_nat 1) = Done s')
    ∧ if decide (Z.of_nat 1 < 2 `quot` 2)
      then contiguous s' 2 ∧ last_sliding_packet_seq s' = -1
      else contiguous s' 1 ∧ last_sliding_packet_seq s' = -1 + 1.
Proof.
  apply (in_order_batch_slides 2
           {| receive_sliding_window := {[0]};
              success_sliding_window := {[0]};
              last_sliding_packet_seq := -1 |} 1 false).
  - lia.
  - unfold no_overflow, in_int64, INT64_MIN, INT64_MAX. simpl. lia.
  - vm_compute. discriminate.
  - split; [|done]. simpl. set_solver.
Defined.

(** ** The success-window update of a call in flight *)

Lemma first_batch_in_flight :
  slot_reachable 40 (-1)
    {| slot_sender := {| receive_sliding_window := {[0]};
                         success_sliding_window := ∅;
                         last_sliding_packet_seq := -1 |};
       in_flight := {[0]} ∪ ∅ |}.
Proof.
  eapply rtc_l; [|apply rtc_refl].
  exact (slot_enter 40 (new_sender (-1)) ∅ 0 false _ _ eq_refl).
Qed.

Lemma size_union_new (x : Z) (X : gset Z) :
  x ∉ X → size ({[x]} ∪ X) = S (size X).
Proof.
  intros Hx. rewrite size_union by set_solver. by rewrite size_singleton.
Qed.

(** X9. The success-window update of a call in flight, in any state its
    slot can be in, goes one of two ways and no other. When the success
    window, with the sequence number of the call added, is more than half
    the sliding window and does not hold the sequence number that follows
    [last_sliding_packet_seq], the pruning loop has no pass that changes
    anything and never ends. Otherwise the update ends within one pass. It
    never reads the first entry of an empty window. *)
Theorem success_update_ends_or_spins W init s fl seq :
  slot_reachable W init {| slot_sender := s; in_flight := fl |} →
  seq ∈ fl →
  let s1 := {| receive_sliding_window := receive_sliding_window s;
               success_sliding_window := {[seq]} ∪ success_sliding_window s;
               last_sliding_packet_seq := last_sliding_packet_seq s |} in
  let stuck := window_over_half W s1 = true
               ∧ last_sliding_packet_seq s + 1 ∉ success_sliding_window s1 in
  (stuck → ∀ fuel, record_success W fuel s seq = OutOfFuel)
  ∧ (¬ stuck →
       ∃ s', ∀ fuel, (1 ≤ fuel)%nat → record_success W fuel s seq = Done s').
Proof.
  intros Hreach Hin s1 stuck.
  pose proof (slot_reachable_inv _ _ _ Hreach) as (Hsub & Hwin & Hfl & Hdis).
  pose proof (slot_reachable_half _ _ _ Hreach) as Hhalf.
  simpl in Hsub, Hwin, Hfl, Hdis, Hhalf.
  assert (seq ∈ receive_sliding_window s) as Hrecv by set_solver.
  assert (seq ∉ success_sliding_window s) as Hnew by set_solver.
  destruct (cbegin (success_sliding_window s1)) as [m|] eqn:Hm.
  2:{ apply cbegin_None in Hm. simpl in Hm. set_solver. }
  pose proof (cbegin_elem_of _ _ Hm) as Hm_in.
  assert (last_sliding_packet_seq s < m) as Hm_low.
  { apply Hwin. simpl in Hm_in. set_solver. }
  split.
  - intros [Hover Hgap]. apply (record_success_spins W s seq m); [done..|].
    intros ->. done.
  - intros Hfree.
    destruct (window_over_half W s1) eqn:Hover.
    + (* over half, and the entry after the last pruned one is there *)
      assert (last_sliding_packet_seq s + 1 ∈ success_sliding_window s1)
        as Hnext.
      { destruct (decide (last_sliding_packet_seq s + 1
                          ∈ success_sliding_window s1)); [done|].
        destruct Hfree. done. }
      assert (m = last_sliding_packet_seq s + 1) as ->.
      { pose proof (cbegin_le _ _ _ Hm Hnext). lia. }
      assert (cbegin (receive_sliding_window s)
              = Some (last_sliding_packet_seq s + 1)) as Hr.
      { apply cbegin_least.
        - simpl in Hnext. set_solver.
        - intros x Hx%Hwin. lia. }
      eexists. intros [|fuel] Hfuel; [lia|]. unfold record_success. fold s1.
      cbn [prune]. rewrite Hover. unfold prune_once. rewrite Hm.
      cbn [deref mbind run_bind]. rewrite decide_True by done.
      cbn [receive_sliding_window s1]. rewrite Hr. cbn [deref mbind run_bind].
      rewrite decide_True by done. apply prune_below_half.
      cbn [success_sliding_window s1].
      unfold window_over_half in Hhalf. apply bool_decide_eq_false in Hhalf.
      rewrite size_difference by set_solver.
      rewrite size_union_new, size_singleton by done. lia.
    + exists s1. intros fuel _. unfold record_success. fold s1.
      destruct fuel; simpl; by rewrite Hover.
Qed.

Lemma success_update_ends_or_spins_witness :
  let s := {| receive_sliding_window := {[0]};
              success_sliding_window := ∅;
              last_sliding_packet_seq := -1 |} in
  let s1 := {| receive_sliding_window := receive_sliding_window s;
               success_sliding_window := {[0]} ∪ success_sliding_window s;
               last_sliding_packet_seq := last_sliding_packet_seq s |} in
  let stuck := window_over_half 40 s1 = true
               ∧ last_sliding_packet_seq s + 1 ∉ success_sliding_window s1 in
  (stuck → ∀ fuel, record_success 40 fuel s 0 = OutOfFuel)
  ∧ (¬ stuck →
       ∃ s', ∀ fuel, (1 ≤ fuel)%nat → record_success 40 fuel s 0 = Done s').
Proof.
  apply (success_update_ends_or_spins 40 (-1) _ ({[0]} ∪ ∅) 0).
  - apply first_batch_in_flight.
  - set_solver.
Defined.

(** X10. In every state a sender slot reaches, the received sequence
    numbers lie in the sliding window that starts after
    [last_sliding_packet_seq], so there are at most
    [_max_sliding_window_size] of them; the success window holds at most
    half a sliding window; and the calls in flight hold received sequence
    numbers that are not in the success window. *)
Theorem windows_are_bounded W init st :
  slot_reachable W init st →
  let s := slot_sender st in
  (∀ x, x ∈ receive_sliding_window s →
     last_sliding_packet_seq s < x ≤ last_sliding_packet_seq s + W)
  ∧ Z.of_nat (size (receive_sliding_window s)) ≤ Z.max 0 W
  ∧ Z.of_nat (size (success_sliding_window s)) ≤ wrap64 (W `quot` 2)
  ∧ in_flight st ⊆ receive_sliding_window s ∖ success_sliding_window s.
Proof.
  intros Hreach s.
  pose proof (slot_reachable_inv _ _ _ Hreach) as (Hsub & Hwin & Hfl & Hdis).
  pose proof (slot_reachable_half _ _ _ Hreach) as Hhalf.
  fold s in Hsub, Hwin, Hfl, Hdis, Hhalf.
  split; [exact Hwin|]. split; [|split].
  - assert (receive_sliding_window s
            ⊆ list_to_set (seqZ (last_sliding_packet_seq s + 1)
                             (Z.of_nat (Z.to_nat W)))) as Hincl.
    { intros x Hx%Hwin. apply elem_of_seqZ_set. lia. }
    apply subseteq_size in Hincl. rewrite size_seqZ_set in Hincl. lia.
  - unfold window_over_half in Hhalf. apply bool_decide_eq_false in Hhalf.
    lia.
  - set_solver.
Qed.

Lemma windows_are_bounded_witness :
  let st := {| slot_sender := {| receive_sliding_window := {[0]};
                                 success_sliding_window := ∅;
                                 last_sliding_packet_seq := -1 |};
               in_flight := {[0]} ∪ ∅ |} in
  let s := slot_sender st in
  (∀ x, x ∈ receive_sliding_window s →
     last_sliding_packet_seq s < x ≤ last_sliding_packet_seq s + 40)
  ∧ Z.of_nat (size (receive_sliding_window s)) ≤ Z.max 0 40
  ∧ Z.of_nat (size (success_sliding_window s)) ≤ wrap64 (40 `quot` 2)
  ∧ in_flight st ⊆ receive_sliding_window s ∖ success_sliding_window s.
Proof.
  apply (windows_are_bounded 40 (-1)). apply first_batch_in_flight.
Defined.

(** ** A batch that comes for the first time *)

Lemma with_sender_twice ch slot s s' :
  with_sender (with_sender ch slot s) slot s' = with_sender ch slot s'.
Proof. unfold with_sender. simpl. by rewrite list_insert_insert_eq. Qed.

(** X11. What [add_chunk] does, from end to end, with a batch that is not
    an eos batch and comes for the first time, with a sequence number
    inside the sliding window, the end of which is an [int64_t], and a
    chunk whose tablets all have a writer and an ordinal (the index being
    dense, with no ordinal given twice): the sequence number enters the
    receive window, each tablet with rows in the batch gets one write with
    exactly its rows in batch order, and the call is the success-window
    update of the sequence number; when that ends, the call has made these
    writes and no other call to a writer, does not close the channel, and
    has changed the slot of its sender only. The status the call answers
    is not stated: the writers may replace, from their callbacks, the one
    [add_chunk] sets before it submits the writes. *)
Theorem fresh_batch_is_written W ch chunk request s :
  well_formed ch request →
  _senders ch !! Z.to_nat (sender_id request) = Some s →
  no_overflow W s →
  packet_seq request ∉ receive_sliding_window s →
  last_sliding_packet_seq s < packet_seq request
    ≤ last_sliding_packet_seq s + W →
  eos request = false →
  dense (_tablet_id_to_sorted_indexes ch) →
  distinct_ordinals (_tablet_id_to_sorted_indexes ch) →
  Forall (λ t, is_Some (_tablet_id_to_sorted_indexes ch !! t)
               ∧ is_Some (_delta_writers ch !! t)) (tablet_ids request) →
  tablet_ids_size request = num_rows chunk →
  Z.of_nat (tablet_ids_size request) < 2 ^ 31 →
  ∃ writes,
    NoDup writes
    ∧ (∀ e, e ∈ writes ↔
         ∃ t, t ∈ tablet_ids request
              ∧ e = EvWrite t (rows_of (tablet_ids request) t))
    ∧ ∀ fuel,
        ('(ch', r) ← add_chunk W fuel ch (Some chunk) request;
         Done (ch', trace r, close_channel r))
        = (s' ← record_success W fuel
                  {| receive_sliding_window :=
                       {[packet_seq request]} ∪ receive_sliding_window s;
                     success_sliding_window := success_sliding_window s;
                     last_sliding_packet_seq := last_sliding_packet_seq s |}
                  (packet_seq request);
           Done (with_sender ch (Z.to_nat (sender_id request)) s',
                 writes, false)).
Proof.
  intros Hwf Hs _ Hnew Hwin Heos Hdense Hinj Hknown Hsize Hint.
  eexists. split; [|split].
  1, 2: apply (writes_of_batch (_tablet_id_to_sorted_indexes ch)
                 (tablet_ids request)); [done..|];
        eapply Forall_impl; [exact Hknown|]; by intros t [? _].
  intros fuel. unfold add_chunk.
  rewrite (admission_well_formed _ _ _ _ Hwf Hs). unfold window_check.
  rewrite decide_False by done. rewrite decide_False by lia.
  rewrite decide_False by lia. cbn [mbind run_bind].
  set (s1 := {| receive_sliding_window :=
                  {[packet_seq request]} ∪ receive_sliding_window s;
                success_sliding_window := success_sliding_window s;
                last_sliding_packet_seq := last_sliding_packet_seq s |}).
  set (slot := Z.to_nat (sender_id request)).
  rewrite (scatter_and_dispatch_writes (with_sender ch slot s1));
    [|done..]. cbn [mbind run_bind]. rewrite Heos.
  unfold success_update. fold slot.
  pose proof (lookup_lt_Some _ _ _ Hs) as Hslot.
  rewrite (read_Some _ _ s1)
    by (simpl; by apply list_lookup_insert_eq).
  cbn [mbind run_bind].
  destruct (record_success W fuel s1 (packet_seq request)) as [s'| |];
    cbn [mbind run_bind]; [|done..].
  cbn [trace close_channel]. by rewrite with_sender_twice, app_nil_r.
Qed.

Lemma fresh_batch_is_written_witness :
  ∃ writes,
    NoDup writes
    ∧ (∀ e, e ∈ writes ↔
         ∃ t, t ∈ tablet_ids (row_request 0)
              ∧ e = EvWrite t (rows_of (tablet_ids (row_request 0)) t))
    ∧ ∀ fuel,
        ('(ch', r) ← add_chunk 40 fuel one_tablet_channel
                       (Some {| num_rows := 1 |}) (row_request 0);
         Done (ch', trace r, close_channel r))
        = (s' ← record_success 40 fuel
                  {| receive_sliding_window :=
                       {[packet_seq (row_request 0)]}
                       ∪ receive_sliding_window (new_sender (-1));
                     success_sliding_window :=
                       success_sliding_window (new_sender (-1));
                     last_sliding_packet_seq :=
                       last_sliding_packet_seq (new_sender (-1)) |}
                  (packet_seq (row_request 0));
           Done (with_sender one_tablet_channel
                   (Z.to_nat (sender_id (row_request 0))) s',
                 writes, false)).
Proof.
  apply (fresh_batch_is_written 40 one_tablet_channel {| num_rows := 1 |}
           (row_request 0) (new_sender (-1))).
  - unfold well_formed, sender_id. simpl. split; [eauto|]. split; [lia|eauto].
  - reflexivity.
  - unfold no_overflow, in_int64, INT64_MIN, INT64_MAX. simpl. lia.
  - simpl. set_solver.
  - unfold packet_seq. simpl. lia.
  - reflexivity.
  - intros t o. simpl. rewrite lookup_singleton_Some.
    change (size _) with 1%nat. lia.
  - intros t t' o. simpl. rewrite !lookup_singleton_Some. lia.
  - simpl. repeat (constructor; [split; eexists; vm_compute; reflexivity|]).
    constructor.
  - reflexivity.
  - vm_compute. reflexivity.
Defined.

(** ** A batch sent again after it was written *)

(** Where a written sequence number is: in both windows, or pruned from
    them. *)
Lemma removes_front_written seq s s' :
  rtc removes_front s s' →
  (seq ∈ receive_sliding_window s ∧ seq ∈ success_sliding_window s)
  ∨ ((seq ∉ receive_sliding_window s) ∧ seq ≤ last_sliding_packet_seq s) →
  (seq ∈ receive_sliding_window s' ∧ seq ∈ success_sliding_window s')
  ∨ ((seq ∉ receive_sliding_window s') ∧ seq ≤ last_sliding_packet_seq s').
Proof.
  induction 1 as [|s s1 s2 (_ & _ & Hr & Hs & Hl) _ IH]; [done|].
  intros Hseq. apply IH. rewrite Hr, Hs, Hl.
  destruct Hseq as [[Hin Hin']|[Hout Hle]].
  - destruct (decide (seq = last_sliding_packet_seq s + 1)) as [->|Hne].
    + right. split; [set_solver|lia].
    + left. set_solver.
  - right. split; [set_solver|lia].
Qed.

Lemma written_reply W fuel ch chunk request s code :
  well_formed ch request →
  _senders ch !! Z.to_nat (sender_id request) = Some s →
  window_check W s (packet_seq request) (eos request) = (s, Reply code) →
  add_chunk W fuel ch chunk request = Done (ch, reply code).
Proof.
  intros Hwf Hs Hcheck. unfold add_chunk.
  by rewrite (admission_well_formed _ _ _ _ Hwf Hs), Hcheck.
Qed.

(** X12. A batch that passed the admission check and was answered OK is
    never written a second time. Whenever the same request comes again
    right after the call, whatever chunk comes with it, it is answered from
    the windows: OK, or DUPLICATE_RPC_INVOCATION for an eos batch that has
    not been pruned yet; nothing is dispatched, the sender is not closed
    again and the channel stays as it is. *)
Theorem written_batch_replayed W fuel ch chunk request ch1 ch' r :
  admission W ch request = Done (ch1, Proceed) →
  add_chunk W fuel ch chunk request = Done (ch', r) →
  status_code r = OK →
  ∃ code,
    (∀ fuel' chunk',
       add_chunk W fuel' ch' chunk' request = Done (ch', reply code))
    ∧ (code = OK ∨ eos request = true ∧ code = DUPLICATE_RPC_INVOCATION).
Proof.
  intros Hadm Hcall Hok.
  pose proof Hadm as (s & Hwf & Hs & Hout & Hlast & Hch1)%admission_Proceed.
  set (slot := Z.to_nat (sender_id request)) in *.
  set (seq := packet_seq request) in *.
  unfold add_chunk in Hcall. rewrite Hadm in Hcall. simpl in Hcall.
  destruct (scatter_and_dispatch ch1 chunk request) as [[ch2 res]| |] eqn:Hsd;
    simpl in Hcall; [|done..].
  destruct res as [writes|code].
  2:{ injection Hcall as <- <-. simpl in Hok. subst code.
      by apply scatter_and_dispatch_Failure in Hsd as [? _]. }
  apply scatter_and_dispatch_channel in Hsd as [idx ->].
  assert (∃ ch3, _senders ch3 = _senders ch1
                 ∧ success_update W fuel ch3 request = Done ch') as
    (ch3 & Hsenders & Hupd).
  { destruct (eos request).
    - unfold _close_sender, fetch_sub in Hcall. simpl in Hcall.
      case_decide; simpl in Hcall;
        (destruct (success_update _ _ _ _) as [ch4| |] eqn:Hupd;
         simpl in Hcall; [|done..]); injection Hcall as <- _;
        eexists; (split; [|exact Hupd]); done.
    - destruct (success_update _ _ _ _) as [ch4| |] eqn:Hupd;
        simpl in Hcall; [|done..]. injection Hcall as <- _.
      eexists; (split; [|exact Hupd]); done. }
  apply success_update_channel in Hupd as (s3 & s' & Hs3 & Hrec & ->).
  fold slot seq in Hs3, Hrec |- *.
  pose proof (lookup_lt_Some _ _ _ Hs) as Hslot.
  rewrite Hsenders, Hch1 in Hs3. simpl in Hs3.
  rewrite list_lookup_insert_eq in Hs3 by done. injection Hs3 as <-.
  apply prune_chain in Hrec.
  apply (removes_front_written seq) in Hrec; [|left; simpl; set_solver].
  assert (well_formed (with_sender ch3 slot s') request) as Hwf'.
  { destruct Hwf as (? & ? & ?). unfold well_formed. simpl.
    rewrite length_insert, Hsenders, Hch1. simpl. by rewrite length_insert. }
  assert (_senders (with_sender ch3 slot s') !! slot = Some s') as Hs'.
  { simpl. apply list_lookup_insert_eq. rewrite Hsenders, Hch1. simpl.
    by rewrite length_insert. }
  destruct Hrec as [[Hin Hin']|[Hout' Hle]].
  - exists (if eos request then DUPLICATE_RPC_INVOCATION else OK). split.
    + intros fuel' chunk'. apply (written_reply _ _ _ _ _ s'); [done..|].
      fold seq. unfold window_check. rewrite decide_True by done.
      rewrite bool_decide_eq_false_2 by (intros H; by apply H). simpl.
      by destruct (eos request).
    + destruct (eos request); eauto.
  - exists OK. split; [|by left].
    intros fuel' chunk'. apply (written_reply _ _ _ _ _ s'); [done..|].
    fold seq. unfold window_check. rewrite decide_False by done.
    by rewrite decide_True.
Qed.

Lemma written_batch_replayed_witness :
  ∃ code,
    (∀ fuel' chunk',
       add_chunk 4 fuel'
         {| _senders := [ {| receive_sliding_window := {[0]};
                             success_sliding_window := {[0]};
                             last_sliding_packet_seq := -1 |} ];
            _num_remaining_senders := 1;
            _partition_ids := ∅;
            _delta_writers := _delta_writers one_tablet_channel;
            _tablet_id_to_sorted_indexes := {[ 5 := 0 ]} |}
         chunk' (row_request 0)
       = Done ({| _senders := [ {| receive_sliding_window := {[0]};
                                   success_sliding_window := {[0]};
                                   last_sliding_packet_seq := -1 |} ];
                  _num_remaining_senders := 1;
                  _partition_ids := ∅;
                  _delta_writers := _delta_writers one_tablet_channel;
                  _tablet_id_to_sorted_indexes := {[ 5 := 0 ]} |},
               reply code))
    ∧ (code = OK
       ∨ eos (row_request 0) = true ∧ code = DUPLICATE_RPC_INVOCATION).
Proof.
  eapply (written_batch_replayed 4 0 one_tablet_channel
            (Some {| num_rows := 1 |}) (row_request 0)).
  - vm_compute. reflexivity.
  - vm_compute. reflexivity.
  - reflexivity.
Defined.

(** ** A batch that is not the last of its sender *)

(** X13. A call for a batch without the eos flag, however it ends, closes
    nothing: it submits writes only, no commit and no abort, it does not
    report the channel as closed, and it leaves the count of remaining
    senders, the recorded partition ids, the writers and the slots of all
    other senders as they were. *)
Theorem batch_without_eos_only_writes W fuel ch chunk request ch' r :
  eos request = false →
  add_chunk W fuel ch chunk request = Done (ch', r) →
  close_channel r = false
  ∧ Forall (λ e, ¬ is_close e) (trace r)
  ∧ _num_remaining_senders ch' = _num_remaining_senders ch
  ∧ _partition_ids ch' = _partition_ids ch
  ∧ _delta_writers ch' = _delta_writers ch
  ∧ ∀ j, j ≠ Z.to_nat (sender_id request) →
      _senders ch' !! j = _senders ch !! j.
Proof.
  intros Heos Hcall. unfold add_chunk in Hcall.
  destruct (admission W ch request) as [[ch1 verdict]| |] eqn:Hadm;
    simpl in Hcall; [|done..].
  destruct verdict as [code|].
  { apply admission_Reply in Hadm as ->. injection Hcall as <- <-.
    repeat split; auto. }
  apply admission_Proceed in Hadm as (s & _ & _ & _ & _ & ->).
  destruct (scatter_and_dispatch _ chunk request) as [[ch2 res]| |] eqn:Hsd;
    simpl in Hcall; [|done..].
  pose proof Hsd as [idx ->]%scatter_and_dispatch_channel.
  destruct res as [writes|code].
  2:{ injection Hcall as <- <-. simpl. repeat split; auto.
      intros j Hj. by rewrite list_lookup_insert_ne. }
  rewrite Heos in Hcall.
  destruct (success_update _ _ _ _) as [ch4| |] eqn:Hupd;
    simpl in Hcall; [|done..].
  injection Hcall as <- <-.
  apply success_update_channel in Hupd as (s3 & s' & _ & _ & ->). simpl.
  split; [done|]. split.
  { rewrite app_nil_r. by eapply scatter_and_dispatch_only_writes. }
  repeat split; auto.
  intros j Hj. by rewrite !list_lookup_insert_ne.
Qed.

Lemma batch_without_eos_only_writes_witness :
  close_channel row_result = false
  ∧ Forall (λ e, ¬ is_close e) (trace row_result)
  ∧ _num_remaining_senders (with_sender one_tablet_channel 0
       {| receive_sliding_window := {[0]};
          success_sliding_window := {[0]};
          last_sliding_packet_seq := -1 |})
    = _num_remaining_senders one_tablet_channel
  ∧ _partition_ids (with_sender one_tablet_channel 0
       {| receive_sliding_window := {[0]};
          success_sliding_window := {[0]};
          last_sliding_packet_seq := -1 |})
    = _partition_ids one_tablet_channel
  ∧ _delta_writers (with_sender one_tablet_channel 0
       {| receive_sliding_window := {[0]};
          success_sliding_window := {[0]};
          last_sliding_packet_seq := -1 |})
    = _delta_writers one_tablet_channel
  ∧ ∀ j, j ≠ Z.to_nat (sender_id (row_request 0)) →
      _senders (with_sender one_tablet_channel 0
         {| receive_sliding_window := {[0]};
            success_sliding_window := {[0]};
            last_sliding_packet_seq := -1 |}) !! j
      = _senders one_tablet_channel !! j.
Proof.
  apply (batch_without_eos_only_writes 40 0 one_tablet_channel
           (Some {| num_rows := 1 |}) (row_request 0)).
  - reflexivity.
  - vm_compute. reflexivity.
Defined.

(** ** One write for a batch *)

Lemma accepted_insert pre c post acts :
  omap accepted_key (pre ++ c :: post) ++ omap dispatch_key acts
  ≡ₚ option_list (accepted_key c)
     ++ (omap accepted_key (pre ++ post) ++ omap dispatch_key acts).
Proof.
  rewrite !omap_app. simpl.
  destruct (accepted_key c) as [k|]; simpl; [|done].
  rewrite <- !app_assoc. simpl. symmetry. apply Permutation_middle.
Qed.

Lemma dispatched_snoc pool acts a :
  omap accepted_key pool ++ omap dispatch_key (acts ++ [a])
  ≡ₚ option_list (dispatch_key a)
     ++ (omap accepted_key pool ++ omap dispatch_key acts).
Proof.
  rewrite omap_app. simpl.
  destruct (dispatch_key a) as [k|]; simpl; [|by rewrite app_nil_r].
  rewrite app_assoc. symmetry. apply Permutation_cons_append.
Qed.

Lemma written_inv_step W sys acts a sys' :
  step W sys a sys' → written_inv sys acts → written_inv sys' (acts ++ [a]).
Proof.
  intros Hstep. unfold written_inv.
  block_cases Hstep; simpl.
  all: rewrite ?dispatched_snoc, ?accepted_insert; simpl.
  - done.
  - apply admission_Proceed in Hadm as (s & Hwf & Hs & Hout & Hlast & ->).
    intros [Hnd Hcov].
    assert (∀ k, covered ch k →
              covered (with_sender ch (Z.to_nat (sender_id request))
                {| receive_sliding_window :=
                     {[packet_seq request]} ∪ receive_sliding_window s;
                   success_sliding_window := success_sliding_window s;
                   last_sliding_packet_seq := last_sliding_packet_seq s |}) k)
      as Hmono.
    { intros k. apply (covered_with_sender _ _ s); [done|]. simpl. set_solver. }
    split.
    + apply NoDup_cons. split; [|done].
      intros Hin. apply (proj1 (Forall_forall _ _) Hcov) in Hin.
      destruct Hin as (_ & s0 & Hs0 & Hk). simpl in *.
      rewrite Hs in Hs0. injection Hs0 as <-. destruct Hk; [done|lia].
    + apply Forall_cons. split; [|by eapply Forall_impl].
      destruct Hwf as (_ & Hrange & _). split; [simpl; lia|]. simpl.
      eexists. rewrite list_lookup_insert_eq by by eapply lookup_lt_Some.
      split; [done|]. simpl. set_solver.
  - intros [Hnd Hcov]. apply NoDup_cons in Hnd as [_ Hnd].
    apply Forall_cons in Hcov as [_ Hcov]. split; [done|].
    eapply Forall_impl; [exact Hcov|]. intros k. by apply covered_senders.
  - intros [Hnd Hcov].
    assert (accepted_key {| call_chunk := chunk; call_request := request;
                            call_stage := if eos request then Dispatched
                                          else Settled false |} = None)
      as -> by (unfold accepted_key; simpl; by destruct (eos request)).
    simpl. split; [done|].
    eapply Forall_impl; [exact Hcov|]. intros k. by apply covered_senders.
  - intros [Hnd Hcov]. split; [done|].
    eapply Forall_impl; [exact Hcov|]. intros k. by apply covered_senders.
  - intros [Hnd Hcov].
    assert (accepted_key {| call_chunk := chunk; call_request := request;
                            call_stage := if decide (n - 1 = 0) then Closing
                                          else Settled false |} = None)
      as -> by (unfold accepted_key; simpl; by destruct (decide (n - 1 = 0))).
    simpl in *. split; [done|].
    eapply Forall_impl; [exact Hcov|]. intros k. by apply covered_senders.
  - intros [Hnd Hcov]. split; [done|].
    eapply Forall_impl; [exact Hcov|]. intros k. by apply covered_senders.
  - apply success_update_channel in Hupd as (s & s' & Hs & Hrec & ->).
    intros [Hnd Hcov]. split; [done|].
    eapply Forall_impl; [exact Hcov|]. intros k.
    apply (covered_with_sender _ _ s); [done|].
    intros x. by apply (record_success_covers _ _ _ _ _ _ Hrec).
Qed.

Lemma written_inv_execution W ch0 acts sys :
  execution W {| channel := ch0; calls := [] |} acts sys →
  written_inv sys acts.
Proof.
  remember {| channel := ch0; calls := [] |} as sys0 eqn:Hsys0.
  induction 1 as [sys|sys acts sys1 a sys2 _ IH Hstep].
  - subst. split; constructor.
  - eapply written_inv_step; eauto.
Qed.

Lemma dispatches_of_absent k acts :
  k ∉ omap dispatch_key acts → dispatches_of k acts = 0%nat.
Proof.
  unfold dispatches_of. induction acts as [|a acts IH]; simpl; [done|].
  rewrite filter_cons. destruct (dispatch_key a) as [k'|] eqn:Ha.
  - intros [Hne Hout]%not_elem_of_cons.
    rewrite decide_False by congruence. auto.
  - intros Hout. rewrite decide_False by done. auto.
Qed.

Lemma dispatches_of_NoDup k acts :
  NoDup (omap dispatch_key acts) → (dispatches_of k acts ≤ 1)%nat.
Proof.
  induction acts as [|a acts IH]; simpl; [unfold dispatches_of; simpl; lia|].
  unfold dispatches_of in *. rewrite filter_cons.
  destruct (dispatch_key a) as [k'|] eqn:Ha.
  - intros [Hout Hnd]%NoDup_cons.
    destruct (decide (Some k' = Some k)) as [[= ->]|].
    + simpl. pose proof (dispatches_of_absent _ _ Hout) as H0.
      unfold dispatches_of in H0. lia.
    + auto.
  - intros Hnd. rewrite decide_False by done. auto.
Qed.

(** X14. However the calls of a channel overlap, the writes of a batch
    (a sender id and a sequence number) are submitted at most once: a
    request that comes again while its first call is in flight, after that
    call has returned or after it has failed does not get past the
    admission check. *)
Theorem batch_written_once W ch0 acts sys k :
  execution W {| channel := ch0; calls := [] |} acts sys →
  (dispatches_of k acts ≤ 1)%nat.
Proof.
  intros Hexec. apply dispatches_of_NoDup.
  destruct (written_inv_execution _ _ _ _ Hexec) as [Hnd _].
  by apply NoDup_app in Hnd as (_ & _ & Hnd).
Qed.

Lemma batch_written_once_witness :
  Nat.le
    (dispatches_of (0, 0)
       [ActAccept (eos_request 0 0 [10]); ActDispatch (eos_request 0 0 [10]) [];
        ActDecrement (eos_request 0 0 [10]) 1; ActRecord (eos_request 0 0 [10])])
    1.
Proof.
  apply (batch_written_once 40 one_tablet_channel _ _ (0, 0) one_call_execution).
Defined.

(** ** What the calls leave alone *)

Lemma step_senders_length W sys a sys' :
  step W sys a sys' →
  length (_senders (channel sys')) = length (_senders (channel sys)).
Proof.
  intros Hstep. block_cases Hstep; try reflexivity.
  - apply admission_Proceed in Hadm as (s & _ & _ & _ & _ & ->).
    simpl. by rewrite length_insert.
  - apply success_update_channel in Hupd as (s & s' & _ & _ & ->).
    simpl. by rewrite length_insert.
Qed.

Lemma decrements_snoc acts a :
  decrements (acts ++ [a])
  = (decrements acts + match a with ActDecrement _ _ => 1 | _ => 0 end)%nat.
Proof.
  unfold decrements. rewrite filter_app, length_app, filter_cons, filter_nil.
  destruct (decide (is_Some (decrement_key a))) as [[k Hk]|Hnone];
    destruct a; simpl in *; try done; try lia.
  destruct Hnone. eauto.
Qed.

(** X15. However the calls of [add_chunk] overlap, they add and remove no
    writer and no sender slot; [_num_remaining_senders] is its value at
    the start less the number of decrements made, one for each eos batch
    that submitted its writes, whichever sender it came from, so it can go
    below zero; and [_partition_ids] only grows, by partition ids of eos
    batches that have decremented. *)
Theorem calls_keep_the_channel W ch0 acts sys :
  execution W {| channel := ch0; calls := [] |} acts sys →
  _delta_writers (channel sys) = _delta_writers ch0
  ∧ length (_senders (channel sys)) = length (_senders ch0)
  ∧ _num_remaining_senders (channel sys)
    = _num_remaining_senders ch0 - Z.of_nat (decrements acts)
  ∧ _partition_ids ch0 ⊆ _partition_ids (channel sys)
  ∧ _partition_ids (channel sys)
    ⊆ _partition_ids ch0 ∪ closed_partitions acts.
Proof.
  intros Hexec. split; [by eapply writers_execution|].
  pose proof (partitions_inv_execution _ _ _ _ Hexec) as Hparts.
  unfold partitions_inv in Hparts.
  assert (length (_senders (channel sys)) = length (_senders ch0)
          ∧ _num_remaining_senders (channel sys)
            = _num_remaining_senders ch0 - Z.of_nat (decrements acts)
          ∧ _partition_ids ch0 ⊆ _partition_ids (channel sys))
    as (Hlen & Hcount & Hgrow).
  { clear Hparts. remember {| channel := ch0; calls := [] |} as sys0 eqn:Hsys0.
    induction Hexec as [sys|sys acts sys1 a sys2 _ IH Hstep].
    - subst. simpl. unfold decrements. simpl. split; [done|]. split; [lia|done].
    - destruct (IH Hsys0) as (IHlen & IHcount & IHgrow).
      rewrite (step_senders_length _ _ _ _ Hstep),
        (step_remaining _ _ _ _ Hstep), (step_partition_ids _ _ _ _ Hstep),
        decrements_snoc.
      split; [done|]. split.
      + destruct a; lia.
      + destruct a; set_solver. }
  split; [done|]. split; [done|]. split; [done|]. set_solver.
Qed.

Lemma calls_keep_the_channel_witness :
  let acts := [ActAccept (eos_request 0 0 [10]);
               ActDispatch (eos_request 0 0 [10]) [];
               ActDecrement (eos_request 0 0 [10]) 1;
               ActRecord (eos_request 0 0 [10])] in
  _delta_writers one_tablet_closing = _delta_writers one_tablet_channel
  ∧ length (_senders one_tablet_closing) = length (_senders one_tablet_channel)
  ∧ _num_remaining_senders one_tablet_closing
    = _num_remaining_senders one_tablet_channel - Z.of_nat (decrements acts)
  ∧ _partition_ids one_tablet_channel ⊆ _partition_ids one_tablet_closing
  ∧ _partition_ids one_tablet_closing
    ⊆ _partition_ids one_tablet_channel ∪ closed_partitions acts.
Proof.
  intros acts.
  apply (calls_keep_the_channel 40 one_tablet_channel acts
           {| channel := one_tablet_closing;
              calls := [ {| call_chunk := None;
                            call_request := eos_request 0 0 [10];
                            call_stage := Closing |} ] |}).
  exact one_call_execution.
Defined.

(** ** What the closing call sees of the partitions *)

Lemma recorded_partitions_snoc acts a :
  recorded_partitions (acts ++ [a])
  = recorded_partitions acts
    ∪ match a with
      | ActRecord r => list_to_set (partition_ids r)
      | _ => ∅
      end.
Proof.
  unfold recorded_partitions. rewrite fmap_app, union_list_app_L. simpl.
  set_solver.
Qed.

Lemma closed_partitions_elem acts r n :
  ActDecrement r n ∈ acts →
  list_to_set (partition_ids r) ⊆ closed_partitions acts.
Proof.
  unfold closed_partitions. induction acts as [|a acts IH];
    [by intros ?%elem_of_nil|].
  rewrite fmap_cons, union_list_cons.
  intros [<-|Hin]%elem_of_cons; [set_solver|].
  specialize (IH Hin). set_solver.
Qed.

Lemma recorded_execution W ch0 acts sys :
  execution W {| channel := ch0; calls := [] |} acts sys →
  _partition_ids (channel sys) = _partition_ids ch0 ∪ recorded_partitions acts
  ∧ recorded_partitions acts ⊆ closed_partitions acts.
Proof.
  intros Hexec.
  remember {| channel := ch0; calls := [] |} as sys0 eqn:Hsys0.
  induction Hexec as [sys|sys acts sys1 a sys2 Hexec IH Hstep].
  - subst. unfold recorded_partitions. simpl. set_solver.
  - destruct (IH Hsys0) as [IHparts IHsub]. subst sys.
    pose proof (provenance_execution _ _ _ _ Hexec) as Hprov.
    rewrite (step_partition_ids _ _ _ _ Hstep), recorded_partitions_snoc,
      closed_partitions_snoc, IHparts.
    split.
    + clear. destruct a; set_solver.
    + destruct a as [| | | | |r| |]; try (clear -IHsub; set_solver).
      (* the call that records has decremented *)
      inversion Hstep as [| | | | |ch pre post chunk req n| |]; subst.
      simpl in Hprov.
      apply Forall_app in Hprov as [_ Hprov].
      apply Forall_cons in Hprov as [Hdec _].
      unfold decremented_by in Hdec. simpl in Hdec.
      apply closed_partitions_elem in Hdec. clear -IHsub Hdec. set_solver.
Qed.

(** X16. Whatever calls overlap, the loop over the writers decides by the
    partition ids recorded in [_partition_ids] when it runs: a writer that
    is not a secondary replica gets commit if its partition id has been
    recorded by then and abort if not, and a secondary replica gets
    neither. The recorded ids are ids of eos batches that have decremented
    [_num_remaining_senders]; those of a batch that has decremented and not
    recorded yet are not among them. *)
Theorem closing_call_sees_recorded_partitions W ch0 acts sys request evs sys' :
  execution W {| channel := ch0; calls := [] |} acts sys →
  step W sys (ActClose request evs) sys' →
  recorded_partitions acts ⊆ closed_partitions acts
  ∧ ∀ t w, _delta_writers ch0 !! t = Some w →
      if decide (replica_state w = Secondary)
      then (EvCommit t ∉ evs) ∧ (EvAbort t ∉ evs)
      else (EvCommit t ∈ evs
            ↔ partition_id w ∈ _partition_ids ch0 ∪ recorded_partitions acts)
           ∧ (EvAbort t ∈ evs
              ↔ partition_id w ∉ _partition_ids ch0 ∪ recorded_partitions acts).
Proof.
  intros Hexec Hstep.
  destruct (recorded_execution _ _ _ _ Hexec) as [Hparts Hsub].
  pose proof (writers_execution _ _ _ _ Hexec) as Hwriters.
  split; [exact Hsub|].
  inversion Hstep as [| | | | | |ch pre post chunk req Hsys Hact Hsys'|]; subst.
  simpl in *. intros t w Hw. rewrite <- Hwriters in Hw.
  rewrite <- Hparts. exact (close_writers_spec ch t w Hw).
Qed.

Lemma closing_call_sees_recorded_partitions_witness :
  let r := eos_request 0 0 [10] in
  let acts := [ActAccept r; ActDispatch r []; ActDecrement r 1; ActRecord r] in
  let evs := close_writers one_tablet_closing in
  recorded_partitions acts ⊆ closed_partitions acts
  ∧ ∀ t w, _delta_writers one_tablet_channel !! t = Some w →
      if decide (replica_state w = Secondary)
      then (EvCommit t ∉ evs) ∧ (EvAbort t ∉ evs)
      else (EvCommit t ∈ evs
            ↔ partition_id w
              ∈ _partition_ids one_tablet_channel ∪ recorded_partitions acts)
           ∧ (EvAbort t ∈ evs
              ↔ partition_id w
                ∉ _partition_ids one_tablet_channel ∪ recorded_partitions acts).
Proof.
  intros r acts evs.
  eapply (closing_call_sees_recorded_partitions 40 one_tablet_channel acts
            _ r evs).
  - exact one_call_execution.
  - apply (step_close 40 one_tablet_closing [] [] None r).
Defined.

(** ** Segments and cancellation on an open channel *)

(** The writers of a channel that was opened and has served calls of
    [add_chunk] since are those of the tablets of the open request. *)
Lemma writers_of_open W open_writer init params ch0 acts sys t :
  open open_writer init params = Done (Value ch0) →
  execution W {| channel := ch0; calls := [] |} acts sys →
  is_Some (_delta_writers (channel sys) !! t)
  ↔ t ∈ tablet_id <$> tablets params.
Proof.
  intros Hopen Hexec. rewrite (writers_execution _ _ _ _ Hexec).
  unfold open, _open_all_writers in Hopen. case_decide; [done|].
  destruct (index_in_schema params); simpl in Hopen; [|done].
  destruct (open_writers _ _ _ _) as [[writers ids]|code] eqn:Hws; [|done].
  injection Hopen as <-. simpl.
  rewrite (open_writers_lookup _ _ _ _ _ _ t Hws), lookup_empty.
  assert (∀ p, p ∈ tablets params → ∃ w, open_writer p = Value w) as Hall.
  { revert Hws. generalize (∅ : gmap Z AsyncDeltaWriter), ([] : list Z).
    induction (tablets params) as [|q ts IH]; intros m l Hws p;
      [by intros ?%elem_of_nil|]. simpl in Hws.
    destruct (open_writer q) as [w|] eqn:Hq; [|done].
    intros [->|Hin]%elem_of_cons; eauto. }
  split.
  - destruct (list_find _ _) as [[k p]|] eqn:Hfind; simpl; [|by intros []].
    intros _. apply list_find_Some in Hfind as (Hk & Hp & _).
    apply list_elem_of_fmap. exists p. split; [done|].
    by eapply list_elem_of_lookup_2.
  - intros (p & -> & Hin)%list_elem_of_fmap.
    destruct (list_find (λ q, tablet_id q = tablet_id p) (tablets params))
      as [[k q]|] eqn:Hfind; simpl.
    + apply list_find_Some in Hfind as (Hk & _ & _).
      destruct (Hall q) as [w ->]; [by eapply list_elem_of_lookup_2|]. eauto.
    + apply list_find_None in Hfind.
      by apply (proj1 (Forall_forall _ _) Hfind) in Hin.
Qed.

(** X17. On a channel that was opened and has served any calls of
    [add_chunk] since, [add_segment] hands the request and its closure to a
    writer exactly when the tablet is one of the open request, and then
    writes nothing into the response and does not run the closure itself;
    for any other tablet it answers INTERNAL_ERROR and runs the closure. *)
Theorem add_segment_on_open_channel W open_writer init params ch0 acts sys t :
  open open_writer init params = Done (Value ch0) →
  execution W {| channel := ch0; calls := [] |} acts sys →
  add_segment (channel sys) t
  = if decide (t ∈ tablet_id <$> tablets params)
    then {| segment_status := None; done_run := false;
            write_segment := Some t |}
    else {| segment_status := Some INTERNAL_ERROR; done_run := true;
            write_segment := None |}.
Proof.
  intros Hopen Hexec.
  pose proof (writers_of_open _ _ _ _ _ _ _ t Hopen Hexec) as Hwriters.
  unfold add_segment.
  destruct (_delta_writers (channel sys) !! t) as [w|] eqn:Hw.
  - rewrite decide_True; [done|]. apply Hwriters. eauto.
  - rewrite decide_False; [done|]. intros [? [=]]%Hwriters.
Qed.

Lemma add_segment_on_open_channel_witness :
  add_segment one_tablet_closing 5
  = if decide (5 ∈ tablet_id <$> tablets one_tablet_request)
    then {| segment_status := None; done_run := false;
            write_segment := Some 5 |}
    else {| segment_status := Some INTERNAL_ERROR; done_run := true;
            write_segment := None |}.
Proof.
  eapply (add_segment_on_open_channel 40 primary_writer (-1)
           one_tablet_request one_tablet_channel _
           {| channel := one_tablet_closing;
              calls := [ {| call_chunk := None;
                            call_request := eos_request 0 0 [10];
                            call_stage := Closing |} ] |} 5).
  - vm_compute. reflexivity.
  - exact one_call_execution.
Defined.

(** X18. [cancel()] on a channel that was opened and has served any calls
    of [add_chunk] since aborts, without log, the writer of every tablet
    of the open request once, whatever its replica state and whether its
    partition was written to or not, and makes no other call. *)
Theorem cancel_aborts_every_writer W open_writer init params ch0 acts sys :
  open open_writer init params = Done (Value ch0) →
  execution W {| channel := ch0; calls := [] |} acts sys →
  NoDup (cancel (channel sys))
  ∧ ∀ c, c ∈ cancel (channel sys)
         ↔ ∃ t, t ∈ tablet_id <$> tablets params ∧ c = CallAbort t false.
Proof.
  intros Hopen Hexec. unfold cancel. split.
  - apply NoDup_fmap_2_strong; [|apply NoDup_map_to_list].
    intros [t w] [t' w'] Hin Hin' [= ->]. simpl in *.
    apply elem_of_map_to_list in Hin, Hin'. congruence.
  - intros c. rewrite list_elem_of_fmap. split.
    + intros ([t w] & -> & Hin%elem_of_map_to_list). exists t. split; [|done].
      apply (writers_of_open _ _ _ _ _ _ _ t Hopen Hexec). eauto.
    + intros (t & Hin & ->).
      apply (writers_of_open _ _ _ _ _ _ _ t Hopen Hexec) in Hin as [w Hw].
      exists (t, w). split; [done|]. by apply elem_of_map_to_list.
Qed.

Lemma cancel_aborts_every_writer_witness :
  NoDup (cancel one_tablet_closing)
  ∧ ∀ c, c ∈ cancel one_tablet_closing
         ↔ ∃ t, t ∈ tablet_id <$> tablets one_tablet_request
                ∧ c = CallAbort t false.
Proof.
  eapply (cancel_aborts_every_writer 40 primary_writer (-1)
           one_tablet_request one_tablet_channel _
           {| channel := one_tablet_closing;
              calls := [ {| call_chunk := None;
                            call_request := eos_request 0 0 [10];
                            call_stage := Closing |} ] |}).
  - vm_compute. reflexivity.
  - exact one_call_execution.
Defined.

(** X19. [cancel(tablet_id)] on such a channel aborts, with log, the
    writer of the tablet when the tablet is one of the open request, and
    does nothing for any other tablet id. *)
Theorem cancel_tablet_on_open_channel W open_writer init params ch0 acts sys t :
  open open_writer init params = Done (Value ch0) →
  execution W {| channel := ch0; calls := [] |} acts sys →
  cancel_tablet (channel sys) t
  = if decide (t ∈ tablet_id <$> tablets params) then [CallAbort t true] else [].
Proof.
  intros Hopen Hexec.
  pose proof (writers_of_open _ _ _ _ _ _ _ t Hopen Hexec) as Hwriters.
  unfold cancel_tablet.
  destruct (_delta_writers (channel sys) !! t) as [w|] eqn:Hw.
  - rewrite decide_True; [done|]. apply Hwriters. eauto.
  - rewrite decide_False; [done|]. intros [? [=]]%Hwriters.
Qed.

Lemma cancel_tablet_on_open_channel_witness :
  cancel_tablet one_tablet_closing 7
  = if decide (7 ∈ tablet_id <$> tablets one_tablet_request)
    then [CallAbort 7 true] else [].
Proof.
  eapply (cancel_tablet_on_open_channel 40 primary_writer (-1)
           one_tablet_request one_tablet_channel _
           {| channel := one_tablet_closing;
              calls := [ {| call_chunk := None;
                            call_request := eos_request 0 0 [10];
                            call_stage := Closing |} ] |} 7).
  - vm_compute. reflexivity.
  - exact one_call_execution.
Defined.

(** ** What a callback reports *)

Lemma add_dict_columns_spec items info :
  let info' := foldl add_dict_column info items in
  info_tablet_id info' = info_tablet_id info
  ∧ info_schema_hash info' = info_schema_hash info
  ∧ valid_dict_cache_columns info'
    = valid_dict_cache_columns info ++ (filter (λ i, i.2 = true) items).*1
  ∧ invalid_dict_cache_columns info'
    = invalid_dict_cache_columns info ++ (filter (λ i, i.2 = false) items).*1.
Proof.
  revert info. induction items as [|[name valid] items IH]; intros info.
  { simpl. by rewrite !app_nil_r. }
  cbn [foldl]. destruct (IH (add_dict_column info (name, valid)))
    as (Hid & Hhash & Hvalid & Hinvalid).
  cbn zeta. rewrite Hid, Hhash, Hvalid, Hinvalid, !filter_cons.
  unfold add_dict_column. destruct valid; simpl.
  - rewrite <- app_assoc. done.
  - rewrite <- app_assoc. done.
Qed.

(** X20. A callback updates the status of the write context first, once,
    whatever it is run with. Run with a committed rowset, it then reports
    the tablet of the rowset, with every dictionary column of the rowset
    writer listed once, among the valid columns when its flag is set and
    among the invalid ones when it is not, in the order of the iteration,
    and after it the tablets of the replicate token, in their order. Run
    without one it reports no tablet. *)
Theorem callback_reports st info :
  run st None = [UpdateStatus st]
  ∧ ∃ own,
      run st (Some info)
      = UpdateStatus st :: AddCommittedTabletInfo own
        :: (AddCommittedTabletInfo
              <$> default [] (replicated_tablet_infos info))
      ∧ info_tablet_id own = committed_tablet_id info
      ∧ info_schema_hash own = committed_schema_hash info
      ∧ valid_dict_cache_columns own
        = (filter (λ i, i.2 = true) (global_dict_columns_valid_info info)).*1
      ∧ invalid_dict_cache_columns own
        = (filter (λ i, i.2 = false) (global_dict_columns_valid_info info)).*1
      ∧ valid_dict_cache_columns own ++ invalid_dict_cache_columns own
        ≡ₚ (global_dict_columns_valid_info info).*1.
Proof.
  split; [done|]. eexists. split.
  { unfold run. destruct (replicated_tablet_infos info); reflexivity. }
  destruct (add_dict_columns_spec (global_dict_columns_valid_info info)
              {| info_tablet_id := committed_tablet_id info;
                 info_schema_hash := committed_schema_hash info;
                 valid_dict_cache_columns := [];
                 invalid_dict_cache_columns := [] |})
    as (Hid & Hhash & Hvalid & Hinvalid).
  cbn zeta in *. simpl in Hid, Hhash, Hvalid, Hinvalid.
  split; [done|]. split; [done|]. split; [done|]. split; [done|].
  rewrite Hvalid, Hinvalid, <- fmap_app. apply fmap_Permutation.
  rewrite <- (filter_app_complement (λ i, i.2 = true)
                (global_dict_columns_valid_info info)) at 3.
  apply Permutation_app; [done|].
  erewrite list_filter_iff; [done|]. intros [name []]; simpl; split; congruence.
Qed.

(** ** The count of open writers *)

Lemma opened_writers_Value open_writer ts writers ids writers' ids' :
  open_writers open_writer ts writers ids = Value (writers', ids') →
  opened_writers open_writer ts writers = writers'.
Proof.
  revert writers ids. induction ts as [|t ts IH]; intros writers ids; simpl.
  - by intros [= <- _].
  - destruct (open_writer t) as [w|code]; [|done]. apply IH.
Qed.

Lemma opened_writers_dom open_writer pre p post code writers :
  Forall (λ q, ∃ w, open_writer q = Value w) pre →
  open_writer p = Failure code →
  dom (opened_writers open_writer (pre ++ p :: post) writers)
  = dom writers ∪ list_to_set (tablet_id <$> pre).
Proof.
  intros Hpre Hp. revert writers.
  induction Hpre as [|q pre [w Hq] _ IH]; intros writers; simpl.
  - rewrite Hp. set_solver.
  - rewrite Hq, IH. unfold emplace.
    destruct (writers !! tablet_id q) as [w'|] eqn:Hw.
    + apply elem_of_dom_2 in Hw. set_solver.
    + rewrite dom_insert_L. set_solver.
Qed.

(** X21. The count of open writers, shared by all channels, is balanced by
    a channel that opens and is destroyed: it is raised by the number of
    writers when [_open_all_writers] succeeds and lowered by it in the
    destructor. A channel whose [_open_all_writers] fails is not counted,
    but its destructor still lowers the count, by the number of tablets
    whose writers had opened before the one that failed. *)
Theorem writer_count_after_destroy open_writer params count :
  0 ≤ count < 2 ^ 64 →
  count_after_destroy (count_after_open open_writer count params)
    (writers_after_open open_writer params)
  = match _open_all_writers open_writer params with
    | Value _ => count
    | Failure _ =>
        wrap64 (count
                - Z.of_nat (size (writers_after_open open_writer params)))
    end
  ∧ ∀ pre p post code,
      index_in_schema params = true →
      tablets params = pre ++ p :: post →
      Forall (λ q, ∃ w, open_writer q = Value w) pre →
      open_writer p = Failure code →
      size (writers_after_open open_writer params)
      = size (list_to_set (tablet_id <$> pre) : gset Z).
Proof.
  intros Hcount. split.
  - unfold count_after_destroy, count_after_open, writers_after_open.
    unfold _open_all_writers.
    destruct (index_in_schema params); simpl; [|done].
    destruct (open_writers _ _ _ _) as [[writers ids]|code] eqn:Hws; [|done].
    rewrite (opened_writers_Value _ _ _ _ _ _ Hws). unfold wrap64.
    rewrite Zminus_mod_idemp_l.
    replace (count + Z.of_nat (size writers) - Z.of_nat (size writers))
      with count by lia.
    by apply Z.mod_small.
  - intros pre p post code Hidx Hts Hpre Hp. unfold writers_after_open.
    rewrite Hidx, Hts. simpl.
    rewrite <- size_dom, (opened_writers_dom _ _ _ _ code); [|done..].
    rewrite dom_empty_L. f_equal. set_solver.
Qed.

Lemma writer_count_after_destroy_witness :
  count_after_destroy (count_after_open primary_writer 7 two_sender_request)
    (writers_after_open primary_writer two_sender_request)
  = match _open_all_writers primary_writer two_sender_request with
    | Value _ => 7
    | Failure _ =>
        wrap64 (7 - Z.of_nat (size (writers_after_open primary_writer
                                      two_sender_request)))
    end
  ∧ ∀ pre p post code,
      index_in_schema two_sender_request = true →
      tablets two_sender_request = pre ++ p :: post →
      Forall (λ q, ∃ w, primary_writer q = Value w) pre →
      primary_writer p = Failure code →
      size (writers_after_open primary_writer two_sender_request)
      = size (list_to_set (tablet_id <$> pre) : gset Z).
Proof.
  apply (writer_count_after_destroy primary_writer two_sender_request 7).
  lia.
Defined.

(** ** Waiting for the secondary replicas *)

Lemma elapsed_ms (elapsed_us : nat → Z) n :
  10000 * Z.of_nat n ≤ elapsed_us n →
  10 * Z.of_nat n ≤ elapsed_us n `quot` 1000.
Proof.
  intros Hsleep. rewrite Z.quot_div_nonneg by lia.
  apply Z.div_le_lower_bound; lia.
Qed.

Lemma wait_writer_bound get_state elapsed_us timeout_ms fuel t n :
  (∀ n, 10000 * Z.of_nat n ≤ elapsed_us n) →
  Z.of_nat n ≤ timeout_ms `div` 10 ∨ n = 0%nat →
  (S (Z.to_nat (timeout_ms `div` 10)) ≤ fuel + n)%nat →
  ∃ n' timed_out,
    wait_writer get_state elapsed_us timeout_ms fuel t n
    = Done (n', timed_out)
    ∧ (n ≤ n')%nat
    ∧ (n' ≤ S (Z.to_nat (timeout_ms `div` 10)))%nat
    ∧ (timed_out = false →
       (Z.of_nat n' ≤ timeout_ms `div` 10 ∨ n' = 0%nat)
       ∧ settled (get_state t n') = true).
Proof.
  intros Hsleep. revert n. induction fuel as [|fuel IH]; intros n Hn Hfuel.
  { simpl. destruct (settled (get_state t n)) eqn:Hsettled; [|lia].
    exists n, false. split; [done|]. split; [lia|]. split; [lia|]. done. }
  simpl. destruct (settled (get_state t n)) eqn:Hsettled.
  { exists n, false. split; [done|]. split; [lia|]. split; [lia|]. done. }
  destruct (decide (elapsed_us (S n) `quot` 1000 > timeout_ms)) as [Hout|Hin].
  { exists (S n), true. split; [done|]. split; [lia|]. split; [lia|done]. }
  pose proof (elapsed_ms elapsed_us (S n) (Hsleep _)) as Hms.
  assert (Z.of_nat (S n) ≤ timeout_ms `div` 10) as Hn'
    by (apply Z.div_le_lower_bound; lia).
  destruct (IH (S n) (or_introl Hn') ltac:(lia))
    as (n' & timed_out & -> & Hle & Hbound & Hres).
  exists n', timed_out. split; [done|]. split; [lia|done].
Qed.

Lemma wait_writers_bound get_state elapsed_us timeout_ms fuel writers n :
  (∀ n, 10000 * Z.of_nat n ≤ elapsed_us n) →
  Z.of_nat n ≤ timeout_ms `div` 10 ∨ n = 0%nat →
  (S (Z.to_nat (timeout_ms `div` 10)) ≤ fuel)%nat →
  ∃ n' timed_out,
    wait_writers get_state elapsed_us timeout_ms fuel writers n
    = Done (n', timed_out)
    ∧ (n ≤ n')%nat
    ∧ (n' ≤ S (Z.to_nat (timeout_ms `div` 10)))%nat
    ∧ (timed_out = false →
       ∀ t w, (t, w) ∈ writers → replica_state w = Secondary →
         ∃ k, (k ≤ n')%nat ∧ settled (get_state t k) = true).
Proof.
  intros Hsleep Hn Hfuel. revert n Hn.
  induction writers as [|[t w] writers IH]; intros n Hn; simpl.
  { exists n, false. split; [done|]. split; [lia|]. split; [lia|].
    intros _ t w Hin. by apply elem_of_nil in Hin. }
  destruct (decide (replica_state w = Secondary)) as [Hsec|Hprim].
  - destruct (wait_writer_bound get_state elapsed_us timeout_ms fuel t n
                Hsleep Hn ltac:(lia))
      as (n1 & timed_out & -> & Hle & Hbound & Hres). simpl.
    destruct timed_out.
    { exists n1, true. split; [done|]. split; [done|]. split; [done|]. done. }
    destruct (Hres eq_refl) as [Hn1 Hsettled].
    destruct (IH n1 Hn1) as (n' & timed_out & -> & Hle' & Hbound' & Hall).
    exists n', timed_out. split; [done|]. split; [lia|]. split; [done|].
    intros Hfalse t' w' [[= -> ->]|Hin]%elem_of_cons Hsec'.
    + exists n1. split; [done|]. done.
    + by apply (Hall Hfalse t' w').
  - destruct (IH n Hn) as (n' & timed_out & -> & Hle' & Hbound' & Hall).
    exists n', timed_out. split; [done|]. split; [done|]. split; [done|].
    intros Hfalse t' w' [[= -> ->]|Hin]%elem_of_cons Hsec'; [done|].
    by apply (Hall Hfalse t' w').
Qed.

(** X22. The wait for the secondary replicas at the close of a channel is
    bounded by the timeout of the request. When each sleep lasts the 10 ms
    asked for or longer, the closing call sleeps at most
    [timeout_ms / 10 + 1] times in all, over all writers together, before
    the block ends; and when the block ends without [timeout], every
    writer of a secondary replica has been seen committed, aborted or
    uninitialised. Without replicated storage, or in a call that does not
    close the channel, nothing is waited for. *)
Theorem secondary_wait_is_bounded get_state elapsed_us timeout_ms fuel
    replicated closing ch :
  (∀ n, 10000 * Z.of_nat n ≤ elapsed_us n) →
  (S (Z.to_nat (timeout_ms `div` 10)) ≤ fuel)%nat →
  ∃ n timed_out,
    wait_secondary get_state elapsed_us timeout_ms fuel replicated closing ch
    = Done (n, timed_out)
    ∧ (n ≤ S (Z.to_nat (timeout_ms `div` 10)))%nat
    ∧ (replicated && closing = false → n = 0%nat ∧ timed_out = false)
    ∧ (replicated && closing = true → timed_out = false →
       ∀ t w, _delta_writers ch !! t = Some w →
         replica_state w = Secondary →
         ∃ k, (k ≤ n)%nat ∧ settled (get_state t k) = true).
Proof.
  intros Hsleep Hfuel. unfold wait_secondary.
  destruct (replicated && closing) eqn:Hblock.
  - destruct (wait_writers_bound get_state elapsed_us timeout_ms fuel
                (map_to_list (_delta_writers ch)) 0 Hsleep (or_intror eq_refl)
                Hfuel)
      as (n & timed_out & -> & _ & Hbound & Hall).
    exists n, timed_out. split; [done|]. split; [done|]. split; [done|].
    intros _ Hfalse t w Hw. apply (Hall Hfalse t w).
    by apply elem_of_map_to_list.
  - exists 0%nat, false. split; [done|]. split; [lia|]. split; [done|done].
Qed.

Lemma secondary_wait_is_bounded_witness :
  ∃ n timed_out,
    wait_secondary (λ _ n, if decide (n < 3)%nat then kUnfinished
                           else kCommitted)
      (λ n, 10000 * Z.of_nat n) 1000 101 true true secondary_channel
    = Done (n, timed_out)
    ∧ (n ≤ S (Z.to_nat (1000 `div` 10)))%nat
    ∧ (true && true = false → n = 0%nat ∧ timed_out = false)
    ∧ (true && true = true → timed_out = false →
       ∀ t w, _delta_writers secondary_channel !! t = Some w →
         replica_state w = Secondary →
         ∃ k, (k ≤ n)%nat
              ∧ settled (if decide (k < 3)%nat then kUnfinished
                         else kCommitted) = true).
Proof.
  apply (secondary_wait_is_bounded
           (λ _ n, if decide (n < 3)%nat then kUnfinished else kCommitted)
           (λ n, 10000 * Z.of_nat n) 1000 101 true true secondary_channel).
  - intros n. lia.
  - vm_compute. lia.
Defined.
